(** * discord-player: the Player class (src/Player.ts)

    A shallow embedding of [Player]: the extractor registry ([use],
    [unuse]), the session registry ([createQueue], [getQueue],
    [deleteQueue]), the voice-state handler with its empty-channel
    timers ([_handleVoiceState]) and the resolution pipeline ([search]).

    JavaScript objects that are shared and mutated (Queue objects, the
    timers that close over them) live in an explicit store and are named
    by references; a [Collection] iterated in insertion order is an
    association list; exceptions and promise rejections are results. *)

From Stdlib Require Import ZArith String List Bool Lia DecimalString.
From stdpp Require Import gmap strings list fin_maps.
Import ListNotations.
Local Open Scope string_scope.

(** ** JavaScript values *)

Module Js.

(** What a call can throw, or a promise reject with. *)
Inductive JsError :=
  | Error (message : string)          (* throw new Error(message) *)
  | TypeError (message : string)      (* raised by the runtime *)
  | Rejection (reason : string).      (* a provider's rejected promise *)

(** A call either returns or throws. *)
Inductive Result (A : Type) :=
  | Ok (a : A)
  | Throw (e : JsError).
Arguments Ok {A} a.
Arguments Throw {A} e.

(** An awaited promise either resolves or rejects. *)
Inductive Fetch (A : Type) :=
  | Resolved (a : A)
  | Rejected (reason : string).
Arguments Resolved {A} a.
Arguments Rejected {A} reason.

(** Truthiness of a (possibly missing) string: [undefined], [null] and
    the empty string are falsy. *)
Definition truthy_string (v : option string) : bool :=
  match v with
  | Some s => negb (String.eqb s "")
  | None => false
  end.

(** Truthiness of a (possibly missing) boolean. *)
Definition truthy_bool (v : option bool) : bool :=
  match v with
  | Some b => b
  | None => false
  end.

(** Truthiness of a (possibly missing) number. *)
Definition truthy_number (v : option Z) : bool :=
  match v with
  | Some n => negb (Z.eqb n 0)
  | None => false
  end.

(** [a ?? b] *)
Definition nullish {A : Type} (a : option A) (b : A) : A :=
  match a with
  | Some x => x
  | None => b
  end.

(** [a ?? b] when [b] may be missing as well. *)
Definition nullish_opt {A : Type} (a b : option A) : option A :=
  match a with
  | Some x => Some x
  | None => b
  end.

(** A number inside a template literal. *)
Definition number_to_string (n : Z) : string :=
  NilZero.string_of_int (Z.to_int n).

(** The double-quote character as a string. *)
Definition double_quote : string := String (Ascii.ascii_of_nat 34) EmptyString.

(** A possibly missing string inside a template literal. *)
Definition template_string (v : option string) : string :=
  match v with
  | Some s => s
  | None => "undefined"
  end.

End Js.
Import Js.

(** Discord identifiers are strings. *)
Abbreviation Snowflake := string (only parsing).

(** ** The extractor registry: [Player.extractors], [use], [unuse] *)

Module Registry.

(** One normalized result of an extractor (the items of
    [ExtractorModelData.data]). *)
Record ExtractorItem := {
  ei_title : option string;
  ei_duration : Z;                    (* milliseconds *)
  ei_thumbnail : option string;
  ei_engine : option string;
  ei_views : option Z;
  ei_author : option string;
  ei_description : option string;
  ei_url : option string;
  ei_source : option string
}.

(** The playlist envelope an extractor may return. *)
Record ExtractorPlaylist := {
  ep_title : option string;
  ep_description : option string;
  ep_thumbnail : option string;
  ep_type : option string;
  ep_source : option string;
  ep_author_name : option string;
  ep_author_url : option string;
  ep_id : option string;
  ep_url : option string
}.

Record ExtractorModelData := {
  emd_playlist : option ExtractorPlaylist;
  emd_data : list ExtractorItem
}.

(** Modelled from the spec: the ExtractorModel class
    (Structures/ExtractorModel) is not part of Player.ts.  The spec gives
    it a unique name, a capability check over a query and a
    metadata-fetch operation returning zero or more normalized results,
    optionally grouped into a playlist envelope; as for every provider
    its fetch is asynchronous and may reject.  [em_oid] is the identity
    of the JavaScript object. *)
Record ExtractorModel := {
  em_oid : nat;
  em_name : string;
  em_validate : string -> bool;
  em_handle : string -> Fetch (option ExtractorModelData)
}.

(** The second argument of [use]: an ExtractorModel instance, or any
    other value, of which only the two methods matter. *)
Inductive ExtractorArg :=
  | ArgModel (m : ExtractorModel)
  | ArgNullish
  | ArgObject (validate : option (string -> bool))
              (getInfo : option (string -> Fetch (option ExtractorModelData))).

(** [Player.extractors] with the counter that names fresh objects. *)
Record Extractors := {
  entries : list (string * ExtractorModel);   (* insertion order *)
  next_oid : nat
}.

Definition empty : Extractors := {| entries := []; next_oid := 0 |}.

(** [Collection.get] *)
Fixpoint get (l : list (string * ExtractorModel)) (k : string) : option ExtractorModel :=
  match l with
  | [] => None
  | (k', m) :: rest => if String.eqb k k' then Some m else get rest k
  end.

(** [Collection.has] *)
Definition has (l : list (string * ExtractorModel)) (k : string) : bool :=
  match get l k with
  | Some _ => true
  | None => false
  end.

(** [Collection.set]: a known key keeps its place, a new key goes last. *)
Fixpoint set (l : list (string * ExtractorModel)) (k : string) (m : ExtractorModel)
  : list (string * ExtractorModel) :=
  match l with
  | [] => [(k, m)]
  | (k', m') :: rest =>
      if String.eqb k k' then (k', m) :: rest else (k', m') :: set rest k m
  end.

(** [Collection.delete] *)
Fixpoint remove (l : list (string * ExtractorModel)) (k : string)
  : list (string * ExtractorModel) :=
  match l with
  | [] => []
  | (k', m') :: rest =>
      if String.eqb k k' then rest else (k', m') :: remove rest k
  end.

(** Modelled from the spec: [new ExtractorModel(name, raw)], whose
    constructor is not part of Player.ts, wraps the raw object's
    capability check and metadata fetch under the given name. *)
Definition new_ExtractorModel (oid : nat) (extractorName : string)
    (validate : string -> bool)
    (getInfo : string -> Fetch (option ExtractorModelData)) : ExtractorModel :=
  {| em_oid := oid; em_name := extractorName;
     em_validate := validate; em_handle := getInfo |}.

(** [Player.use] *)
Definition use (r : Extractors) (extractorName : string)
    (extractor : ExtractorArg) (force : bool) : Result (ExtractorModel * Extractors) :=
  if negb (truthy_string (Some extractorName)) then
    Throw (Error "Cannot use unknown extractor!")
  else
    match get (entries r) extractorName, force with
    | Some existing, false => Ok (existing, r)
    | _, _ =>
        match extractor with
        | ArgModel m =>
            Ok (m, {| entries := set (entries r) extractorName m;
                      next_oid := next_oid r |})
        | ArgNullish => Throw (TypeError "Cannot read properties of undefined")
        | ArgObject (Some validate) (Some getInfo) =>
            let model := new_ExtractorModel (next_oid r) extractorName validate getInfo in
            Ok (model, {| entries := set (entries r) (em_name model) model;
                          next_oid := S (next_oid r) |})
        | ArgObject _ _ => Throw (Error "Invalid extractor data!")
        end
    end.

(** [Player.unuse] *)
Definition unuse (r : Extractors) (extractorName : string)
  : Result (ExtractorModel * Extractors) :=
  match get (entries r) extractorName with
  | None => Throw (Error ("Cannot find extractor " ++ double_quote
                            ++ extractorName ++ double_quote))
  | Some prev =>
      Ok (prev, {| entries := remove (entries r) extractorName;
                   next_oid := next_oid r |})
  end.

(** The registries a player can hold: built from the empty one by [use]
    and [unuse]. *)
Inductive reachable : Extractors -> Prop :=
  | reach_empty : reachable empty
  | reach_use r name x force m r' :
      reachable r -> use r name x force = Ok (m, r') -> reachable r'
  | reach_unuse r name m r' :
      reachable r -> unuse r name = Ok (m, r') -> reachable r'.

End Registry.

(** ** The session registry and the voice-state handler *)

Module Sessions.

Abbreviation QueueRef := nat (only parsing).
Abbreviation TimerId := nat (only parsing).
Abbreviation Channel := string (only parsing).

Record Guild := { guild_id : Snowflake }.

(** What the handler reads of a discord.js [VoiceState]. *)
Record VoiceState := {
  vs_guild : string;                  (* oldState.guild.id *)
  vs_member : Snowflake;              (* oldState.member.id *)
  vs_channelID : option Snowflake
}.

(** What the player reads of the discord.js client: the bot's own id and
    the resolution of loose guild references against its cache. *)
Record Client := {
  user_id : Snowflake;
  guilds_resolve : string -> option Guild
}.

(** [PlayerOptions & { metadata }] as [createQueue] and the handler use
    them. *)
Record PlayerOptions := {
  leaveOnEmpty : option bool;
  leaveOnEmptyCooldown : option Z;
  ytdlOptions : option string;
  metadata : option string
}.

Record DiscordPlayerInitOptions := {
  autoRegisterExtractor : option bool;
  init_ytdlOptions : option string
}.

Record Connection := { channel : option Channel }.

(** Modelled from the spec: the Queue class (Structures/Queue) is not
    part of Player.ts.  Of a session the spec keeps the guild, the
    nullable voice connection and channel, the map from cooldown key to
    pending timer handle and the configuration; [q_destroyed] records
    that teardown ran. *)
Record Queue := {
  q_guild : Guild;
  q_options : PlayerOptions;
  q_metadata : option string;
  q_connection : option Connection;
  q_cooldownsTimeout : gmap string TimerId;
  q_destroyed : bool
}.

Inductive PlayerEvent := botDisconnect | channelEmpty.

(** What the player does to its collaborators, in order. *)
Inductive Effect :=
  | Destroyed (q : QueueRef)                      (* queue.destroy() *)
  | Emitted (ev : PlayerEvent) (q : QueueRef).    (* this.emit(ev, queue) *)

(** The player with the objects it shares: Queue objects by reference,
    and the pending timeouts, each closing over its queue. *)
Record Player := {
  options : DiscordPlayerInitOptions;
  queues : gmap Snowflake QueueRef;               (* this.queues *)
  store : gmap QueueRef Queue;
  next_queue : QueueRef;
  timers : gmap TimerId (QueueRef * Z);           (* pending: closure, delay *)
  next_timer : TimerId;
  log : list Effect
}.

Definition new_Player (init : DiscordPlayerInitOptions) : Player :=
  {| options := init; queues := ∅; store := ∅; next_queue := 0;
     timers := ∅; next_timer := 0; log := [] |}.

Definition with_queues (f : gmap Snowflake QueueRef -> gmap Snowflake QueueRef)
    (p : Player) : Player :=
  {| options := options p; queues := f (queues p); store := store p;
     next_queue := next_queue p; timers := timers p;
     next_timer := next_timer p; log := log p |}.

Definition with_store (f : gmap QueueRef Queue -> gmap QueueRef Queue)
    (p : Player) : Player :=
  {| options := options p; queues := queues p; store := f (store p);
     next_queue := next_queue p; timers := timers p;
     next_timer := next_timer p; log := log p |}.

Definition with_timers (f : gmap TimerId (QueueRef * Z) -> gmap TimerId (QueueRef * Z))
    (p : Player) : Player :=
  {| options := options p; queues := queues p; store := store p;
     next_queue := next_queue p; timers := f (timers p);
     next_timer := next_timer p; log := log p |}.

Definition record (e : Effect) (p : Player) : Player :=
  {| options := options p; queues := queues p; store := store p;
     next_queue := next_queue p; timers := timers p;
     next_timer := next_timer p; log := log p ++ [e] |}.

Definition set_cooldowns (m : gmap string TimerId) (q : Queue) : Queue :=
  {| q_guild := q_guild q; q_options := q_options q; q_metadata := q_metadata q;
     q_connection := q_connection q; q_cooldownsTimeout := m;
     q_destroyed := q_destroyed q |}.

Definition set_connection (c : option Connection) (q : Queue) : Queue :=
  {| q_guild := q_guild q; q_options := q_options q; q_metadata := q_metadata q;
     q_connection := c; q_cooldownsTimeout := q_cooldownsTimeout q;
     q_destroyed := q_destroyed q |}.

Definition set_destroyed (q : Queue) : Queue :=
  {| q_guild := q_guild q; q_options := q_options q; q_metadata := q_metadata q;
     q_connection := q_connection q; q_cooldownsTimeout := q_cooldownsTimeout q;
     q_destroyed := true |}.

(** Modelled from the spec: [new Queue(player, guild, options)] followed
    by [queue.metadata = _meta].  The constructor is not part of
    Player.ts; the spec has it build the session from the supplied
    configuration, with no connection and no pending timer yet. *)
Definition new_Queue (guild : Guild) (opts : PlayerOptions) (meta : option string) : Queue :=
  {| q_guild := guild; q_options := opts; q_metadata := meta;
     q_connection := None; q_cooldownsTimeout := ∅; q_destroyed := false |}.

(** The player after the teardown of the session [q] behind [qr] went
    through: the session is marked, the mapping entry of its guild is
    gone, and the teardown is on record. *)
Definition torn_down (qr : QueueRef) (q : Queue) (p : Player) : Player :=
  record (Destroyed qr)
    (with_queues (delete (guild_id (q_guild q)))
       (with_store <[qr := set_destroyed q]> p)).

(** Modelled from the spec: [Queue.destroy], which is not part of
    Player.ts.  The spec has teardown end the session's voice connection
    and take the session out of the registry, once per session, and it
    has teardown fail (its errors are what [deleteQueue] swallows)
    without saying when.  Here teardown throws where there is nothing to
    tear down, for a session that has no voice connection and for a
    session that was torn down before, and a teardown that throws has
    changed nothing. *)
Definition Queue_destroy (qr : QueueRef) (p : Player) : Player * option JsError :=
  match store p !! qr with
  | None => (p, None)                  (* no such object: references never dangle *)
  | Some q =>
      if q_destroyed q
      then (p, Some (Error "Cannot use destroyed queue"))
      else match q_connection q with
           | None => (p, Some (TypeError "Cannot read properties of undefined (reading 'end')"))
           | Some _ => (torn_down qr q p, None)
           end
  end.

(** Modelled from the spec: joining a voice channel, which Structures/Queue
    performs, sets the session's connection and channel reference. *)
Definition Queue_connect (qr : QueueRef) (ch : Channel) (p : Player) : Player :=
  with_store (alter (set_connection (Some {| channel := Some ch |})) qr) p.

(** [this.emit(ev, queue)] *)
Definition emit (ev : PlayerEvent) (qr : QueueRef) (p : Player) : Player :=
  record (Emitted ev qr) p.

(** [Player.getQueue] *)
Definition getQueue (c : Client) (p : Player) (guild : string) : Result (option QueueRef) :=
  match guilds_resolve c guild with
  | None => Throw (Error "Unknown Guild")
  | Some g => Ok (queues p !! guild_id g)
  end.

(** [Player.createQueue].  The options object belongs to the caller and
    is mutated in place, so it is returned next to the queue. *)
Definition createQueue (c : Client) (p : Player) (guild : string)
    (queueInitOptions : option PlayerOptions)
  : Result (QueueRef * Player * option PlayerOptions) :=
  match guilds_resolve c guild with
  | None => Throw (Error "Unknown Guild")
  | Some g =>
      match queues p !! guild_id g with
      | Some existing => Ok (existing, p, queueInitOptions)
      | None =>
          match queueInitOptions with
          | None => Throw (TypeError "Cannot read properties of undefined (reading 'metadata')")
          | Some o =>
              let _meta := metadata o in
              let o' := {| leaveOnEmpty := leaveOnEmpty o;
                           leaveOnEmptyCooldown := leaveOnEmptyCooldown o;
                           ytdlOptions := nullish_opt (ytdlOptions o)
                                            (init_ytdlOptions (options p));
                           metadata := None |} in
              let qr := next_queue p in
              let p' := {| options := options p;
                           queues := <[guild_id g := qr]> (queues p);
                           store := <[qr := new_Queue g o' _meta]> (store p);
                           next_queue := S qr;
                           timers := timers p; next_timer := next_timer p;
                           log := log p |} in
              Ok (qr, p', Some o')
          end
      end
  end.

(** [Player.deleteQueue]: teardown inside try/catch, then the entry goes. *)
Definition deleteQueue (c : Client) (p : Player) (guild : string)
  : Result (option QueueRef * Player) :=
  match guilds_resolve c guild with
  | None => Throw (Error "Unknown Guild")
  | Some g =>
      let prev := queues p !! guild_id g in
      let p1 := match prev with
                | Some qr => fst (Queue_destroy qr p)   (* what it throws is swallowed *)
                | None => p                 (* the TypeError is swallowed *)
                end in
      Ok (prev, with_queues (delete (guild_id g)) p1)
  end.

(** The key of the empty-channel timer in [queue._cooldownsTimeout]. *)
Definition empty_key (guild : string) : string := "empty_" ++ guild.

(** [setTimeout(callback, delay)], the callback closing over [qr]. *)
Definition setTimeout (qr : QueueRef) (delay : Z) (p : Player) : TimerId * Player :=
  let t := next_timer p in
  (t, {| options := options p; queues := queues p; store := store p;
         next_queue := next_queue p;
         timers := <[t := (qr, delay)]> (timers p);
         next_timer := S t; log := log p |}).

(** [clearTimeout(t)] *)
Definition clearTimeout (t : TimerId) (p : Player) : Player :=
  with_timers (delete t) p.

(** The delay the handler passes to [setTimeout]:
    [queue.options.leaveOnEmptyCooldown || 0]. *)
Definition cooldown_of (queue : Queue) : Z :=
  if truthy_number (leaveOnEmptyCooldown (q_options queue))
  then nullish (leaveOnEmptyCooldown (q_options queue)) 0%Z
  else 0%Z.

(** [Player._handleVoiceState].  [isVoiceEmpty] is [Util.isVoiceEmpty]
    at the time of the event; it is handed [queue.connection.channel]. *)
Definition _handleVoiceState (c : Client) (isVoiceEmpty : option Channel -> bool)
    (p : Player) (oldState newState : VoiceState) : Player * option JsError :=
  match getQueue c p (vs_guild oldState) with
  | Throw e => (p, Some e)
  | Ok None => (p, None)
  | Ok (Some qr) =>
      if String.eqb (vs_member oldState) (user_id c)
         && negb (truthy_string (vs_channelID newState))
      then match Queue_destroy qr p with
           | (p1, Some e) => (p1, Some e)       (* destroy threw: no emit *)
           | (p1, None) => (emit botDisconnect qr p1, None)
           end
      else
      match store p !! qr with
      | None => (p, None)              (* no such object: the registry never dangles *)
      | Some queue =>
          if negb (truthy_bool (leaveOnEmpty (q_options queue))) then (p, None)
          else
            match q_connection queue with
            | None => (p, None)
            | Some conn =>
                match channel conn with
                | None => (p, None)
                | Some ch =>
                    let key := empty_key (vs_guild oldState) in
                    if negb (truthy_string (vs_channelID oldState))
                       || truthy_string (vs_channelID newState)
                    then
                      let emptyTimeout := q_cooldownsTimeout queue !! key in
                      let channelEmpty := isVoiceEmpty (Some ch) in
                      match emptyTimeout with
                      | Some t =>
                          if negb channelEmpty
                          then (with_store
                                  <[qr := set_cooldowns (delete key (q_cooldownsTimeout queue)) queue]>
                                  (clearTimeout t p), None)
                          else (p, None)
                      | None => (p, None)
                      end
                    else if negb (isVoiceEmpty (Some ch)) then (p, None)
                    else
                      let '(timeout, p1) := setTimeout qr (cooldown_of queue) p in
                      (with_store
                         <[qr := set_cooldowns (<[key := timeout]> (q_cooldownsTimeout queue)) queue]>
                         p1, None)
                end
            end
      end
  end.

(** The callback of the empty-channel timeout [t] running: the timer
    leaves the pending ones, then the body reads the queue object it
    closed over as it is now. *)
Definition fireTimeout (isVoiceEmpty : option Channel -> bool)
    (p : Player) (t : TimerId) : Player * option JsError :=
  match timers p !! t with
  | None => (p, None)                  (* not pending: nothing runs *)
  | Some (qr, _) =>
      let p1 := with_timers (delete t) p in
      match store p1 !! qr with
      | None => (p1, None)             (* no such object: closures never dangle *)
      | Some queue =>
          match q_connection queue with
          | None => (p1, Some (TypeError "Cannot read properties of null (reading 'channel')"))
          | Some conn =>
              if negb (isVoiceEmpty (channel conn)) then (p1, None)
              else if negb (bool_decide (is_Some (queues p1 !! guild_id (q_guild queue))))
              then (p1, None)
              else match Queue_destroy qr p1 with
                   | (p2, Some e) => (p2, Some e)       (* destroy threw: no emit *)
                   | (p2, None) => (emit channelEmpty qr p2, None)
                   end
          end
      end
  end.

(** The timers still pending whose callback closes over a queue of the
    given guild. *)
Definition pending_for (p : Player) (guild : Snowflake) : list TimerId :=
  List.filter (fun t =>
            match timers p !! t with
            | Some (qr, _) =>
                match store p !! qr with
                | Some q => bool_decide (guild_id (q_guild q) = guild)
                | None => false
                end
            | None => false
            end)
         (List.seq 0 (next_timer p)).

(** References held by the registry and by pending timers name stored
    objects, and the two counters are ahead of everything allocated. *)
Definition well_formed (p : Player) : Prop :=
  (forall g qr, queues p !! g = Some qr -> is_Some (store p !! qr))
  /\ (forall t qr d, timers p !! t = Some (qr, d) -> is_Some (store p !! qr))
  /\ (forall qr, is_Some (store p !! qr) -> qr < next_queue p)
  /\ (forall t, is_Some (timers p !! t) -> t < next_timer p).

(** The states a player gets into: from a new player by opening and
    closing sessions, by sessions joining channels, by voice-state
    events and by timers expiring, under any channel occupancy. *)
Inductive attainable (c : Client) : Player -> Prop :=
  | attain_new init : attainable c (new_Player init)
  | attain_create p guild opts qr p' opts' :
      attainable c p ->
      createQueue c p guild opts = Ok (qr, p', opts') ->
      attainable c p'
  | attain_delete p guild prev p' :
      attainable c p ->
      deleteQueue c p guild = Ok (prev, p') ->
      attainable c p'
  | attain_connect p qr ch :
      attainable c p -> attainable c (Queue_connect qr ch p)
  | attain_event p isVoiceEmpty oldState newState :
      attainable c p ->
      attainable c (fst (_handleVoiceState c isVoiceEmpty p oldState newState))
  | attain_expiry p isVoiceEmpty t :
      attainable c p -> attainable c (fst (fireTimeout isVoiceEmpty p t)).

(** *** The re-checks of an expiring timer, in the spec's words *)





End Sessions.

(** ** The resolution pipeline: [Player.search] *)

Module Resolve.
Import Registry.

Abbreviation User := string (only parsing).

(** The members of [QueryType] that [search] names; [OTHER] stands for
    every further member, which [search] sends to its default case. *)
Inductive QueryType :=
  | AUTO
  | YOUTUBE_SEARCH
  | YOUTUBE_PLAYLIST
  | SOUNDCLOUD_TRACK
  | SOUNDCLOUD_SEARCH
  | SOUNDCLOUD_PLAYLIST
  | SPOTIFY_SONG
  | SPOTIFY_ALBUM
  | SPOTIFY_PLAYLIST
  | OTHER.

Definition QueryType_eqb (a b : QueryType) : bool :=
  match a, b with
  | AUTO, AUTO | YOUTUBE_SEARCH, YOUTUBE_SEARCH
  | YOUTUBE_PLAYLIST, YOUTUBE_PLAYLIST | SOUNDCLOUD_TRACK, SOUNDCLOUD_TRACK
  | SOUNDCLOUD_SEARCH, SOUNDCLOUD_SEARCH | SOUNDCLOUD_PLAYLIST, SOUNDCLOUD_PLAYLIST
  | SPOTIFY_SONG, SPOTIFY_SONG | SPOTIFY_ALBUM, SPOTIFY_ALBUM
  | SPOTIFY_PLAYLIST, SPOTIFY_PLAYLIST | OTHER, OTHER => true
  | _, _ => false
  end.

(** *** Provider metadata, as far as [search] reads it *)

Record YTChannel := { ch_name : option string; ch_url : option string }.

Record Thumbnail := {
  th_url : option string;
  th_displayThumbnailURL : string -> option string
}.

(** A youtube-sr video. *)
Record Video := {
  v_title : option string;
  v_description : option string;
  v_channel : option YTChannel;
  v_url : option string;
  v_thumbnail : option Thumbnail;
  v_views : option Z;
  v_duration : Z;                        (* milliseconds *)
  v_durationFormatted : string;
  v_source : option string
}.

(** A youtube-sr playlist. *)
Record YTPlaylist := {
  ytp_title : option string;
  ytp_thumbnail : option string;
  ytp_channel : option YTChannel;
  ytp_id : option string;
  ytp_url : option string;
  ytp_videos : list Video
}.

Record SCAuthor := {
  au_name : option string;
  au_username : option string;
  au_profile : option string
}.

(** A soundcloud-scraper song. *)
Record Song := {
  song_title : option string;
  song_url : option string;
  song_duration : Z;                     (* milliseconds *)
  song_description : option string;
  song_thumbnail : option string;
  song_playCount : option Z;
  song_author : option SCAuthor
}.

(** One hit of a SoundCloud search. *)
Record SearchHit := { hit_url : string }.

(** A soundcloud-scraper playlist; [scp_songs] is what iterating it
    yields. *)
Record SCPlaylist := {
  scp_title : option string;
  scp_description : option string;
  scp_thumbnail : option string;
  scp_author : option SCAuthor;
  scp_id : Z;
  scp_url : option string;
  scp_songs : list Song
}.

Record ExternalUrls := { spotify : option string }.
Record Artist := { artist_name : option string; artist_external_urls : option ExternalUrls }.
Record Image := { image_url : option string }.
Record Album := { album_images : list Image }.

(** A Spotify track object. *)
Record SpotifyTrack := {
  sp_name : option string;
  sp_description : option string;
  sp_artists : list Artist;
  sp_external_urls : option ExternalUrls;
  sp_album : option Album;
  sp_duration_ms : Z
}.

(** An entry of [tracks.items]: an album lists track objects, a playlist
    wraps each in [track]. *)
Record SpotifyItem := {
  it_self : SpotifyTrack;
  it_track : option SpotifyTrack
}.

Record Owner := {
  owner_display_name : option string;
  owner_id : option string;
  owner_external_urls : option ExternalUrls
}.

(** What [Spotify.getData] resolves with. *)
Record SpotifyData := {
  sd_name : option string;
  sd_title : option string;
  sd_description : option string;
  sd_artists : list Artist;
  sd_external_urls : option ExternalUrls;
  sd_album : option Album;
  sd_preview_url : option string;
  sd_duration_ms : Z;
  sd_images : list Image;
  sd_type : option string;
  sd_owner : option Owner;
  sd_items : list SpotifyItem;
  sd_id : option string
}.

(** *** The Track and Playlist model *)

Inductive RawPlaylist :=
  | RawSpotify (d : SpotifyData)
  | RawSoundCloud (d : SCPlaylist)
  | RawYouTube (d : YTPlaylist).

Inductive Engine :=
  | EngineSong (s : Song)
  | EngineOpaque (e : string).

(** A Playlist without its tracks: what a Track's back-reference names. *)
Record PlaylistHead := {
  pl_title : option string;
  pl_description : option string;
  pl_thumbnail : option string;
  pl_type : option string;
  pl_source : option string;
  pl_author_name : option string;
  pl_author_url : option string;
  pl_id : option string;
  pl_url : option string;
  pl_rawPlaylist : option RawPlaylist
}.

(** A Track is represented by the data [search] hands to [new Track]
    (the class itself is Structures/Track). *)
Record Track := {
  t_title : option string;
  t_description : option string;
  t_author : option string;
  t_url : option string;
  t_thumbnail : option string;
  t_duration : string;
  t_views : option Z;
  t_requestedBy : option User;
  t_playlist : option PlaylistHead;
  t_source : option string;
  t_raw : option Video;
  t_engine : option Engine
}.

Record Playlist := {
  pl_head : PlaylistHead;
  pl_tracks : list Track
}.

(** What [search] resolves with. *)
Record SearchResult := {
  playlist : option Playlist;
  tracks : list Track
}.

Definition empty_result : SearchResult := {| playlist := None; tracks := [] |}.

Inductive Query :=
  | QueryTrack (t : Track)
  | QueryString (q : string).

Record SearchOptions := {
  so_requestedBy : option string;
  so_searchEngine : option QueryType     (* None: the key is absent *)
}.

(** *** Collaborators outside Player.ts *)

(** The helpers and providers [search] calls.  Each provider operation
    is asynchronous: it resolves, possibly with nothing, or rejects. *)
Record Collaborators := {
  TimeData : Type;
  Util_parseMS : Z -> TimeData;
  Util_buildTimeCode : TimeData -> string;
  QueryResolver_resolve : string -> QueryType;
  users_resolve : option string -> option User;
  YouTube_search : string -> Fetch (option (list Video));
  soundcloud_search : string -> Fetch (option (list SearchHit));
  soundcloud_getSongInfo : string -> Fetch (option Song);
  Spotify_getData : string -> Fetch (option SpotifyData);
  SoundCloud_getPlaylist : string -> Fetch (option SCPlaylist);
  YouTube_getPlaylist : string -> Fetch (option YTPlaylist);
  ytpl_fetch : YTPlaylist -> Fetch YTPlaylist   (* the playlist after loading more videos *)
}.

(** [Util.buildTimeCode(Util.parseMS(ms))] *)
Definition timeCode (env : Collaborators) (ms : Z) : string :=
  Util_buildTimeCode env (Util_parseMS env ms).

(** *** Calls and their trace *)

Inductive Call :=
  | extractor_handle (oid : nat) (query : string)
  | call_YouTube_search (query : string)
  | call_soundcloud_search (query : string)
  | call_soundcloud_getSongInfo (url : string)
  | call_Spotify_getData (query : string)
  | call_SoundCloud_getPlaylist (query : string)
  | call_YouTube_getPlaylist (query : string)
  | call_ytpl_fetch (id : option string).

(** The calls the built-in source handlers make. *)
Definition is_builtin (c : Call) : bool :=
  match c with
  | extractor_handle _ _ => false
  | _ => true
  end.

(** An asynchronous computation: the provider calls made, in order, and
    how it settled. *)
Definition M (A : Type) : Type := list Call * Result A.

Definition ret {A : Type} (a : A) : M A := ([], Ok a).

Definition throw {A : Type} (e : JsError) : M A := ([], Throw e).

Definition bind {A B : Type} (m : M A) (f : A -> M B) : M B :=
  match m with
  | (t, Ok a) => let '(t', r) := f a in ((t ++ t')%list, r)
  | (t, Throw e) => (t, Throw e)
  end.

Notation "'let*' x ':=' m 'in' k" := (bind m (fun x => k))
  (at level 10, x name, m at level 100, k at level 200).

(** [await provider(...)] with no handler: a rejection is thrown. *)
Definition await {A : Type} (c : Call) (outcome : Fetch A) : M A :=
  ([c], match outcome with
        | Resolved a => Ok a
        | Rejected reason => Throw (Rejection reason)
        end).

(** [await provider(...).catch(() => {})]: a rejection becomes
    [undefined]. *)
Definition await_catch {A : Type} (c : Call) (outcome : Fetch (option A)) : M (option A) :=
  ([c], match outcome with
        | Resolved a => Ok a
        | Rejected _ => Ok None
        end).

(** [xs.map(f)] where [f] may throw. *)
Fixpoint mapM {A B : Type} (f : A -> M B) (xs : list A) : M (list B) :=
  match xs with
  | [] => ret []
  | x :: rest =>
      let* y := f x in
      let* ys := mapM f rest in
      ret (y :: ys)
  end.

(** *** String helpers *)

(** The rest of [s] after the first occurrence of [sep]. *)
Fixpoint after_first (sep s : string) : option string :=
  if String.prefix sep s
  then Some (String.substring (String.length sep) (String.length s) s)
  else match s with
       | EmptyString => None
       | String _ s' => after_first sep s'
       end.

(** [s] up to the first occurrence of [sep]. *)
Fixpoint before_first (sep s : string) : string :=
  if String.prefix sep s then EmptyString
  else match s with
       | EmptyString => EmptyString
       | String c s' => String c (before_first sep s')
       end.

(** [s.split(sep)[1]] for a non-empty separator. *)
Definition split_1 (sep s : string) : option string :=
  option_map (before_first sep) (after_first sep s).

(** [xs[0]] *)
Definition first {A : Type} (xs : list A) : option A :=
  match xs with
  | [] => None
  | x :: _ => Some x
  end.

(** [a?.b] for a nullable field [b]. *)
Definition chain {A B : Type} (a : option A) (f : A -> option B) : option B :=
  match a with
  | Some x => f x
  | None => None
  end.

(** *** The registry-extractor path (the loop over [this.extractors]) *)

Definition head_of_envelope (ep : ExtractorPlaylist) : PlaylistHead :=
  {| pl_title := ep_title ep; pl_description := ep_description ep;
     pl_thumbnail := ep_thumbnail ep; pl_type := ep_type ep;
     pl_source := ep_source ep; pl_author_name := ep_author_name ep;
     pl_author_url := ep_author_url ep; pl_id := ep_id ep;
     pl_url := ep_url ep; pl_rawPlaylist := None |}.

(** [new Track(this, {...m, requestedBy, duration: ..., playlist})] *)
Definition track_of_item (env : Collaborators) (requestedBy : option User)
    (pl : option PlaylistHead) (m : ExtractorItem) : Track :=
  {| t_title := ei_title m; t_description := ei_description m;
     t_author := ei_author m; t_url := ei_url m;
     t_thumbnail := ei_thumbnail m;
     t_duration := timeCode env (ei_duration m);
     t_views := ei_views m; t_requestedBy := requestedBy;
     t_playlist := pl; t_source := ei_source m;
     t_raw := None; t_engine := option_map EngineOpaque (ei_engine m) |}.

(** The result built from an extractor's non-empty data. *)
Definition normalize (env : Collaborators) (requestedBy : option User)
    (data : ExtractorModelData) : SearchResult :=
  let pl := option_map head_of_envelope (emd_playlist data) in
  let ts := map (track_of_item env requestedBy pl) (emd_data data) in
  {| playlist := option_map (fun h => {| pl_head := h; pl_tracks := ts |}) pl;
     tracks := ts |}.

(** [data && data.data.length] *)
Definition has_results (data : option ExtractorModelData) : bool :=
  match data with
  | Some d => negb (Nat.eqb (length (emd_data d)) 0)
  | None => false
  end.

(** The loop: [Some] result when an extractor returned from [search],
    [None] when the loop ran to its end. *)
Fixpoint try_extractors (env : Collaborators) (requestedBy : option User)
    (query : string) (exts : list (string * ExtractorModel))
  : M (option SearchResult) :=
  match exts with
  | [] => ret None
  | (_, extractor) :: rest =>
      if negb (em_validate extractor query)
      then try_extractors env requestedBy query rest
      else
        let* data := await (extractor_handle (em_oid extractor) query)
                           (em_handle extractor query) in
        match data with
        | Some d =>
            if has_results data
            then ret (Some (normalize env requestedBy d))
            else try_extractors env requestedBy query rest
        | None => try_extractors env requestedBy query rest
        end
  end.

(** *** The built-in source handlers (the cases of the switch) *)

Definition placeholder_spotify : string :=
  "https://www.scdn.co/i/_global/twitter_card-default.jpg".

Definition placeholder_soundcloud : string :=
  "https://soundcloud.com/pwa-icon-192.png".

(** case YOUTUBE_SEARCH: one track per video. *)
Definition youtube_search_track (requestedBy : option User) (m : Video) : Track :=
  let m' := {| v_title := v_title m; v_description := v_description m;
               v_channel := v_channel m; v_url := v_url m;
               v_thumbnail := v_thumbnail m; v_views := v_views m;
               v_duration := v_duration m;
               v_durationFormatted := v_durationFormatted m;
               v_source := Some "youtube" |} in
  {| t_title := v_title m; t_description := v_description m;
     t_author := chain (v_channel m) ch_name; t_url := v_url m;
     t_thumbnail := chain (v_thumbnail m)
                      (fun th => th_displayThumbnailURL th "maxresdefault");
     t_duration := v_durationFormatted m;
     t_views := v_views m; t_requestedBy := requestedBy;
     t_playlist := None; t_source := None;
     t_raw := Some m'; t_engine := None |}.

Definition handle_youtube_search (env : Collaborators) (requestedBy : option User)
    (query : string) : M SearchResult :=
  let* videos := await_catch (call_YouTube_search query) (YouTube_search env query) in
  match videos with
  | None => ret empty_result
  | Some vs =>
      ret {| playlist := None; tracks := map (youtube_search_track requestedBy) vs |}
  end.

(** case SOUNDCLOUD_TRACK, SOUNDCLOUD_SEARCH: the loop over the hits. *)
Fixpoint soundcloud_tracks (env : Collaborators) (requestedBy : option User)
    (result : list SearchHit) : M (list Track) :=
  match result with
  | [] => ret []
  | r :: rest =>
      let* trackInfo := await_catch (call_soundcloud_getSongInfo (hit_url r))
                                    (soundcloud_getSongInfo env (hit_url r)) in
      match trackInfo with
      | None => soundcloud_tracks env requestedBy rest
      | Some info =>
          match song_author info with
          | None => throw (TypeError "Cannot read properties of undefined (reading 'name')")
          | Some author =>
              let track :=
                {| t_title := song_title info; t_description := song_description info;
                   t_author := au_name author; t_url := song_url info;
                   t_thumbnail := song_thumbnail info;
                   t_duration := timeCode env (song_duration info);
                   t_views := song_playCount info; t_requestedBy := requestedBy;
                   t_playlist := None; t_source := Some "soundcloud";
                   t_raw := None; t_engine := Some (EngineSong info) |} in
              let* res := soundcloud_tracks env requestedBy rest in
              ret (track :: res)
          end
      end
  end.

Definition handle_soundcloud (env : Collaborators) (requestedBy : option User)
    (query : string) : M SearchResult :=
  let* result :=
    if QueryType_eqb (QueryResolver_resolve env query) SOUNDCLOUD_TRACK
    then ret (Some [ {| hit_url := query |} ])
    else await_catch (call_soundcloud_search query) (soundcloud_search env query) in
  match result with
  | None => ret empty_result
  | Some [] => ret empty_result
  | Some hits =>
      let* res := soundcloud_tracks env requestedBy hits in
      ret {| playlist := None; tracks := res |}
  end.

(** case SPOTIFY_SONG.  In the thumbnail, [??] binds tighter than the
    conditional: the image URL or the preview length is the condition. *)
Definition spotify_song_thumbnail (d : SpotifyData) : string :=
  let cond :=
    match chain (chain (sd_album d) (fun a => first (album_images a))) image_url with
    | Some u => truthy_string (Some u)
    | None => truthy_number
                (option_map (fun s => Z.of_nat (String.length s)) (sd_preview_url d))
    end in
  if cond
  then "https://i.scdn.co/image/"
         ++ template_string (chain (sd_preview_url d) (split_1 "?cid="))
  else placeholder_spotify.

Definition unknown_artist (name : option string) : option string :=
  Some (nullish name "Unknown Artist").

Definition handle_spotify_song (env : Collaborators) (requestedBy : option User)
    (query : string) : M SearchResult :=
  let* spotifyData := await_catch (call_Spotify_getData query) (Spotify_getData env query) in
  match spotifyData with
  | None => ret empty_result
  | Some d =>
      let spotifyTrack :=
        {| t_title := sd_name d;
           t_description := Some (nullish (sd_description d) "");
           t_author := unknown_artist (chain (first (sd_artists d)) artist_name);
           t_url := Some (nullish (chain (sd_external_urls d) spotify) query);
           t_thumbnail := Some (spotify_song_thumbnail d);
           t_duration := timeCode env (sd_duration_ms d);
           t_views := Some 0%Z; t_requestedBy := requestedBy;
           t_playlist := None; t_source := Some "spotify";
           t_raw := None; t_engine := None |} in
      ret {| playlist := None; tracks := [spotifyTrack] |}
  end.

(** case SPOTIFY_PLAYLIST, SPOTIFY_ALBUM *)
Definition is_playlist_type (d : SpotifyData) : bool :=
  match sd_type d with
  | Some ty => String.eqb ty "playlist"
  | None => false
  end.

Definition spotify_head (query : string) (d : SpotifyData) : PlaylistHead :=
  let artist := first (sd_artists d) in
  {| pl_title := nullish_opt (sd_name d) (sd_title d);
     pl_description := Some (nullish (sd_description d) "");
     pl_thumbnail := Some (nullish (chain (first (sd_images d)) image_url)
                                   placeholder_spotify);
     pl_type := sd_type d;
     pl_source := Some "spotify";
     pl_author_name :=
       if negb (is_playlist_type d)
       then unknown_artist (chain artist artist_name)
       else unknown_artist
              (nullish_opt (chain (sd_owner d) owner_display_name)
                           (chain (sd_owner d) owner_id));
     pl_author_url :=
       if negb (is_playlist_type d)
       then chain (chain artist artist_external_urls) spotify
       else chain (chain (sd_owner d) owner_external_urls) spotify;
     pl_id := sd_id d;
     pl_url := Some (nullish (chain (sd_external_urls d) spotify) query);
     pl_rawPlaylist := Some (RawSpotify d) |}.

(** A track of an album: the item is the track object. *)
Definition spotify_album_track (env : Collaborators) (requestedBy : option User)
    (query : string) (d : SpotifyData) (pl : PlaylistHead) (m : SpotifyItem) : Track :=
  let tr := it_self m in
  {| t_title := Some (nullish (sp_name tr) "");
     t_description := Some (nullish (sp_description tr) "");
     t_author := unknown_artist (chain (first (sp_artists tr)) artist_name);
     t_url := Some (nullish (chain (sp_external_urls tr) spotify) query);
     t_thumbnail := Some (nullish (chain (first (sd_images d)) image_url)
                                  placeholder_spotify);
     t_duration := timeCode env (sp_duration_ms tr);
     t_views := Some 0%Z; t_requestedBy := requestedBy;
     t_playlist := Some pl; t_source := Some "spotify";
     t_raw := None; t_engine := None |}.

(** A track of a playlist: the track object is under [m.track]. *)
Definition spotify_playlist_track (env : Collaborators) (requestedBy : option User)
    (query : string) (pl : PlaylistHead) (m : SpotifyItem) : M Track :=
  match it_track m with
  | None => throw (TypeError "Cannot read properties of undefined (reading 'name')")
  | Some tr =>
      ret {| t_title := Some (nullish (sp_name tr) "");
             t_description := Some (nullish (sp_description tr) "");
             t_author := unknown_artist (chain (first (sp_artists tr)) artist_name);
             t_url := Some (nullish (chain (sp_external_urls tr) spotify) query);
             t_thumbnail :=
               Some (nullish (chain (chain (sp_album tr) (fun a => first (album_images a)))
                                    image_url)
                             placeholder_spotify);
             t_duration := timeCode env (sp_duration_ms tr);
             t_views := Some 0%Z; t_requestedBy := requestedBy;
             t_playlist := Some pl; t_source := Some "spotify";
             t_raw := None; t_engine := None |}
  end.

Definition handle_spotify_list (env : Collaborators) (requestedBy : option User)
    (query : string) : M SearchResult :=
  let* spotifyPlaylist := await_catch (call_Spotify_getData query) (Spotify_getData env query) in
  match spotifyPlaylist with
  | None => ret empty_result
  | Some d =>
      let pl := spotify_head query d in
      let* ts :=
        if negb (is_playlist_type d)
        then ret (map (spotify_album_track env requestedBy query d pl) (sd_items d))
        else mapM (spotify_playlist_track env requestedBy query pl) (sd_items d) in
      ret {| playlist := Some {| pl_head := pl; pl_tracks := ts |}; tracks := ts |}
  end.

(** case SOUNDCLOUD_PLAYLIST *)
Definition soundcloud_head (data : SCPlaylist) : PlaylistHead :=
  {| pl_title := scp_title data;
     pl_description := Some (nullish (scp_description data) "");
     pl_thumbnail := Some (nullish (scp_thumbnail data) placeholder_soundcloud);
     pl_type := Some "playlist";
     pl_source := Some "soundcloud";
     pl_author_name :=
       unknown_artist (nullish_opt (chain (scp_author data) au_name)
                                   (chain (scp_author data) au_username));
     pl_author_url := chain (scp_author data) au_profile;
     pl_id := Some (number_to_string (scp_id data));
     pl_url := scp_url data;
     pl_rawPlaylist := Some (RawSoundCloud data) |}.

Definition soundcloud_playlist_track (env : Collaborators) (requestedBy : option User)
    (res : PlaylistHead) (song : Song) : Track :=
  {| t_title := song_title song;
     t_description := Some (nullish (song_description song) "");
     t_author :=
       unknown_artist (nullish_opt (chain (song_author song) au_username)
                                   (chain (song_author song) au_name));
     t_url := song_url song;
     t_thumbnail := song_thumbnail song;
     t_duration := timeCode env (song_duration song);
     t_views := Some (nullish (song_playCount song) 0%Z);
     t_requestedBy := requestedBy;
     t_playlist := Some res; t_source := Some "soundcloud";
     t_raw := None; t_engine := Some (EngineSong song) |}.

Definition handle_soundcloud_playlist (env : Collaborators) (requestedBy : option User)
    (query : string) : M SearchResult :=
  let* data := await_catch (call_SoundCloud_getPlaylist query)
                           (SoundCloud_getPlaylist env query) in
  match data with
  | None => ret empty_result
  | Some d =>
      let res := soundcloud_head d in
      let ts := map (soundcloud_playlist_track env requestedBy res) (scp_songs d) in
      ret {| playlist := Some {| pl_head := res; pl_tracks := ts |}; tracks := ts |}
  end.

(** case YOUTUBE_PLAYLIST *)
Definition youtube_playlist_track (requestedBy : option User)
    (pl : PlaylistHead) (video : Video) : M Track :=
  match v_thumbnail video with
  | None => throw (TypeError "Cannot read properties of undefined (reading 'url')")
  | Some th =>
      ret {| t_title := v_title video; t_description := v_description video;
             t_author := chain (v_channel video) ch_name; t_url := v_url video;
             t_thumbnail := th_url th;
             t_duration := v_durationFormatted video;
             t_views := v_views video; t_requestedBy := requestedBy;
             t_playlist := Some pl; t_source := Some "youtube";
             t_raw := Some video; t_engine := None |}
  end.

(** [await ytpl.fetch().catch(() => {})]: the playlist object as it is
    afterwards. *)
Definition fetch_more (env : Collaborators) (ytpl : YTPlaylist) : M YTPlaylist :=
  ([call_ytpl_fetch (ytp_id ytpl)],
   Ok match ytpl_fetch env ytpl with
      | Resolved loaded => loaded
      | Rejected _ => ytpl
      end).

Definition handle_youtube_playlist (env : Collaborators) (requestedBy : option User)
    (query : string) : M SearchResult :=
  let* found := await_catch (call_YouTube_getPlaylist query) (YouTube_getPlaylist env query) in
  match found with
  | None => ret empty_result
  | Some ytpl0 =>
      let* ytpl := fetch_more env ytpl0 in
      match ytp_channel ytpl with
      | None => throw (TypeError "Cannot read properties of undefined (reading 'name')")
      | Some channel =>
          let pl :=
            {| pl_title := ytp_title ytpl; pl_description := Some "";
               pl_thumbnail := ytp_thumbnail ytpl;
               pl_type := Some "playlist"; pl_source := Some "youtube";
               pl_author_name := ch_name channel; pl_author_url := ch_url channel;
               pl_id := ytp_id ytpl; pl_url := ytp_url ytpl;
               pl_rawPlaylist := Some (RawYouTube ytpl) |} in
          let* ts := mapM (youtube_playlist_track requestedBy pl) (ytp_videos ytpl) in
          ret {| playlist := Some {| pl_head := pl; pl_tracks := ts |}; tracks := ts |}
      end
  end.

(** The switch on the source kind. *)
Definition builtin (env : Collaborators) (requestedBy : option User)
    (query : string) (qt : QueryType) : M SearchResult :=
  match qt with
  | YOUTUBE_SEARCH => handle_youtube_search env requestedBy query
  | SOUNDCLOUD_TRACK | SOUNDCLOUD_SEARCH => handle_soundcloud env requestedBy query
  | SPOTIFY_SONG => handle_spotify_song env requestedBy query
  | SPOTIFY_PLAYLIST | SPOTIFY_ALBUM => handle_spotify_list env requestedBy query
  | SOUNDCLOUD_PLAYLIST => handle_soundcloud_playlist env requestedBy query
  | YOUTUBE_PLAYLIST => handle_youtube_playlist env requestedBy query
  | AUTO | OTHER => ret empty_result
  end.

(** The source kind [search] dispatches on. *)
Definition effective_kind (env : Collaborators) (query : string)
    (searchEngine : QueryType) : QueryType :=
  if QueryType_eqb searchEngine AUTO
  then QueryResolver_resolve env query
  else searchEngine.

(** [Player.search] *)
Definition search (env : Collaborators) (exts : list (string * ExtractorModel))
    (query : Query) (options : option SearchOptions) : M SearchResult :=
  match query with
  | QueryTrack t => ret {| playlist := None; tracks := [t] |}
  | QueryString q =>
      match options with
      | None => throw (Error "DiscordPlayer#search needs search options!")
      | Some o =>
          let requestedBy := users_resolve env (so_requestedBy o) in
          let searchEngine := nullish (so_searchEngine o) AUTO in
          let* hit := try_extractors env requestedBy q exts in
          match hit with
          | Some result => ret result
          | None => builtin env requestedBy q (effective_kind env q searchEngine)
          end
      end
  end.

(** *** What the handlers fetched *)

(** Whether the provider operation behind a call rejects.  The page
    load of a playlist is asked about the playlist it was called on. *)
Definition rejected {A : Type} (outcome : Fetch A) : bool :=
  match outcome with
  | Resolved _ => false
  | Rejected _ => true
  end.

Definition fetch_rejects (env : Collaborators) (loaded_from : option YTPlaylist)
    (c : Call) : bool :=
  match c with
  | extractor_handle _ _ => false
  | call_YouTube_search q => rejected (YouTube_search env q)
  | call_soundcloud_search q => rejected (soundcloud_search env q)
  | call_soundcloud_getSongInfo url => rejected (soundcloud_getSongInfo env url)
  | call_Spotify_getData q => rejected (Spotify_getData env q)
  | call_SoundCloud_getPlaylist q => rejected (SoundCloud_getPlaylist env q)
  | call_YouTube_getPlaylist q => rejected (YouTube_getPlaylist env q)
  | call_ytpl_fetch _ =>
      match loaded_from with
      | Some ytpl => rejected (ytpl_fetch env ytpl)
      | None => false
      end
  end.

(** The playlist object [ytpl.fetch()] is called on, if the YouTube
    playlist handler gets that far. *)
Definition fetched_playlist (env : Collaborators) (query : string) : option YTPlaylist :=
  match YouTube_getPlaylist env query with
  | Resolved found => found
  | Rejected _ => None
  end.

(** The hits the SoundCloud handler loops over. *)
Definition soundcloud_hits (env : Collaborators) (query : string) : list SearchHit :=
  if QueryType_eqb (QueryResolver_resolve env query) SOUNDCLOUD_TRACK
  then [ {| hit_url := query |} ]
  else match soundcloud_search env query with
       | Resolved (Some hits) => hits
       | _ => []
       end.

(** The millisecond durations in the metadata a handler fetched, one per
    track it builds, in order. *)
Definition source_millis (env : Collaborators) (query : string) (qt : QueryType) : list Z :=
  match qt with
  | YOUTUBE_SEARCH =>
      match YouTube_search env query with
      | Resolved (Some vs) => map v_duration vs
      | _ => []
      end
  | YOUTUBE_PLAYLIST =>
      match fetched_playlist env query with
      | Some ytpl =>
          map v_duration
              (ytp_videos match ytpl_fetch env ytpl with
                          | Resolved loaded => loaded
                          | Rejected _ => ytpl
                          end)
      | None => []
      end
  | SOUNDCLOUD_TRACK | SOUNDCLOUD_SEARCH =>
      omap (fun r => match soundcloud_getSongInfo env (hit_url r) with
                     | Resolved (Some info) => Some (song_duration info)
                     | _ => None
                     end)
           (soundcloud_hits env query)
  | SOUNDCLOUD_PLAYLIST =>
      match SoundCloud_getPlaylist env query with
      | Resolved (Some d) => map song_duration (scp_songs d)
      | _ => []
      end
  | SPOTIFY_SONG =>
      match Spotify_getData env query with
      | Resolved (Some d) => [sd_duration_ms d]
      | _ => []
      end
  | SPOTIFY_ALBUM | SPOTIFY_PLAYLIST =>
      match Spotify_getData env query with
      | Resolved (Some d) =>
          if is_playlist_type d
          then omap (fun m => option_map sp_duration_ms (it_track m)) (sd_items d)
          else map (fun m => sp_duration_ms (it_self m)) (sd_items d)
      | _ => []
      end
  | AUTO | OTHER => []
  end.

(** The same collaborators with another query classifier. *)
Definition with_classifier (f : string -> QueryType) (env : Collaborators) : Collaborators :=
  {| TimeData := TimeData env;
     Util_parseMS := Util_parseMS env;
     Util_buildTimeCode := Util_buildTimeCode env;
     QueryResolver_resolve := f;
     users_resolve := users_resolve env;
     YouTube_search := YouTube_search env;
     soundcloud_search := soundcloud_search env;
     soundcloud_getSongInfo := soundcloud_getSongInfo env;
     Spotify_getData := Spotify_getData env;
     SoundCloud_getPlaylist := SoundCloud_getPlaylist env;
     YouTube_getPlaylist := YouTube_getPlaylist env;
     ytpl_fetch := ytpl_fetch env |}.

(** An extractor the loop passes over: it declines the query, or its
    fetch resolves with nothing or with an empty list. *)
Definition passes_over (query : string) (entry : string * ExtractorModel) : Prop :=
  em_validate (snd entry) query = false
  \/ em_handle (snd entry) query = Resolved None
  \/ exists d, em_handle (snd entry) query = Resolved (Some d) /\ emd_data d = [].

(** The first registered extractor that accepts the query and whose
    fetch yields a non-empty list, with what it yields. *)
Fixpoint first_yielding (query : string) (exts : list (string * ExtractorModel))
  : option (ExtractorModel * ExtractorModelData) :=
  match exts with
  | [] => None
  | (_, extractor) :: rest =>
      if em_validate extractor query
      then match em_handle extractor query with
           | Resolved (Some d) =>
               if has_results (Some d) then Some (extractor, d)
               else first_yielding query rest
           | _ => first_yielding query rest
           end
      else first_yielding query rest
  end.

(** The fetches of the accepting extractors among [exts], in
    registration order. *)
Definition handle_calls (query : string) (exts : list (string * ExtractorModel)) : list Call :=
  map (fun entry => extractor_handle (em_oid (snd entry)) query)
      (List.filter (fun entry => em_validate (snd entry) query) exts).

(** *** The spec's sentences about [search], as they are stated *)

(** Precedence as stated: the first registered extractor whose fetch
    yields a non-empty list decides what [search] returns. *)
Definition precedence_as_stated : Prop :=
  forall (env : Collaborators) (exts : list (string * ExtractorModel))
         (q : string) (o : SearchOptions) (e : ExtractorModel) (d : ExtractorModelData),
    first_yielding q exts = Some (e, d) ->
    snd (search env exts (QueryString q) (Some o))
    = Ok (normalize env (users_resolve env (so_requestedBy o)) d).

(** Durations as stated: every track of every built-in handler carries
    the formatter's rendering of its source's millisecond duration. *)
Definition durations_as_stated : Prop :=
  forall (env : Collaborators) (requestedBy : option User) (q : string)
         (qt : QueryType) (r : SearchResult),
    snd (builtin env requestedBy q qt) = Ok r ->
    Forall2 (fun ms t => t_duration t = timeCode env ms)
            (source_millis env q qt) (tracks r).

(** A forced kind as stated: the classifier has no say, and a forced
    SoundCloud track never turns into a SoundCloud search. *)
Definition forced_kind_as_stated : Prop :=
  forall (env : Collaborators) (exts : list (string * ExtractorModel))
         (q : string) (o : SearchOptions) (k : QueryType),
    so_searchEngine o = Some k ->
    k <> AUTO ->
    (forall f, search (with_classifier f env) exts (QueryString q) (Some o)
               = search env exts (QueryString q) (Some o))
    /\ (k = SOUNDCLOUD_TRACK ->
        ~ In (call_soundcloud_search q)
             (fst (search env exts (QueryString q) (Some o)))).

(** Absorption as stated: when a provider fetch of a built-in handler
    rejects, the result is the empty one. *)
Definition absorption_as_stated : Prop :=
  forall (env : Collaborators) (requestedBy : option User) (q : string)
         (qt : QueryType) (c : Call),
    In c (fst (builtin env requestedBy q qt)) ->
    fetch_rejects env (fetched_playlist env q) c = true ->
    snd (builtin env requestedBy q qt) = Ok empty_result.

(** The provider's own rendering, as the YouTube handlers keep it. *)
Definition keeps_provider_rendering (t : Track) : Prop :=
  exists video, t_raw t = Some video /\ t_duration t = v_durationFormatted video.

(** No rejection comes out of a computation. *)
Definition no_rejection {A : Type} (m : M A) : Prop :=
  forall reason, snd m <> Throw (Rejection reason).

End Resolve.

(** ** Concrete collaborators, for running the model *)

Module Demo.
Import Registry Sessions Resolve.

(** Hours, minutes and seconds of a duration. *)
Record Clock := { hours : Z; minutes : Z; seconds : Z }.

(** Modelled from the spec: [Util.parseMS] (utils/Util) is not part of
    Player.ts.  The spec's time codes show hours, minutes and seconds of
    the millisecond value. *)
Definition spec_parseMS (ms : Z) : Clock :=
  {| hours := ms / 3600000;
     minutes := (ms / 60000) mod 60;
     seconds := (ms / 1000) mod 60 |}.

Definition two_digits (n : Z) : string :=
  if (n <? 10)%Z then "0" ++ number_to_string n else number_to_string n.

(** Modelled from the spec: [Util.buildTimeCode] (utils/Util) is not part
    of Player.ts.  The spec renders a duration as [m:ss], or [h:mm:ss]
    from one hour on: 65000 ms is "1:05" and 3661000 ms is "1:01:01". *)
Definition spec_buildTimeCode (c : Clock) : string :=
  if (0 <? hours c)%Z
  then number_to_string (hours c) ++ ":" ++ two_digits (minutes c)
         ++ ":" ++ two_digits (seconds c)
  else number_to_string (minutes c) ++ ":" ++ two_digits (seconds c).

(** Modelled from the spec: [QueryResolver.resolve] (utils/QueryResolver)
    is not part of Player.ts.  The spec has it recognise explicit
    Spotify, SoundCloud and YouTube playlist URLs, and send everything
    else to YouTube keyword search; URLs are told apart here by their
    leading part. *)
Definition spec_classify (query : string) : QueryType :=
  if String.prefix "https://open.spotify.com/track/" query then SPOTIFY_SONG
  else if String.prefix "https://open.spotify.com/album/" query then SPOTIFY_ALBUM
  else if String.prefix "https://open.spotify.com/playlist/" query then SPOTIFY_PLAYLIST
  else if String.prefix "https://soundcloud.com/sets/" query then SOUNDCLOUD_PLAYLIST
  else if String.prefix "https://soundcloud.com/" query then SOUNDCLOUD_TRACK
  else if String.prefix "https://www.youtube.com/playlist" query then YOUTUBE_PLAYLIST
  else YOUTUBE_SEARCH.

Definition a_video : Video :=
  {| v_title := Some "Intro"; v_description := Some "";
     v_channel := Some {| ch_name := Some "Channel"; ch_url := None |};
     v_url := Some "https://www.youtube.com/watch?v=abc";
     v_thumbnail := Some {| th_url := Some "https://i.ytimg.com/abc.jpg";
                            th_displayThumbnailURL := fun _ => Some "https://i.ytimg.com/abc/maxres.jpg" |};
     v_views := Some 10%Z;
     v_duration := 65000%Z;
     v_durationFormatted := "01:05";
     v_source := None |}.

Definition a_playlist : YTPlaylist :=
  {| ytp_title := Some "Mix"; ytp_thumbnail := None;
     ytp_channel := Some {| ch_name := Some "Channel"; ch_url := None |};
     ytp_id := Some "PL1"; ytp_url := Some "https://www.youtube.com/playlist?list=PL1";
     ytp_videos := [a_video] |}.

Definition a_song : Song :=
  {| song_title := Some "One"; song_url := Some "https://soundcloud.com/a/one";
     song_duration := 3661000%Z; song_description := None;
     song_thumbnail := None; song_playCount := Some 7%Z;
     song_author := Some {| au_name := Some "A"; au_username := Some "a";
                            au_profile := None |} |}.

(** Providers: YouTube answers, the playlist page load times out,
    SoundCloud finds two songs and knows one, Spotify is blocked. *)
Definition providers : Collaborators :=
  {| TimeData := Clock;
     Util_parseMS := spec_parseMS;
     Util_buildTimeCode := spec_buildTimeCode;
     QueryResolver_resolve := spec_classify;
     users_resolve := fun ref => ref;
     YouTube_search := fun _ => Resolved (Some [a_video]);
     soundcloud_search := fun _ =>
       Resolved (Some [ {| hit_url := "https://soundcloud.com/a/one" |};
                        {| hit_url := "https://soundcloud.com/a/two" |} ]);
     soundcloud_getSongInfo := fun url =>
       if String.eqb url "https://soundcloud.com/a/one"
       then Resolved (Some a_song) else Rejected "not found";
     Spotify_getData := fun _ => Rejected "blocked";
     SoundCloud_getPlaylist := fun _ => Rejected "blocked";
     YouTube_getPlaylist := fun _ => Resolved (Some a_playlist);
     ytpl_fetch := fun _ => Rejected "timed out" |}.

Definition an_item : ExtractorItem :=
  {| ei_title := Some "Clip"; ei_duration := 65000%Z; ei_thumbnail := None;
     ei_engine := Some "https://cdn.example/clip.mp3"; ei_views := Some 0%Z;
     ei_author := Some "Someone"; ei_description := None;
     ei_url := Some "https://example.org/clip"; ei_source := Some "arbitrary" |}.

(** Three extractors that accept every query: one whose fetch rejects,
    one that finds nothing, one that yields a track. *)
Definition failing : ExtractorModel :=
  {| em_oid := 0; em_name := "Failing"; em_validate := fun _ => true;
     em_handle := fun _ => Rejected "network down" |}.

Definition silent : ExtractorModel :=
  {| em_oid := 1; em_name := "Silent"; em_validate := fun _ => true;
     em_handle := fun _ => Resolved (Some {| emd_playlist := None; emd_data := [] |}) |}.

Definition yielding : ExtractorModel :=
  {| em_oid := 2; em_name := "Yielding"; em_validate := fun _ => true;
     em_handle := fun _ => Resolved (Some {| emd_playlist := None; emd_data := [an_item] |}) |}.

(** A raw extractor object with both methods. *)
Definition vimeo_raw : ExtractorArg :=
  ArgObject (Some (fun _ => true)) (Some (fun _ => Resolved None)).

(** The registry after "Vimeo" was registered with it. *)
Definition vimeo_registered : Extractors :=
  match use empty "Vimeo" vimeo_raw false with
  | Ok (_, r) => r
  | Throw _ => empty
  end.

Definition asked_by (user : string) (engine : option QueryType) : SearchOptions :=
  {| so_requestedBy := Some user; so_searchEngine := engine |}.

(** A client that knows the guild "g1", the bot being user "bot". *)
Definition client : Client :=
  {| user_id := "bot";
     guilds_resolve := fun ref =>
       if String.eqb ref "g1" then Some {| guild_id := "g1" |} else None |}.

Definition leave_when_empty (cooldown : Z) : PlayerOptions :=
  {| leaveOnEmpty := Some true; leaveOnEmptyCooldown := Some cooldown;
     ytdlOptions := None; metadata := None |}.

Definition a_player : Player :=
  new_Player {| autoRegisterExtractor := Some true; init_ytdlOptions := Some "{}" |}.

(** The player with a session for "g1" open ... *)
Definition opened : Player :=
  match createQueue client a_player "g1" (Some (leave_when_empty 60000)) with
  | Ok (_, p, _) => p
  | Throw _ => a_player
  end.

(** ... which has joined the voice channel "vc". *)
Definition in_channel : Player := Queue_connect 0 "vc" opened.

Definition nobody_there : option Channel -> bool := fun _ => true.
Definition somebody_there : option Channel -> bool := fun _ => false.

(** A member of "g1" other than the bot leaving, and joining, a voice
    channel. *)
Definition leaves (member channel : string) : VoiceState * VoiceState :=
  ({| vs_guild := "g1"; vs_member := member; vs_channelID := Some channel |},
   {| vs_guild := "g1"; vs_member := member; vs_channelID := None |}).

Definition joins (member channel : string) : VoiceState * VoiceState :=
  ({| vs_guild := "g1"; vs_member := member; vs_channelID := None |},
   {| vs_guild := "g1"; vs_member := member; vs_channelID := Some channel |}).

(** The player after a voice-state event. *)
Definition after (occupancy : option Channel -> bool)
    (event : VoiceState * VoiceState) (p : Player) : Player :=
  fst (_handleVoiceState client occupancy p (fst event) (snd event)).

(** The Queue object behind a reference. *)
Definition session_of (p : Player) (qr : QueueRef) : Queue :=
  match store p !! qr with
  | Some q => q
  | None => new_Queue {| guild_id := "" |} (leave_when_empty 0) None
  end.

(** Amy, the last listener, has left "vc": the first cooldown runs. *)
Definition alone : Player := after nobody_there (leaves "amy" "vc") in_channel.

(** Then Bob leaves another channel of the guild while "vc" is still
    empty. *)
Definition alone_twice : Player := after nobody_there (leaves "bob" "lobby") alone.

(** The session of "g1" closed during the cooldown ... *)
Definition closed : Player :=
  match deleteQueue client alone "g1" with
  | Ok (_, p) => p
  | Throw _ => alone
  end.

(** ... and opened again. *)
Definition reopened : Player :=
  match createQueue client closed "g1" (Some (leave_when_empty 60000)) with
  | Ok (_, p, _) => p
  | Throw _ => closed
  end.

(** A session opened with metadata and nothing else. *)
Definition with_metadata : Player :=
  match createQueue client a_player "g1"
          (Some {| leaveOnEmpty := None; leaveOnEmptyCooldown := None;
                   ytdlOptions := None; metadata := Some "text channel" |}) with
  | Ok (_, p, _) => p
  | Throw _ => a_player
  end.

(** A Spotify song with cover art and no preview. *)
Definition a_single : SpotifyData :=
  {| sd_name := Some "Single"; sd_title := None; sd_description := None;
     sd_artists := [ {| artist_name := Some "Band"; artist_external_urls := None |} ];
     sd_external_urls := None;
     sd_album := Some {| album_images := [ {| image_url := Some "https://i.scdn.co/image/cover" |} ] |};
     sd_preview_url := None; sd_duration_ms := 65000%Z; sd_images := [];
     sd_type := Some "track"; sd_owner := None; sd_items := []; sd_id := Some "1" |}.

(** An album of one track. *)
Definition an_album : SpotifyData :=
  {| sd_name := Some "Album"; sd_title := None; sd_description := None;
     sd_artists := [ {| artist_name := Some "Band"; artist_external_urls := None |} ];
     sd_external_urls := None; sd_album := None;
     sd_preview_url := None; sd_duration_ms := 0%Z; sd_images := [];
     sd_type := Some "album"; sd_owner := None;
     sd_items := [ {| it_self := {| sp_name := Some "Single"; sp_description := None;
                                    sp_artists := []; sp_external_urls := None;
                                    sp_album := None; sp_duration_ms := 65000%Z |};
                      it_track := None |} ];
     sd_id := Some "2" |}.

(** The same providers, Spotify answering with [d]. *)
Definition spotify_answers (d : SpotifyData) : Collaborators :=
  {| TimeData := Clock;
     Util_parseMS := spec_parseMS;
     Util_buildTimeCode := spec_buildTimeCode;
     QueryResolver_resolve := spec_classify;
     users_resolve := users_resolve providers;
     YouTube_search := YouTube_search providers;
     soundcloud_search := soundcloud_search providers;
     soundcloud_getSongInfo := soundcloud_getSongInfo providers;
     Spotify_getData := fun _ => Resolved (Some d);
     SoundCloud_getPlaylist := SoundCloud_getPlaylist providers;
     YouTube_getPlaylist := YouTube_getPlaylist providers;
     ytpl_fetch := ytpl_fetch providers |}.

(** An extractor that speaks only for queries starting with "clip:". *)
Definition picky : ExtractorModel :=
  {| em_oid := 3; em_name := "Picky";
     em_validate := fun q => String.prefix "clip:" q;
     em_handle := fun _ => Resolved (Some {| emd_playlist := None; emd_data := [an_item] |}) |}.

End Demo.

(** ** Construction: [new Player(client, options)] *)

Module Startup.
Import Registry Sessions.

(** The [options] argument: a key may be absent, or present with a value
    that may be [undefined]. *)
Record InitArg := {
  given_autoRegisterExtractor : option (option bool);
  given_ytdlOptions : option (option string)
}.

(** [{}] *)
Definition no_options : InitArg :=
  {| given_autoRegisterExtractor := None; given_ytdlOptions := None |}.

(** The initial value of [this.options]. *)
Definition default_options : DiscordPlayerInitOptions :=
  {| autoRegisterExtractor := Some true; init_ytdlOptions := Some "{}" |}.

(** [Object.assign(this.options, options)]: every key present in
    [options] overwrites. *)
Definition assign (target : DiscordPlayerInitOptions) (given : InitArg)
  : DiscordPlayerInitOptions :=
  {| autoRegisterExtractor :=
       match given_autoRegisterExtractor given with
       | Some v => v
       | None => autoRegisterExtractor target
       end;
     init_ytdlOptions :=
       match given_ytdlOptions given with
       | Some v => v
       | None => init_ytdlOptions target
       end |}.

(** The names the constructor registers from the extractor package. *)
Definition auto_registered : list string :=
  ["Attachment"; "Facebook"; "Reverbnation"; "Vimeo"].

(** [names.forEach((ext) => void this.use(ext, nv[ext]))]: the first
    [use] that throws ends the loop and the exception leaves it. *)
Fixpoint register_all (names : list string) (nv : string -> ExtractorArg)
    (r : Extractors) : Result Extractors :=
  match names with
  | [] => Ok r
  | ext :: rest =>
      match use r ext (nv ext) false with
      | Ok (_, r') => register_all rest nv r'
      | Throw e => Throw e
      end
  end.

(** The constructor, as far as the player's own state goes.  [package]
    is what [Util.require] returns for the extractor package: nothing,
    or the module, whose missing exports read as [undefined]. *)
Definition Player_constructor (options : option InitArg)
    (package : option (string -> ExtractorArg)) : Result (Player * Extractors) :=
  let opts := assign default_options
                (match options with Some o => o | None => no_options end) in
  if truthy_bool (autoRegisterExtractor opts) then
    match package with
    | Some nv =>
        match register_all auto_registered nv empty with
        | Ok r => Ok (new_Player opts, r)
        | Throw e => Throw e
        end
    | None => Ok (new_Player opts, empty)
    end
  else Ok (new_Player opts, empty).

(** What [use] accepts as an extractor: an ExtractorModel, or a value
    with both methods. *)
Definition usable (x : ExtractorArg) : bool :=
  match x with
  | ArgModel _ => true
  | ArgObject (Some _) (Some _) => true
  | _ => false
  end.

End Startup.

(** ** Invariants of the player state, in words of the code *)

Module Invariants.
Import Sessions.

(** Every registry entry names a stored Queue object of the guild it is
    filed under. *)
Definition keyed_by_guild (p : Player) : Prop :=
  forall g qr, queues p !! g = Some qr ->
               exists q, store p !! qr = Some q /\ guild_id (q_guild q) = g.

(** The registry of [p'] holds nothing the registry of [p] did not. *)
Definition registry_shrinks (p p' : Player) : Prop :=
  forall g qr, queues p' !! g = Some qr -> queues p !! g = Some qr.

(** Every object of [p] is still there in [p'], for the same guild. *)
Definition guild_stable (p p' : Player) : Prop :=
  forall qr q, store p !! qr = Some q ->
               exists q', store p' !! qr = Some q' /\ q_guild q' = q_guild q.

(** Two Queue objects that differ at most in their cooldown map. *)
Definition same_but_cooldowns (q q' : Queue) : Prop :=
  q_guild q' = q_guild q /\ q_options q' = q_options q
  /\ q_metadata q' = q_metadata q /\ q_connection q' = q_connection q
  /\ q_destroyed q' = q_destroyed q.

(** The event is the bot itself losing its channel. *)
Definition forced_disconnect (c : Client) (oldState newState : VoiceState) : bool :=
  String.eqb (vs_member oldState) (user_id c)
  && negb (truthy_string (vs_channelID newState)).



(** The event takes the member-joined branch of the handler. *)
Definition arrival (oldState newState : VoiceState) : bool :=
  negb (truthy_string (vs_channelID oldState)) || truthy_string (vs_channelID newState).

End Invariants.

(** ** What [search] hands back *)

Module Outcomes.
Import Registry Resolve.

(** Every track of the result names [requestedBy] and points back to the
    playlist of the result (to none when there is none), and the
    playlist lists exactly the tracks of the result. *)
Definition linked (requestedBy : option User) (r : SearchResult) : Prop :=
  Forall (fun t => t_requestedBy t = requestedBy
                   /\ t_playlist t = option_map pl_head (playlist r))
         (tracks r)
  /\ (forall pl, playlist r = Some pl -> pl_tracks pl = tracks r).

(** A computation that throws nothing but a [TypeError]. *)
Definition only_TypeError {A : Type} (m : M A) : Prop :=
  forall e, snd m = Throw e -> exists message, e = TypeError message.

(** The songs the lookups of the SoundCloud loop yield, in the order of
    the hits; a lookup that rejects or resolves with nothing yields
    none. *)
Definition found_songs (env : Collaborators) (hits : list SearchHit) : list Song :=
  omap (fun r => match soundcloud_getSongInfo env (hit_url r) with
                 | Resolved (Some info) => Some info
                 | _ => None
                 end)
       hits.

(** The calls of the SoundCloud handler when it returns: the search,
    unless the query is a track URL, and one lookup per hit. *)
Definition soundcloud_calls (env : Collaborators) (query : string) : list Call :=
  ((if QueryType_eqb (QueryResolver_resolve env query) SOUNDCLOUD_TRACK
    then []
    else [call_soundcloud_search query])
   ++ map (fun r => call_soundcloud_getSongInfo (hit_url r)) (soundcloud_hits env query))%list.

(** The same options with another [searchEngine]. *)
Definition with_engine (engine : option QueryType) (o : SearchOptions) : SearchOptions :=
  {| so_requestedBy := so_requestedBy o; so_searchEngine := engine |}.

End Outcomes.

(** * Properties *)

(** ** The extractor registry *)

Section RegistryFacts.
Import Registry.

Lemma truthy_string_Some (s : string) :
  truthy_string (Some s) = true <-> s <> "".
Proof.
  unfold truthy_string. rewrite negb_true_iff.
  split.
  - intros H ->. discriminate.
  - intros H. apply String.eqb_neq. exact H.
Qed.

Lemma get_Some_key (l : list (string * ExtractorModel)) (k : string) (m : ExtractorModel) :
  get l k = Some m -> In (k, m) l.
Proof.
  induction l as [|[k' m'] rest IH]; simpl; [discriminate|].
  destruct (String.eqb k k') eqn:E.
  - apply String.eqb_eq in E. subst k'. intros [= ->]. now left.
  - intros H. right. auto.
Qed.

Lemma get_set_same (l : list (string * ExtractorModel)) (k : string) (m : ExtractorModel) :
  get (set l k m) k = Some m.
Proof.
  induction l as [|[k' m'] rest IH]; simpl.
  - now rewrite String.eqb_refl.
  - destruct (String.eqb k k') eqn:E; simpl; rewrite E; auto.
Qed.

Lemma set_keys (P : string -> Prop) (l : list (string * ExtractorModel))
    (k : string) (m : ExtractorModel) :
  P k -> Forall (fun e => P (fst e)) l -> Forall (fun e => P (fst e)) (set l k m).
Proof.
  intros Hk. induction 1 as [|[k' m'] rest Hx Hrest IH]; simpl.
  - constructor; [exact Hk | constructor].
  - destruct (String.eqb k k'); constructor; auto.
Qed.

Lemma remove_keys (P : string -> Prop) (l : list (string * ExtractorModel)) (k : string) :
  Forall (fun e => P (fst e)) l -> Forall (fun e => P (fst e)) (remove l k).
Proof.
  induction 1 as [|[k' m'] rest Hx Hrest IH]; simpl.
  - constructor.
  - destruct (String.eqb k k'); [assumption | constructor; auto].
Qed.

(** Every name [use] lets into the registry is a non-empty string. *)
Lemma reachable_names (r : Extractors) :
  reachable r -> Forall (fun e => fst e <> "") (entries r).
Proof.
  induction 1 as [| r name x force m r' Hr IH Huse | r name m r' Hr IH Hun].
  - constructor.
  - unfold use in Huse.
    destruct (truthy_string (Some name)) eqn:Hname; simpl in Huse; [|discriminate].
    apply truthy_string_Some in Hname.
    assert (Hset : forall m0, Forall (fun e => fst e <> "") (set (entries r) name m0))
      by (intros m0; apply (set_keys (fun k => k <> "")); assumption).
    destruct (get (entries r) name) as [existing|], force;
      try (injection Huse as <- <-; assumption);
      destruct x as [m0| |[v|] [g|]]; try discriminate;
      injection Huse as <- <-; simpl; apply Hset.
  - unfold unuse in Hun.
    destruct (get (entries r) name); [|discriminate].
    injection Hun as <- <-. simpl.
    now apply (remove_keys (fun k => k <> "")).
Qed.

(** C9.  For a name that is already registered, [use] with [force]
    false returns the extractor registered first and leaves the registry
    as it is, whatever the newly supplied resolver: the new one is never
    installed. *)
Theorem use_again_keeps_first_registration
    (r : Extractors) (name : string) (registered : ExtractorModel) (x : ExtractorArg) :
  reachable r ->
  get (entries r) name = Some registered ->
  use r name x false = Ok (registered, r).
Proof.
  intros Hr Hget.
  assert (Hname : name <> "").
  { pose proof (reachable_names r Hr) as Hall.
    rewrite List.Forall_forall in Hall.
    exact (Hall _ (get_Some_key _ _ _ Hget)). }
  unfold use.
  apply truthy_string_Some in Hname. rewrite Hname. simpl.
  now rewrite Hget.
Qed.

Lemma use_again_keeps_first_registration_witness :
  exists registered,
    get (entries Demo.vimeo_registered) "Vimeo" = Some registered
    /\ em_oid registered = 0
    /\ use Demo.vimeo_registered "Vimeo" (ArgModel Demo.yielding) false
       = Ok (registered, Demo.vimeo_registered).
Proof.
  eexists. split; [reflexivity|]. split; [reflexivity|].
  apply use_again_keeps_first_registration.
  - apply (reach_use empty "Vimeo" Demo.vimeo_raw false
             (new_ExtractorModel 0 "Vimeo" (fun _ => true) (fun _ => Resolved None))
             Demo.vimeo_registered reach_empty).
    reflexivity.
  - reflexivity.
Defined.

(** Registering twice: the second call hands back the object the first
    call installed, and [get] still finds that object. *)
Lemma use_twice (r r1 : Extractors) (name : string) (x y : ExtractorArg)
    (force : bool) (m : ExtractorModel) :
  use r name x force = Ok (m, r1) ->
  use r1 name y false = Ok (m, r1) /\ get (entries r1) name = Some m.
Proof.
  unfold use at 1.
  destruct (truthy_string (Some name)) eqn:Hname; simpl; [|discriminate].
  intros Huse.
  assert (Hget : get (entries r1) name = Some m).
  { destruct (get (entries r) name) as [existing|] eqn:Hg, force;
      try (injection Huse as <- <-; assumption);
      destruct x as [m0| |[v|] [g|]]; try discriminate;
      injection Huse as <- <-; simpl; apply get_set_same. }
  split; [|exact Hget].
  unfold use. rewrite Hname. simpl. now rewrite Hget.
Qed.

End RegistryFacts.

(** ** The session registry *)

Section SessionFacts.
Import Sessions.

(** C8.  When the guild already has a registered session, [createQueue]
    returns that same Queue object and changes nothing: the registry and
    the stored session, with the configuration of the call that created
    it, are as before, and the options of this call are neither read
    nor modified. *)
Theorem createQueue_existing_session
    (c : Client) (p : Player) (guild : string) (g : Guild) (existing : QueueRef)
    (opts : option PlayerOptions) :
  guilds_resolve c guild = Some g ->
  queues p !! guild_id g = Some existing ->
  createQueue c p guild opts = Ok (existing, p, opts).
Proof.
  intros Hg Hq. unfold createQueue. now rewrite Hg, Hq.
Qed.

(** What a first [createQueue] with options does: a fresh Queue object
    holding that call's configuration, registered under the guild. *)
Lemma createQueue_new_session
    (c : Client) (p : Player) (guild : string) (g : Guild) (o : PlayerOptions) :
  guilds_resolve c guild = Some g ->
  queues p !! guild_id g = None ->
  exists p' o',
    createQueue c p guild (Some o) = Ok (next_queue p, p', Some o')
    /\ queues p' !! guild_id g = Some (next_queue p)
    /\ store p' !! next_queue p = Some (new_Queue g o' (metadata o))
    /\ leaveOnEmpty o' = leaveOnEmpty o
    /\ leaveOnEmptyCooldown o' = leaveOnEmptyCooldown o.
Proof.
  intros Hg Hq. unfold createQueue. rewrite Hg, Hq.
  eexists _, _. split; [reflexivity|]. simpl.
  rewrite !lookup_insert_eq. auto.
Qed.

(** Opening twice: the second call returns the object of the first and
    the session keeps the first call's configuration. *)
Lemma createQueue_twice
    (c : Client) (p : Player) (guild : string) (g : Guild)
    (opts1 : PlayerOptions) (opts2 : option PlayerOptions) :
  guilds_resolve c guild = Some g ->
  queues p !! guild_id g = None ->
  exists qr p1 o1,
    createQueue c p guild (Some opts1) = Ok (qr, p1, Some o1)
    /\ createQueue c p1 guild opts2 = Ok (qr, p1, opts2)
    /\ store p1 !! qr = Some (new_Queue g o1 (metadata opts1)).
Proof.
  intros Hg Hq.
  destruct (createQueue_new_session c p guild g opts1 Hg Hq)
    as (p1 & o1 & Hc & Hreg & Hst & _).
  exists (next_queue p), p1, o1. split; [exact Hc|]. split; [|exact Hst].
  unfold createQueue. now rewrite Hg, Hreg.
Qed.

Lemma createQueue_existing_session_witness :
  queues Demo.in_channel !! "g1" = Some 0
  /\ createQueue Demo.client Demo.in_channel "g1" (Some (Demo.leave_when_empty 5))
     = Ok (0, Demo.in_channel, Some (Demo.leave_when_empty 5)).
Proof.
  split; [reflexivity|].
  apply (createQueue_existing_session Demo.client Demo.in_channel "g1"
           {| guild_id := "g1" |} 0); reflexivity.
Defined.

(** C10.  For a guild without a session, [createQueue] called without
    options throws while reading [metadata] of the missing object, and
    whenever [createQueue] does return a queue for such a guild, an
    options object was supplied. *)
Theorem createQueue_without_options_throws
    (c : Client) (p : Player) (guild : string) (g : Guild) :
  guilds_resolve c guild = Some g ->
  queues p !! guild_id g = None ->
  (exists message, createQueue c p guild None = Throw (TypeError message))
  /\ (forall opts qr p' opts',
        createQueue c p guild opts = Ok (qr, p', opts') ->
        exists o, opts = Some o /\ queues p' !! guild_id g = Some qr).
Proof.
  intros Hg Hq. unfold createQueue. rewrite Hg, Hq. split.
  - eexists. reflexivity.
  - intros [o|] qr p' opts' H; [|discriminate].
    injection H as <- <- <-. exists o. split; [reflexivity|]. simpl.
    apply lookup_insert_eq.
Qed.

Lemma createQueue_without_options_throws_witness :
  queues Demo.a_player !! "g1" = None
  /\ exists message,
       createQueue Demo.client Demo.a_player "g1" None = Throw (TypeError message).
Proof.
  split; [reflexivity|].
  apply (createQueue_without_options_throws Demo.client Demo.a_player "g1"
           {| guild_id := "g1" |}); reflexivity.
Defined.

End SessionFacts.

(** ** The voice-state handler and its timers *)

Section ReactorFacts.
Import Sessions.

(** *** The store stays well formed *)

Lemma well_formed_new (init : DiscordPlayerInitOptions) : well_formed (new_Player init).
Proof.
  repeat split; simpl; intros *; rewrite lookup_empty; intros H;
    try discriminate; destruct H; discriminate.
Qed.

Lemma store_insert_is_Some (m : gmap QueueRef Queue) (k k' : QueueRef) (q : Queue) :
  is_Some (m !! k') -> is_Some (<[k := q]> m !! k').
Proof.
  intros H. destruct (decide (k = k')) as [->|Hne].
  - rewrite lookup_insert_eq. eauto.
  - now rewrite lookup_insert_ne.
Qed.

(** Teardown either goes through, for a session with a connection that
    was not torn down before, or throws and leaves the player as it is. *)
Lemma Queue_destroy_cases (qr : QueueRef) (p : Player) :
  (exists q, store p !! qr = Some q /\ q_destroyed q = false
             /\ is_Some (q_connection q)
             /\ Queue_destroy qr p = (torn_down qr q p, None))
  \/ (exists err, Queue_destroy qr p = (p, err)
                  /\ forall q, store p !! qr = Some q ->
                               is_Some err
                               /\ (q_destroyed q = true \/ q_connection q = None)).
Proof.
  unfold Queue_destroy. destruct (store p !! qr) as [q|] eqn:E.
  - destruct (q_destroyed q) eqn:Hd.
    + right. eexists. split; [reflexivity|]. intros q0 [= <-]. split; eauto.
    + destruct (q_connection q) as [conn|] eqn:Hc.
      * left. exists q. rewrite Hc. repeat split; eauto.
      * right. eexists. split; [reflexivity|]. intros q0 [= <-]. split; eauto.
  - right. exists None. split; [reflexivity|]. intros q0 H. discriminate.
Qed.

Lemma well_formed_torn_down (qr : QueueRef) (q : Queue) (p : Player) :
  store p !! qr = Some q -> well_formed p -> well_formed (torn_down qr q p).
Proof.
  intros E (HA & HB & HC & HD). repeat split; simpl.
  - intros g qr' H. apply store_insert_is_Some.
    apply lookup_delete_Some in H. destruct H as [_ H]. eauto.
  - intros t qr' d H. apply store_insert_is_Some. eauto.
  - intros qr' H. destruct (decide (qr = qr')) as [<-|Hne].
    + apply HC. eauto.
    + rewrite lookup_insert_ne in H by assumption. eauto.
  - exact HD.
Qed.

Lemma well_formed_Queue_destroy (qr : QueueRef) (p : Player) :
  well_formed p -> well_formed (fst (Queue_destroy qr p)).
Proof.
  intros Hwf.
  destruct (Queue_destroy_cases qr p) as [(q & Hs & _ & _ & ->) | (err & -> & _)];
    [now apply well_formed_torn_down | exact Hwf].
Qed.

(** The player after [queue.destroy()] followed by an emit that a throw
    of the teardown skips. *)
Lemma destroy_then_emit (ev : PlayerEvent) (qr : QueueRef) (p : Player) :
  fst (match Queue_destroy qr p with
       | (p1, Some e) => (p1, Some e)
       | (p1, None) => (emit ev qr p1, None)
       end)
  = match snd (Queue_destroy qr p) with
    | Some _ => fst (Queue_destroy qr p)
    | None => emit ev qr (fst (Queue_destroy qr p))
    end.
Proof. now destruct (Queue_destroy qr p) as [p1 [e|]]. Qed.

Lemma well_formed_createQueue (c : Client) (p p' : Player) (guild : string)
    (opts opts' : option PlayerOptions) (qr : QueueRef) :
  well_formed p ->
  createQueue c p guild opts = Ok (qr, p', opts') ->
  well_formed p'.
Proof.
  intros Hwf. pose proof Hwf as (HA & HB & HC & HD). unfold createQueue.
  destruct (guilds_resolve c guild) as [g|]; [|discriminate].
  destruct (queues p !! guild_id g) as [existing|].
  - intros [= <- <- <-]. exact Hwf.
  - destruct opts as [o|]; [|discriminate]. intros [= <- <- <-].
    repeat split; simpl.
    + intros g' qr' H. destruct (decide (guild_id g = g')) as [<-|Hne].
      * rewrite lookup_insert_eq in H. injection H as <-.
        rewrite lookup_insert_eq. eauto.
      * rewrite lookup_insert_ne in H by assumption.
        apply store_insert_is_Some. eauto.
    + intros t qr' d H. apply store_insert_is_Some. eauto.
    + intros qr' H. destruct (decide (next_queue p = qr')) as [<-|Hne]; [lia|].
      rewrite lookup_insert_ne in H by assumption. apply HC in H. lia.
    + exact HD.
Qed.

Lemma well_formed_handle (c : Client) (isVoiceEmpty : option Channel -> bool)
    (p : Player) (oldState newState : VoiceState) :
  well_formed p ->
  well_formed (fst (_handleVoiceState c isVoiceEmpty p oldState newState)).
Proof.
  intros Hwf. pose proof Hwf as (HA & HB & HC & HD). unfold _handleVoiceState.
  destruct (getQueue c p (vs_guild oldState)) as [[qr|]|e]; try exact Hwf.
  destruct (_ && _).
  { rewrite destroy_then_emit.
    destruct (snd (Queue_destroy qr p)); now apply well_formed_Queue_destroy. }
  destruct (store p !! qr) as [queue|] eqn:Hs; [|exact Hwf].
  destruct (negb (truthy_bool _)); [exact Hwf|].
  destruct (q_connection queue) as [conn|]; [|exact Hwf].
  destruct (channel conn) as [ch|]; [|exact Hwf].
  destruct (_ || _).
  - destruct (q_cooldownsTimeout queue !! _) as [t|]; [|exact Hwf].
    destruct (negb _); [|exact Hwf]. simpl.
    repeat split; simpl.
    + intros g qr' H. apply store_insert_is_Some. eauto.
    + intros t' qr' d H. apply store_insert_is_Some.
      apply lookup_delete_Some in H. destruct H as [_ H]. eauto.
    + intros qr' H. destruct (decide (qr = qr')) as [<-|Hne].
      * apply HC. eauto.
      * rewrite lookup_insert_ne in H by assumption. eauto.
    + intros t' [x H]. apply lookup_delete_Some in H. destruct H as [_ H]. eauto.
  - destruct (negb _); [exact Hwf|]. simpl.
    repeat split; simpl.
    + intros g qr' H. apply store_insert_is_Some. eauto.
    + intros t' qr' d H. apply store_insert_is_Some.
      destruct (decide (next_timer p = t')) as [<-|Hne].
      * rewrite lookup_insert_eq in H. injection H as <- _. eauto.
      * rewrite lookup_insert_ne in H by assumption. eauto.
    + intros qr' H. destruct (decide (qr = qr')) as [<-|Hne].
      * apply HC. eauto.
      * rewrite lookup_insert_ne in H by assumption. eauto.
    + intros t' H. destruct (decide (next_timer p = t')) as [<-|Hne]; [lia|].
      rewrite lookup_insert_ne in H by assumption. apply HD in H. lia.
Qed.

Lemma well_formed_fire (isVoiceEmpty : option Channel -> bool) (p : Player) (t : TimerId) :
  well_formed p -> well_formed (fst (fireTimeout isVoiceEmpty p t)).
Proof.
  intros Hwf. pose proof Hwf as (HA & HB & HC & HD). unfold fireTimeout.
  destruct (timers p !! t) as [[qr d]|] eqn:Ht; [|exact Hwf].
  assert (Hwf1 : well_formed (with_timers (delete t) p)).
  { repeat split; simpl; eauto.
    - intros t' qr' d' H. apply lookup_delete_Some in H. destruct H as [_ H]. eauto.
    - intros t' [x H]. apply lookup_delete_Some in H. destruct H as [_ H]. eauto. }
  simpl. destruct (store p !! qr) as [queue|]; [|exact Hwf1].
  destruct (q_connection queue) as [conn|]; [|exact Hwf1].
  destruct (negb _); [exact Hwf1|].
  destruct (negb _); [exact Hwf1|].
  rewrite destroy_then_emit.
  destruct (snd (Queue_destroy qr _)); now apply well_formed_Queue_destroy.
Qed.

Lemma well_formed_deleteQueue (c : Client) (p p' : Player) (guild : string)
    (prev : option QueueRef) :
  well_formed p ->
  deleteQueue c p guild = Ok (prev, p') ->
  well_formed p'.
Proof.
  intros Hwf. unfold deleteQueue.
  destruct (guilds_resolve c guild) as [g|]; [|discriminate].
  intros [= <- <-].
  assert (Hwf1 : well_formed match queues p !! guild_id g with
                             | Some qr => fst (Queue_destroy qr p)
                             | None => p
                             end).
  { destruct (queues p !! guild_id g); [now apply well_formed_Queue_destroy | exact Hwf]. }
  destruct Hwf1 as (HA & HB & HC & HD).
  repeat split; simpl; eauto.
  intros g' qr' H. apply lookup_delete_Some in H. destruct H as [_ H]. eauto.
Qed.

Lemma well_formed_connect (qr : QueueRef) (ch : Channel) (p : Player) :
  well_formed p -> well_formed (Queue_connect qr ch p).
Proof.
  intros (HA & HB & HC & HD).
  assert (Hkeep : forall qr', is_Some (store p !! qr') ->
                              is_Some (store (Queue_connect qr ch p) !! qr')).
  { intros qr' [x Hx]. simpl. rewrite lookup_alter. case_decide; subst; rewrite Hx; simpl; eauto. }
  repeat split; simpl; eauto.
  intros qr' [x Hx]. apply HC. rewrite lookup_alter in Hx.
  case_decide; subst; destruct (store p !! qr'); simpl in Hx; try discriminate; eauto.
Qed.

Lemma attainable_well_formed (c : Client) (p : Player) :
  attainable c p -> well_formed p.
Proof.
  induction 1.
  - apply well_formed_new.
  - eapply well_formed_createQueue; eassumption.
  - eapply well_formed_deleteQueue; eassumption.
  - now apply well_formed_connect.
  - now apply well_formed_handle.
  - now apply well_formed_fire.
Qed.

Lemma attainable_alone : attainable Demo.client Demo.alone.
Proof.
  apply attain_event.
  apply (attain_connect Demo.client Demo.opened 0 "vc").
  apply (attain_create Demo.client Demo.a_player "g1"
           (Some (Demo.leave_when_empty 60000)) 0 Demo.opened
           (Some {| leaveOnEmpty := Some true; leaveOnEmptyCooldown := Some 60000%Z;
                    ytdlOptions := Some "{}"; metadata := None |})).
  - apply attain_new.
  - reflexivity.
Qed.

Lemma attainable_alone_twice : attainable Demo.client Demo.alone_twice.
Proof. apply attain_event. apply attainable_alone. Qed.

Lemma attainable_reopened : attainable Demo.client Demo.reopened.
Proof.
  apply (attain_create Demo.client Demo.closed "g1"
           (Some (Demo.leave_when_empty 60000)) 1 Demo.reopened
           (Some {| leaveOnEmpty := Some true; leaveOnEmptyCooldown := Some 60000%Z;
                    ytdlOptions := Some "{}"; metadata := None |})).
  - apply (attain_delete Demo.client Demo.alone "g1" (Some 0) Demo.closed).
    + apply attainable_alone.
    + reflexivity.
  - reflexivity.
Qed.

(** *** The handler *)

Lemma timers_Queue_destroy (qr : QueueRef) (p : Player) :
  timers (fst (Queue_destroy qr p)) = timers p
  /\ next_timer (fst (Queue_destroy qr p)) = next_timer p.
Proof.
  destruct (Queue_destroy_cases qr p) as [(q & _ & _ & _ & ->) | (err & -> & _)];
    split; reflexivity.
Qed.

(** When the changed member is the bot and the new state has no channel,
    and the guild's session has a voice connection and was not torn
    down, the handler tears the session down and emits [botDisconnect]
    at once: the session is marked and leaves the registry, no timer is
    started or cleared and the session's cooldown map is untouched,
    whatever timers are pending. *)
Lemma forced_disconnect_with_connection
    (c : Client) (isVoiceEmpty : option Channel -> bool) (p : Player)
    (oldState newState : VoiceState) (g : Guild) (qr : QueueRef) (queue : Queue) :
  guilds_resolve c (vs_guild oldState) = Some g ->
  queues p !! guild_id g = Some qr ->
  store p !! qr = Some queue ->
  guild_id (q_guild queue) = guild_id g ->
  q_destroyed queue = false ->
  is_Some (q_connection queue) ->
  vs_member oldState = user_id c ->
  vs_channelID newState = None ->
  let p' := fst (_handleVoiceState c isVoiceEmpty p oldState newState) in
  _handleVoiceState c isVoiceEmpty p oldState newState
  = (emit botDisconnect qr (torn_down qr queue p), None)
  /\ log p' = (log p ++ [Destroyed qr; Emitted botDisconnect qr])%list
  /\ queues p' !! guild_id g = None
  /\ store p' !! qr = Some (set_destroyed queue)
  /\ timers p' = timers p
  /\ next_timer p' = next_timer p.
Proof.
  intros Hg Hq Hs Hkey Hd [conn Hc] Hbot Hgone p'.
  assert (E : _handleVoiceState c isVoiceEmpty p oldState newState
              = (emit botDisconnect qr (torn_down qr queue p), None)).
  { unfold _handleVoiceState, getQueue, Queue_destroy.
    rewrite Hg, Hq, Hbot, Hgone, String.eqb_refl, Hs, Hd, Hc. reflexivity. }
  subst p'. rewrite E. simpl.
  split; [reflexivity|].
  split; [now rewrite <- app_assoc|].
  split; [rewrite Hkey; apply lookup_delete_eq|].
  split; [apply lookup_insert_eq|].
  split; reflexivity.
Qed.

(** C7, at a failing input.  The handler calls [queue.destroy()] with
    nothing around it: for a session that has no voice connection the
    teardown throws, the throw leaves the handler, [botDisconnect] is
    not emitted and the session stays registered; the player is as it
    was before the event. *)
Theorem forced_disconnect_teardown_unguarded
    (c : Client) (isVoiceEmpty : option Channel -> bool) (p : Player)
    (oldState newState : VoiceState) (g : Guild) (qr : QueueRef) (queue : Queue) :
  guilds_resolve c (vs_guild oldState) = Some g ->
  queues p !! guild_id g = Some qr ->
  store p !! qr = Some queue ->
  q_connection queue = None ->
  vs_member oldState = user_id c ->
  vs_channelID newState = None ->
  exists e, _handleVoiceState c isVoiceEmpty p oldState newState = (p, Some e).
Proof.
  intros Hg Hq Hs Hc Hbot Hgone.
  unfold _handleVoiceState, getQueue, Queue_destroy.
  rewrite Hg, Hq, Hbot, Hgone, String.eqb_refl, Hs, Hc. cbn [andb negb truthy_string].
  destruct (q_destroyed queue); eexists; reflexivity.
Qed.

Lemma forced_disconnect_teardown_unguarded_witness :
  queues Demo.opened !! "g1" = Some 0
  /\ exists e,
       _handleVoiceState Demo.client Demo.nobody_there Demo.opened
         {| vs_guild := "g1"; vs_member := "bot"; vs_channelID := Some "vc" |}
         {| vs_guild := "g1"; vs_member := "bot"; vs_channelID := None |}
       = (Demo.opened, Some e).
Proof.
  split; [reflexivity|].
  apply (forced_disconnect_teardown_unguarded Demo.client Demo.nobody_there Demo.opened
           {| vs_guild := "g1"; vs_member := "bot"; vs_channelID := Some "vc" |}
           {| vs_guild := "g1"; vs_member := "bot"; vs_channelID := None |}
           {| guild_id := "g1" |} 0 (Demo.session_of Demo.opened 0));
    reflexivity.
Defined.

(** The same event for the session that has joined "vc" and has a timer
    pending: torn down, out of the registry, notification emitted, the
    timer still pending. *)
Example forced_disconnect_while_cooling_down :
  let p' := fst (_handleVoiceState Demo.client Demo.nobody_there Demo.alone
                   {| vs_guild := "g1"; vs_member := "bot"; vs_channelID := Some "vc" |}
                   {| vs_guild := "g1"; vs_member := "bot"; vs_channelID := None |}) in
  timers Demo.alone !! 0 = Some (0, 60000%Z)
  /\ log p' = [Destroyed 0; Emitted botDisconnect 0]
  /\ queues p' !! "g1" = None
  /\ timers p' !! 0 = Some (0, 60000%Z).
Proof. vm_compute. auto. Qed.


(** A session closed and opened again while the cooldown ran: the
    registry names the new session 1, the pending timer 0 closes over
    the old session 0, which teardown marked.  When that timer expires
    its callback finds an entry for the guild and calls [destroy] on the
    old session, which throws: nothing is emitted and session 1 stays
    registered. *)
Example reopened_state :
  queues Demo.reopened !! "g1" = Some 1
  /\ timers Demo.reopened !! 0 = Some (0, 60000%Z)
  /\ q_destroyed (Demo.session_of Demo.reopened 0) = true
  /\ fireTimeout Demo.nobody_there Demo.reopened 0
     = (with_timers (delete 0) Demo.reopened, Some (Error "Cannot use destroyed queue"))
  /\ log Demo.reopened = [Destroyed 0].
Proof. vm_compute. auto. Qed.

(** The member-left branch with the bot's channel empty: a new timer
    is started for the session and recorded under the guild's key, and
    every timer that was pending stays pending, the one the key named
    before included. *)
Lemma departure_starts_another_timer
    (c : Client) (isVoiceEmpty : option Channel -> bool) (p : Player)
    (oldState newState : VoiceState) (g : Guild) (qr : QueueRef) (queue : Queue)
    (ch : Channel) :
  well_formed p ->
  guilds_resolve c (vs_guild oldState) = Some g ->
  queues p !! guild_id g = Some qr ->
  store p !! qr = Some queue ->
  vs_member oldState <> user_id c ->
  truthy_bool (leaveOnEmpty (q_options queue)) = true ->
  q_connection queue = Some {| channel := Some ch |} ->
  truthy_string (vs_channelID oldState) = true ->
  vs_channelID newState = None ->
  isVoiceEmpty (Some ch) = true ->
  let p' := fst (_handleVoiceState c isVoiceEmpty p oldState newState) in
  timers p' !! next_timer p = Some (qr, cooldown_of queue)
  /\ (forall t entry, timers p !! t = Some entry -> timers p' !! t = Some entry)
  /\ (exists queue',
        store p' !! qr = Some queue'
        /\ q_cooldownsTimeout queue' !! empty_key (vs_guild oldState)
           = Some (next_timer p)).
Proof.
  intros (_ & _ & _ & Hfresh) Hg Hq Hs Hbot Hleave Hconn Hold Hnew Hempty p'.
  subst p'. unfold _handleVoiceState, getQueue.
  apply String.eqb_neq in Hbot.
  rewrite Hg, Hq, Hbot, Hs, Hleave, Hconn. cbn [andb negb channel].
  rewrite Hold, Hnew. cbn [truthy_string orb negb]. rewrite Hempty.
  cbn [negb setTimeout fst with_store store timers].
  split; [apply lookup_insert_eq|]. split.
  - intros t entry Ht. rewrite lookup_insert_ne; [exact Ht|].
    intros <-. pose proof (Hfresh (next_timer p) (ex_intro _ entry Ht)). lia.
  - eexists. rewrite lookup_insert_eq. split; [reflexivity|].
    simpl. apply lookup_insert_eq.
Qed.

(** C4, at a failing input.  Amy leaves the bot's channel, which is now
    empty, and a timer starts; Bob then leaves another channel of the
    guild while the bot's channel is still empty.  The handler starts a
    second timer although the first is still pending, and the session's
    cooldown map now names only the second. *)
Theorem second_departure_stacks_a_timer :
  attainable Demo.client Demo.alone_twice
  /\ pending_for Demo.alone "g1" = [0]
  /\ pending_for Demo.alone_twice "g1" = [0; 1]
  /\ q_cooldownsTimeout (Demo.session_of Demo.alone_twice 0) !! empty_key "g1" = Some 1.
Proof.
  split; [apply attainable_alone_twice|].
  vm_compute. auto.
Qed.

(** What the stacked timer costs: Amy comes back, which clears the one
    timer the cooldown map names, and leaves again, which starts a fresh
    cooldown; the forgotten first timer then expires and ends the
    session while the fresh cooldown is still pending. *)
Example forgotten_timer_ends_the_session :
  let back := Demo.after Demo.somebody_there (Demo.joins "amy" "vc") Demo.alone_twice in
  let gone := Demo.after Demo.nobody_there (Demo.leaves "amy" "vc") back in
  pending_for back "g1" = [0]
  /\ pending_for gone "g1" = [0; 2]
  /\ log (fst (fireTimeout Demo.nobody_there gone 0))
     = [Destroyed 0; Emitted channelEmpty 0]
  /\ timers (fst (fireTimeout Demo.nobody_there gone 0)) !! 2 = Some (0, 60000%Z).
Proof. vm_compute. auto. Qed.

End ReactorFacts.

(** ** The resolution pipeline *)

Section PipelineFacts.
Import Registry Resolve.

Variable env : Collaborators.

(** The formatter as the spec describes it, on the spec's examples. *)
Example spec_time_codes :
  timeCode Demo.providers 65000 = "1:05"
  /\ timeCode Demo.providers 3661000 = "1:01:01".
Proof. split; reflexivity. Qed.

(** *** The monad *)

Lemma bind_Ok {A B : Type} (t : list Call) (a : A) (f : A -> M B) :
  bind (t, Ok a) f = ((t ++ fst (f a))%list, snd (f a)).
Proof. unfold bind. now destruct (f a). Qed.

Lemma bind_ret {A B : Type} (a : A) (f : A -> M B) : bind (ret a) f = f a.
Proof. unfold ret. rewrite bind_Ok. now destruct (f a). Qed.

Lemma bind_Ok_inv {A B : Type} (m : M A) (f : A -> M B) (b : B) :
  snd (bind m f) = Ok b ->
  exists a, snd m = Ok a /\ snd (f a) = Ok b.
Proof.
  destruct m as [t [a|e]]; simpl; [|discriminate].
  destruct (f a) as [t' r] eqn:E. simpl. intros ->.
  exists a. now rewrite E.
Qed.

Lemma bind_trace {A B : Type} (m : M A) (f : A -> M B) (c : Call) :
  In c (fst (bind m f)) ->
  In c (fst m) \/ exists a, snd m = Ok a /\ In c (fst (f a)).
Proof.
  destruct m as [t [a|e]]; simpl; [|now left].
  destruct (f a) as [t' r] eqn:E. simpl. rewrite in_app_iff.
  intros [H|H]; [now left|]. right. exists a. now rewrite E.
Qed.

Lemma await_Resolved {A B : Type} (c : Call) (a : A) (f : A -> M B) :
  bind (await c (Resolved a)) f = (c :: fst (f a), snd (f a)).
Proof. unfold await. now rewrite bind_Ok. Qed.

Lemma await_Rejected {A B : Type} (c : Call) (reason : string) (f : A -> M B) :
  bind (await c (Rejected reason)) f = ([c], Throw (Rejection reason)).
Proof. reflexivity. Qed.

Lemma bind_no_rejection {A B : Type} (m : M A) (f : A -> M B) :
  no_rejection m -> (forall a, no_rejection (f a)) -> no_rejection (bind m f).
Proof.
  intros Hm Hf reason. destruct m as [t [a|e]]; simpl.
  - specialize (Hf a reason). now destruct (f a).
  - intros H. injection H as ->. exact (Hm reason eq_refl).
Qed.

Lemma ret_no_rejection {A : Type} (a : A) : no_rejection (ret a).
Proof. intros reason. discriminate. Qed.

Lemma await_catch_no_rejection {A : Type} (c : Call) (outcome : Fetch (option A)) :
  no_rejection (await_catch c outcome).
Proof. intros reason. now destruct outcome. Qed.

Lemma TypeError_no_rejection {A : Type} (message : string) :
  no_rejection (@throw A (TypeError message)).
Proof. intros reason. discriminate. Qed.

Lemma mapM_no_rejection {A B : Type} (f : A -> M B) (xs : list A) :
  (forall x, no_rejection (f x)) -> no_rejection (mapM f xs).
Proof.
  intros Hf. induction xs as [|x rest IH]; simpl.
  - apply ret_no_rejection.
  - apply bind_no_rejection; [apply Hf|]. intros y.
    apply bind_no_rejection; [exact IH|]. intros ys. apply ret_no_rejection.
Qed.

(** *** The two early exits of [search] *)

Lemma search_known_track
    (exts : list (string * ExtractorModel)) (t : Track) (o : option SearchOptions) :
  search env exts (QueryTrack t) o = ([], Ok {| playlist := None; tracks := [t] |}).
Proof. reflexivity. Qed.

Lemma search_needs_options (exts : list (string * ExtractorModel)) (q : string) :
  exists message, search env exts (QueryString q) None = ([], Throw (Error message)).
Proof. eexists. reflexivity. Qed.

(** *** The extractor loop *)

Lemma has_results_nonempty (d : ExtractorModelData) :
  has_results (Some d) = true <-> emd_data d <> [].
Proof.
  unfold has_results. destruct (emd_data d); simpl; split; congruence.
Qed.

(** Extractors that are passed over only add their fetches to the trace. *)
Lemma try_extractors_passed_over
    (requestedBy : option User) (q : string)
    (pre rest : list (string * ExtractorModel)) :
  Forall (passes_over q) pre ->
  try_extractors env requestedBy q (pre ++ rest)
  = ((handle_calls q pre ++ fst (try_extractors env requestedBy q rest))%list,
     snd (try_extractors env requestedBy q rest)).
Proof.
  induction 1 as [|[name x] pre Hx Hpre IH]; simpl.
  - now destruct (try_extractors env requestedBy q rest).
  - unfold handle_calls. simpl.
    destruct (em_validate x q) eqn:V; simpl; [|exact IH].
    destruct Hx as [Hx|[Hx|(d & Hx & Hd)]]; simpl in Hx.
    + congruence.
    + rewrite Hx. simpl. rewrite IH. reflexivity.
    + rewrite Hx. simpl. rewrite Hd. simpl. rewrite IH. reflexivity.
Qed.

(** The loop only calls extractors. *)
Lemma try_extractors_calls
    (requestedBy : option User) (q : string) (exts : list (string * ExtractorModel)) :
  Forall (fun c => is_builtin c = false) (fst (try_extractors env requestedBy q exts)).
Proof.
  induction exts as [|[name x] rest IH]; [constructor|].
  cbn [try_extractors]. destruct (em_validate x q); cbn [negb]; [|exact IH].
  destruct (em_handle x q) as [[d|]|reason].
  - rewrite await_Resolved. destruct (has_results (Some d)); simpl.
    + repeat constructor.
    + constructor; [reflexivity | exact IH].
  - rewrite await_Resolved. simpl. constructor; [reflexivity | exact IH].
  - rewrite await_Rejected. repeat constructor.
Qed.

(** When the loop runs to its end, no registered extractor yields a
    non-empty list for the query. *)
Lemma try_extractors_exhausted
    (requestedBy : option User) (q : string) (exts : list (string * ExtractorModel)) :
  snd (try_extractors env requestedBy q exts) = Ok None ->
  first_yielding q exts = None.
Proof.
  induction exts as [|[name x] rest IH]; [reflexivity|].
  cbn [try_extractors first_yielding].
  destruct (em_validate x q); cbn [negb]; [|exact IH].
  destruct (em_handle x q) as [[d|]|reason].
  - rewrite await_Resolved. destruct (has_results (Some d)); simpl.
    + discriminate.
    + exact IH.
  - rewrite await_Resolved. simpl. exact IH.
  - rewrite await_Rejected. simpl. discriminate.
Qed.

(** A built-in call in the trace of [search] means the loop found
    nothing. *)
Lemma builtin_call_after_exhaustion
    (exts : list (string * ExtractorModel)) (q : string) (o : SearchOptions) :
  Exists (fun c => is_builtin c = true) (fst (search env exts (QueryString q) (Some o))) ->
  first_yielding q exts = None.
Proof.
  simpl. intros H.
  pose proof (try_extractors_calls (users_resolve env (so_requestedBy o)) q exts) as Hcalls.
  apply (try_extractors_exhausted (users_resolve env (so_requestedBy o))).
  destruct (try_extractors env (users_resolve env (so_requestedBy o)) q exts)
    as [t [[result|]|e]]; simpl in *.
  - exfalso. rewrite app_nil_r in H.
    apply List.Exists_exists in H. destruct H as (c & Hin & Hc).
    rewrite List.Forall_forall in Hcalls. rewrite (Hcalls c Hin) in Hc. discriminate.
  - reflexivity.
  - exfalso.
    apply List.Exists_exists in H. destruct H as (c & Hin & Hc).
    rewrite List.Forall_forall in Hcalls. rewrite (Hcalls c Hin) in Hc. discriminate.
Qed.

(** Precedence where no fetch rejects.  Take the first registered
    extractor that accepts the query and whose fetch yields a non-empty
    list, every extractor registered before it having declined the
    query or resolved with nothing.  Then [search] makes the fetches of the
    accepting extractors up to that one, in registration order, and no
    other call, and returns exactly that extractor's normalized tracks,
    in a playlist when the extractor gave an envelope.  And whenever
    [search] calls a built-in provider, no registered extractor yields a
    non-empty list for the query. *)
Theorem extractor_precedence
    (pre post : list (string * ExtractorModel)) (name : string) (e : ExtractorModel)
    (d : ExtractorModelData) (q : string) (o : SearchOptions) :
  Forall (passes_over q) pre ->
  em_validate e q = true ->
  em_handle e q = Resolved (Some d) ->
  emd_data d <> [] ->
  let exts := (pre ++ (name, e) :: post)%list in
  let requestedBy := users_resolve env (so_requestedBy o) in
  search env exts (QueryString q) (Some o)
  = (handle_calls q (pre ++ [(name, e)]), Ok (normalize env requestedBy d))
  /\ length (tracks (normalize env requestedBy d)) = length (emd_data d)
  /\ (is_Some (playlist (normalize env requestedBy d)) <-> is_Some (emd_playlist d))
  /\ Forall (fun c => is_builtin c = false) (fst (search env exts (QueryString q) (Some o)))
  /\ (forall others,
        Exists (fun c => is_builtin c = true)
               (fst (search env others (QueryString q) (Some o))) ->
        first_yielding q others = None).
Proof.
  intros Hpre Hv Hh Hd exts requestedBy.
  assert (E : search env exts (QueryString q) (Some o)
              = (handle_calls q (pre ++ [(name, e)]), Ok (normalize env requestedBy d))).
  { subst exts. unfold search. fold requestedBy.
    rewrite (try_extractors_passed_over requestedBy q pre _ Hpre).
    cbn [try_extractors]. rewrite Hv. cbn [negb]. rewrite Hh, await_Resolved.
    apply has_results_nonempty in Hd. rewrite Hd. cbn [ret fst snd].
    rewrite bind_Ok. cbn [ret fst snd]. rewrite app_nil_r.
    unfold handle_calls. rewrite List.filter_app, List.map_app. simpl. rewrite Hv.
    reflexivity. }
  split; [exact E|].
  split; [apply length_map|].
  split; [unfold normalize; simpl; destruct (emd_playlist d); simpl;
          split; intros [x Hx]; try discriminate; eexists; reflexivity|].
  split.
  - rewrite E. simpl. unfold handle_calls.
    apply List.Forall_forall. intros c Hc. apply List.in_map_iff in Hc.
    now destruct Hc as (x & <- & _).
  - intros others. apply builtin_call_after_exhaustion.
Qed.

(** *** Durations *)

Lemma await_catch_bind {A B : Type} (c : Call) (outcome : Fetch (option A))
    (f : option A -> M B) :
  bind (await_catch c outcome) f
  = let a := match outcome with Resolved a => a | Rejected _ => None end in
    (c :: fst (f a), snd (f a)).
Proof. destruct outcome; unfold await_catch; now rewrite bind_Ok. Qed.

Lemma soundcloud_tracks_durations
    (requestedBy : option User) (hits : list SearchHit) (ts : list Track) :
  snd (soundcloud_tracks env requestedBy hits) = Ok ts ->
  Forall2 (fun ms t => t_duration t = timeCode env ms)
          (omap (fun r => match soundcloud_getSongInfo env (hit_url r) with
                          | Resolved (Some info) => Some (song_duration info)
                          | _ => None
                          end) hits)
          ts.
Proof.
  revert ts. induction hits as [|r rest IH]; intros ts.
  - simpl. intros [= <-]. constructor.
  - cbn [soundcloud_tracks omap list_omap]. rewrite await_catch_bind. cbn [snd].
    destruct (soundcloud_getSongInfo env (hit_url r)) as [[info|]|reason];
      try (intros H; apply IH; exact H).
    destruct (song_author info) as [author|]; [|discriminate].
    intros H. apply bind_Ok_inv in H. destruct H as (res & Hres & Hts).
    simpl in Hts. injection Hts as <-.
    constructor; [reflexivity | now apply IH].
Qed.

Lemma spotify_playlist_durations
    (requestedBy : option User) (q : string) (pl : PlaylistHead)
    (items : list SpotifyItem) (ts : list Track) :
  snd (mapM (spotify_playlist_track env requestedBy q pl) items) = Ok ts ->
  Forall2 (fun ms t => t_duration t = timeCode env ms)
          (omap (fun m => option_map sp_duration_ms (it_track m)) items) ts.
Proof.
  revert ts. induction items as [|m rest IH]; intros ts.
  - simpl. intros [= <-]. constructor.
  - cbn [mapM omap list_omap]. unfold spotify_playlist_track at 1.
    destruct (it_track m) as [tr|]; [|discriminate].
    rewrite bind_ret. intros H. apply bind_Ok_inv in H.
    destruct H as (res & Hres & Hts). simpl in Hts. injection Hts as <-.
    constructor; [reflexivity | now apply IH].
Qed.

Lemma youtube_playlist_durations
    (requestedBy : option User) (pl : PlaylistHead)
    (videos : list Video) (ts : list Track) :
  snd (mapM (youtube_playlist_track requestedBy pl) videos) = Ok ts ->
  Forall2 (fun video t => t_raw t = Some video
                          /\ t_duration t = v_durationFormatted video)
          videos ts.
Proof.
  revert ts. induction videos as [|video rest IH]; intros ts.
  - simpl. intros [= <-]. constructor.
  - cbn [mapM]. unfold youtube_playlist_track at 1.
    destruct (v_thumbnail video) as [th|]; [|discriminate].
    rewrite bind_ret. intros H. apply bind_Ok_inv in H.
    destruct H as (res & Hres & Hts). simpl in Hts. injection Hts as <-.
    constructor; [split; reflexivity | now apply IH].
Qed.

Lemma Forall2_map_both {A B C : Type} (R : B -> C -> Prop)
    (f : A -> B) (g : A -> C) (xs : list A) :
  (forall x, R (f x) (g x)) -> Forall2 R (map f xs) (map g xs).
Proof. intros H. induction xs; simpl; constructor; auto. Qed.

(** C2 (as the code has it).  Every track built by the SoundCloud and
    Spotify handlers carries the formatter's rendering of the
    millisecond duration of its source item; the YouTube search and
    YouTube playlist handlers instead store the provider's
    [durationFormatted] string of the video as it is. *)
Theorem durations_by_handler
    (requestedBy : option User) (q : string) (qt : QueryType) (r : SearchResult) :
  snd (builtin env requestedBy q qt) = Ok r ->
  match qt with
  | YOUTUBE_SEARCH | YOUTUBE_PLAYLIST => Forall keeps_provider_rendering (tracks r)
  | _ => Forall2 (fun ms t => t_duration t = timeCode env ms)
                 (source_millis env q qt) (tracks r)
  end.
Proof.
  destruct qt; cbn [builtin source_millis].
  - (* AUTO *) intros [= <-]. constructor.
  - (* YOUTUBE_SEARCH *)
    unfold handle_youtube_search. rewrite await_catch_bind. cbn [snd].
    destruct (YouTube_search env q) as [[vs|]|reason]; intros [= <-];
      try constructor.
    simpl. induction vs as [|v vs IH]; simpl; constructor; [|exact IH].
    eexists. split; reflexivity.
  - (* YOUTUBE_PLAYLIST *)
    unfold handle_youtube_playlist. rewrite await_catch_bind. cbn [snd].
    destruct (YouTube_getPlaylist env q) as [[ytpl|]|reason];
      try (intros [= <-]; constructor).
    unfold fetch_more. rewrite bind_Ok. cbn [snd].
    destruct (ytp_channel _) as [channel|]; [|discriminate].
    intros H. apply bind_Ok_inv in H. destruct H as (ts & Hts & Hr).
    injection Hr as <-. simpl.
    apply youtube_playlist_durations in Hts.
    clear - Hts. induction Hts as [|v t vs ts [H1 H2] _ IH]; constructor; [|exact IH].
    exists v. now split.
  - (* SOUNDCLOUD_TRACK *)
    unfold handle_soundcloud, soundcloud_hits.
    destruct (QueryType_eqb (QueryResolver_resolve env q) SOUNDCLOUD_TRACK).
    + rewrite bind_ret. intros H. apply bind_Ok_inv in H.
      destruct H as (ts & Hts & Hr). injection Hr as <-.
      now apply (soundcloud_tracks_durations requestedBy).
    + rewrite await_catch_bind. cbn [snd].
      destruct (soundcloud_search env q) as [[[|hit hits]|]|reason];
        try (intros [= <-]; constructor).
      intros H. apply bind_Ok_inv in H.
      destruct H as (ts & Hts & Hr). injection Hr as <-.
      now apply (soundcloud_tracks_durations requestedBy).
  - (* SOUNDCLOUD_SEARCH *)
    unfold handle_soundcloud, soundcloud_hits.
    destruct (QueryType_eqb (QueryResolver_resolve env q) SOUNDCLOUD_TRACK).
    + rewrite bind_ret. intros H. apply bind_Ok_inv in H.
      destruct H as (ts & Hts & Hr). injection Hr as <-.
      now apply (soundcloud_tracks_durations requestedBy).
    + rewrite await_catch_bind. cbn [snd].
      destruct (soundcloud_search env q) as [[[|hit hits]|]|reason];
        try (intros [= <-]; constructor).
      intros H. apply bind_Ok_inv in H.
      destruct H as (ts & Hts & Hr). injection Hr as <-.
      now apply (soundcloud_tracks_durations requestedBy).
  - (* SOUNDCLOUD_PLAYLIST *)
    unfold handle_soundcloud_playlist. rewrite await_catch_bind. cbn [snd].
    destruct (SoundCloud_getPlaylist env q) as [[d|]|reason]; intros [= <-];
      try constructor.
    simpl. now apply Forall2_map_both.
  - (* SPOTIFY_SONG *)
    unfold handle_spotify_song. rewrite await_catch_bind. cbn [snd].
    destruct (Spotify_getData env q) as [[d|]|reason]; intros [= <-];
      repeat constructor.
  - (* SPOTIFY_ALBUM *)
    unfold handle_spotify_list. rewrite await_catch_bind. cbn [snd].
    destruct (Spotify_getData env q) as [[d|]|reason];
      try (intros [= <-]; constructor).
    destruct (is_playlist_type d); cbn [negb].
    + intros H. apply bind_Ok_inv in H. destruct H as (ts & Hts & Hr).
      injection Hr as <-. now apply spotify_playlist_durations in Hts.
    + rewrite bind_ret. intros [= <-]. simpl. now apply Forall2_map_both.
  - (* SPOTIFY_PLAYLIST *)
    unfold handle_spotify_list. rewrite await_catch_bind. cbn [snd].
    destruct (Spotify_getData env q) as [[d|]|reason];
      try (intros [= <-]; constructor).
    destruct (is_playlist_type d); cbn [negb].
    + intros H. apply bind_Ok_inv in H. destruct H as (ts & Hts & Hr).
      injection Hr as <-. now apply spotify_playlist_durations in Hts.
    + rewrite bind_ret. intros [= <-]. simpl. now apply Forall2_map_both.
  - (* OTHER *) intros [= <-]. constructor.
Qed.

(** The extractor path renders durations through the formatter too. *)
Lemma extractor_durations (requestedBy : option User) (d : ExtractorModelData) :
  Forall2 (fun m t => t_duration t = timeCode env (ei_duration m))
          (emd_data d) (tracks (normalize env requestedBy d)).
Proof.
  unfold normalize. simpl.
  induction (emd_data d); simpl; constructor; auto.
Qed.

(** *** Dispatch on the source kind *)

(** Once the loop has run to its end, [search] is the built-in handler
    of the effective kind. *)
Lemma search_dispatch
    (exts : list (string * ExtractorModel)) (q : string) (o : SearchOptions) :
  let requestedBy := users_resolve env (so_requestedBy o) in
  let kind := effective_kind env q (nullish (so_searchEngine o) AUTO) in
  snd (try_extractors env requestedBy q exts) = Ok None ->
  search env exts (QueryString q) (Some o)
  = ((fst (try_extractors env requestedBy q exts)
      ++ fst (builtin env requestedBy q kind))%list,
     snd (builtin env requestedBy q kind)).
Proof.
  intros requestedBy kind H. unfold search. fold requestedBy. fold kind.
  destruct (try_extractors env requestedBy q exts) as [t r]. simpl in H. subst r.
  now rewrite bind_Ok.
Qed.

Lemma effective_kind_forced (e : Collaborators) (q : string) (k : QueryType) :
  k <> AUTO -> effective_kind e q k = k.
Proof. unfold effective_kind. now destruct k. Qed.

(** The extractor loop never consults the classifier. *)
Lemma try_extractors_classifier
    (f : string -> QueryType) (requestedBy : option User) (q : string)
    (exts : list (string * ExtractorModel)) :
  try_extractors (with_classifier f env) requestedBy q exts
  = try_extractors env requestedBy q exts.
Proof.
  induction exts as [|[name x] rest IH]; [reflexivity|].
  cbn [try_extractors]. rewrite IH. reflexivity.
Qed.

(** Nor does any handler but the shared SoundCloud one. *)
Lemma builtin_classifier
    (f : string -> QueryType) (requestedBy : option User) (q : string) (k : QueryType) :
  k <> SOUNDCLOUD_TRACK -> k <> SOUNDCLOUD_SEARCH ->
  builtin (with_classifier f env) requestedBy q k = builtin env requestedBy q k.
Proof.
  intros Ht Hs. destruct k; try congruence; reflexivity.
Qed.

(** The shared SoundCloud handler asks the classifier: a track URL is
    looked up on its own, anything else is searched for. *)
Lemma soundcloud_handler_reclassifies (requestedBy : option User) (q : string) :
  if QueryType_eqb (QueryResolver_resolve env q) SOUNDCLOUD_TRACK
  then fst (handle_soundcloud env requestedBy q) = [call_soundcloud_getSongInfo q]
  else exists rest,
         fst (handle_soundcloud env requestedBy q) = call_soundcloud_search q :: rest.
Proof.
  unfold handle_soundcloud.
  destruct (QueryType_eqb (QueryResolver_resolve env q) SOUNDCLOUD_TRACK).
  - rewrite bind_ret. cbn [soundcloud_tracks hit_url].
    rewrite await_catch_bind.
    destruct (soundcloud_getSongInfo env q) as [[info|]|reason]; simpl;
      try reflexivity.
    destruct (song_author info); reflexivity.
  - rewrite await_catch_bind. eexists. reflexivity.
Qed.

(** C3 (as the code has it).  With a search engine other than "auto",
    [search] dispatches on the caller's kind as it is.  For every kind
    but the two SoundCloud track and search kinds the classifier then
    has no influence on the result.  Those two kinds share one handler,
    which classifies the query text again: it looks the text up as a
    single track exactly when the classifier takes it for a SoundCloud
    track URL, and otherwise runs a SoundCloud search, whichever of the
    two kinds was forced. *)
Theorem forced_kind_dispatch
    (exts : list (string * ExtractorModel)) (q : string) (o : SearchOptions)
    (k : QueryType) :
  so_searchEngine o = Some k ->
  k <> AUTO ->
  let requestedBy := users_resolve env (so_requestedBy o) in
  (snd (try_extractors env requestedBy q exts) = Ok None ->
   search env exts (QueryString q) (Some o)
   = ((fst (try_extractors env requestedBy q exts)
       ++ fst (builtin env requestedBy q k))%list,
      snd (builtin env requestedBy q k)))
  /\ (k <> SOUNDCLOUD_TRACK -> k <> SOUNDCLOUD_SEARCH ->
      forall f, search (with_classifier f env) exts (QueryString q) (Some o)
                = search env exts (QueryString q) (Some o))
  /\ (k = SOUNDCLOUD_TRACK \/ k = SOUNDCLOUD_SEARCH ->
      if QueryType_eqb (QueryResolver_resolve env q) SOUNDCLOUD_TRACK
      then fst (builtin env requestedBy q k) = [call_soundcloud_getSongInfo q]
      else exists rest,
             fst (builtin env requestedBy q k) = call_soundcloud_search q :: rest).
Proof.
  intros Ho Hk requestedBy. split; [|split].
  - intros Hnone. rewrite (search_dispatch exts q o Hnone).
    rewrite Ho. cbn [nullish]. now rewrite effective_kind_forced.
  - intros Ht Hs f. unfold search. rewrite Ho. cbn [nullish].
    rewrite try_extractors_classifier, !effective_kind_forced by assumption.
    cbn [users_resolve with_classifier].
    destruct (try_extractors env (users_resolve env (so_requestedBy o)) q exts)
      as [t [[result|]|e]]; try reflexivity.
    rewrite !bind_Ok. now rewrite builtin_classifier.
  - intros [-> | ->]; apply soundcloud_handler_reclassifies.
Qed.

(** *** Provider failures *)

Lemma soundcloud_tracks_no_rejection
    (requestedBy : option User) (hits : list SearchHit) :
  no_rejection (soundcloud_tracks env requestedBy hits).
Proof.
  induction hits as [|r rest IH]; cbn [soundcloud_tracks].
  - apply ret_no_rejection.
  - apply bind_no_rejection; [apply await_catch_no_rejection|].
    intros [info|]; [|exact IH].
    destruct (song_author info); [|apply TypeError_no_rejection].
    apply bind_no_rejection; [exact IH|]. intros res. apply ret_no_rejection.
Qed.

(** No built-in handler lets a provider's rejection out. *)
Lemma builtin_no_rejection (requestedBy : option User) (q : string) (qt : QueryType) :
  no_rejection (builtin env requestedBy q qt).
Proof.
  destruct qt; cbn [builtin]; try apply ret_no_rejection.
  - unfold handle_youtube_search.
    apply bind_no_rejection; [apply await_catch_no_rejection|].
    intros [vs|]; apply ret_no_rejection.
  - unfold handle_youtube_playlist.
    apply bind_no_rejection; [apply await_catch_no_rejection|].
    intros [ytpl|]; [|apply ret_no_rejection].
    apply bind_no_rejection; [intros reason; discriminate|].
    intros loaded. destruct (ytp_channel loaded); [|apply TypeError_no_rejection].
    apply bind_no_rejection; [|intros ts; apply ret_no_rejection].
    apply mapM_no_rejection. intros video. unfold youtube_playlist_track.
    destruct (v_thumbnail video);
      [apply ret_no_rejection | apply TypeError_no_rejection].
  - unfold handle_soundcloud. apply bind_no_rejection.
    + destruct (QueryType_eqb _ _);
        [apply ret_no_rejection | apply await_catch_no_rejection].
    + intros [[|hit hits]|]; try apply ret_no_rejection.
      apply bind_no_rejection; [apply soundcloud_tracks_no_rejection|].
      intros res. apply ret_no_rejection.
  - unfold handle_soundcloud. apply bind_no_rejection.
    + destruct (QueryType_eqb _ _);
        [apply ret_no_rejection | apply await_catch_no_rejection].
    + intros [[|hit hits]|]; try apply ret_no_rejection.
      apply bind_no_rejection; [apply soundcloud_tracks_no_rejection|].
      intros res. apply ret_no_rejection.
  - unfold handle_soundcloud_playlist.
    apply bind_no_rejection; [apply await_catch_no_rejection|].
    intros [d|]; apply ret_no_rejection.
  - unfold handle_spotify_song.
    apply bind_no_rejection; [apply await_catch_no_rejection|].
    intros [d|]; apply ret_no_rejection.
  - unfold handle_spotify_list.
    apply bind_no_rejection; [apply await_catch_no_rejection|].
    intros [d|]; [|apply ret_no_rejection].
    apply bind_no_rejection; [|intros ts; apply ret_no_rejection].
    destruct (negb (is_playlist_type d)); [apply ret_no_rejection|].
    apply mapM_no_rejection. intros m. unfold spotify_playlist_track.
    destruct (it_track m); [apply ret_no_rejection | apply TypeError_no_rejection].
  - unfold handle_spotify_list.
    apply bind_no_rejection; [apply await_catch_no_rejection|].
    intros [d|]; [|apply ret_no_rejection].
    apply bind_no_rejection; [|intros ts; apply ret_no_rejection].
    destruct (negb (is_playlist_type d)); [apply ret_no_rejection|].
    apply mapM_no_rejection. intros m. unfold spotify_playlist_track.
    destruct (it_track m); [apply ret_no_rejection | apply TypeError_no_rejection].
Qed.

Lemma first_call_rejected
    (requestedBy : option User) (q : string) (qt : QueryType)
    (c : Call) (rest : list Call) :
  fst (builtin env requestedBy q qt) = c :: rest ->
  fetch_rejects env (fetched_playlist env q) c = true ->
  builtin env requestedBy q qt = ([c], Ok empty_result).
Proof.
  intros Hc Hrej.
  destruct qt; cbn [builtin] in *; try discriminate.
  - unfold handle_youtube_search in *. rewrite await_catch_bind in *.
    cbn [fst] in Hc. injection Hc as <- _. cbn [fetch_rejects] in Hrej.
    now destruct (YouTube_search env q).
  - unfold handle_youtube_playlist in *. rewrite await_catch_bind in *.
    cbn [fst] in Hc. injection Hc as <- _. cbn [fetch_rejects] in Hrej.
    now destruct (YouTube_getPlaylist env q).
  - unfold handle_soundcloud in *.
    destruct (QueryType_eqb (QueryResolver_resolve env q) SOUNDCLOUD_TRACK).
    + rewrite bind_ret in *. cbn [soundcloud_tracks hit_url] in *.
      rewrite await_catch_bind in *.
      cbv zeta in *.
      destruct (soundcloud_getSongInfo env q) as [[info|]|reason] eqn:E;
        [destruct (song_author info)| |];
        simpl in Hc; injection Hc as <- _;
        cbn [fetch_rejects] in Hrej; rewrite E in Hrej;
        try discriminate; reflexivity.
    + rewrite await_catch_bind in *.
      cbn [fst] in Hc. injection Hc as <- _. cbn [fetch_rejects] in Hrej.
      now destruct (soundcloud_search env q).
  - unfold handle_soundcloud in *.
    destruct (QueryType_eqb (QueryResolver_resolve env q) SOUNDCLOUD_TRACK).
    + rewrite bind_ret in *. cbn [soundcloud_tracks hit_url] in *.
      rewrite await_catch_bind in *.
      cbv zeta in *.
      destruct (soundcloud_getSongInfo env q) as [[info|]|reason] eqn:E;
        [destruct (song_author info)| |];
        simpl in Hc; injection Hc as <- _;
        cbn [fetch_rejects] in Hrej; rewrite E in Hrej;
        try discriminate; reflexivity.
    + rewrite await_catch_bind in *.
      cbn [fst] in Hc. injection Hc as <- _. cbn [fetch_rejects] in Hrej.
      now destruct (soundcloud_search env q).
  - unfold handle_soundcloud_playlist in *. rewrite await_catch_bind in *.
    cbn [fst] in Hc. injection Hc as <- _. cbn [fetch_rejects] in Hrej.
    now destruct (SoundCloud_getPlaylist env q).
  - unfold handle_spotify_song in *. rewrite await_catch_bind in *.
    cbn [fst] in Hc. injection Hc as <- _. cbn [fetch_rejects] in Hrej.
    now destruct (Spotify_getData env q).
  - unfold handle_spotify_list in *. rewrite await_catch_bind in *.
    cbn [fst] in Hc. injection Hc as <- _. cbn [fetch_rejects] in Hrej.
    now destruct (Spotify_getData env q).
  - unfold handle_spotify_list in *. rewrite await_catch_bind in *.
    cbn [fst] in Hc. injection Hc as <- _. cbn [fetch_rejects] in Hrej.
    now destruct (Spotify_getData env q).
Qed.

(** C5 (as the code has it).  Take a query that no extractor answers,
    so that [search] hands it to the built-in handler of its kind.  When
    the first provider fetch of that handler rejects, the handler makes
    no further call and [search] returns the empty result.  And no
    built-in handler ever lets a provider's rejection out, whichever of
    its fetches rejects. *)
Theorem first_fetch_rejection_absorbed
    (exts : list (string * ExtractorModel)) (q : string) (o : SearchOptions)
    (c : Call) (rest : list Call) :
  let requestedBy := users_resolve env (so_requestedBy o) in
  let kind := effective_kind env q (nullish (so_searchEngine o) AUTO) in
  snd (try_extractors env requestedBy q exts) = Ok None ->
  fst (builtin env requestedBy q kind) = c :: rest ->
  fetch_rejects env (fetched_playlist env q) c = true ->
  search env exts (QueryString q) (Some o)
  = ((fst (try_extractors env requestedBy q exts) ++ [c])%list, Ok empty_result)
  /\ (forall requestedBy' q' qt', no_rejection (builtin env requestedBy' q' qt')).
Proof.
  intros requestedBy kind Hnone Hc Hrej.
  split; [|intros; apply builtin_no_rejection].
  rewrite (search_dispatch exts q o Hnone). fold requestedBy. fold kind.
  now rewrite (first_call_rejected requestedBy q kind c rest Hc Hrej).
Qed.

End PipelineFacts.

Lemma extractor_precedence_witness :
  Resolve.search Demo.providers
    [("Silent", Demo.silent); ("Yielding", Demo.yielding)]
    (Resolve.QueryString "anything") (Some (Demo.asked_by "u" None))
  = ([Resolve.extractor_handle 1 "anything"; Resolve.extractor_handle 2 "anything"],
     Ok (Resolve.normalize Demo.providers (Some "u")
           {| Registry.emd_playlist := None; Registry.emd_data := [Demo.an_item] |})).
Proof.
  refine (proj1 (extractor_precedence Demo.providers
                   [("Silent", Demo.silent)] [] "Yielding" Demo.yielding
                   {| Registry.emd_playlist := None; Registry.emd_data := [Demo.an_item] |}
                   "anything" (Demo.asked_by "u" None) _ _ _ _)).
  - constructor; [|constructor]. right. right. eexists. split; reflexivity.
  - reflexivity.
  - reflexivity.
  - simpl. discriminate.
Defined.

(** Precedence as stated does not hold of [search]: an accepting
    extractor whose fetch rejects is registered before the one that
    yields a track; the rejection leaves [search], and the yielding
    extractor is never asked. *)
Lemma precedence_fails_on_rejection : ~ Resolve.precedence_as_stated.
Proof.
  intros H.
  specialize (H Demo.providers
                [("Failing", Demo.failing); ("Yielding", Demo.yielding)]
                "anything" (Demo.asked_by "u" None) Demo.yielding
                {| Registry.emd_playlist := None; Registry.emd_data := [Demo.an_item] |}
                eq_refl).
  vm_compute in H. discriminate.
Qed.

Example rejection_leaves_search :
  Resolve.search Demo.providers
    [("Failing", Demo.failing); ("Yielding", Demo.yielding)]
    (Resolve.QueryString "anything") (Some (Demo.asked_by "u" None))
  = ([Resolve.extractor_handle 0 "anything"], Throw (Rejection "network down")).
Proof. reflexivity. Qed.

(** C1, at a failing input.  Two extractors accept the query: the fetch
    of the first rejects, the second yields a track and is the first
    registered extractor whose fetch yields a non-empty list.  [search]
    awaits the first fetch with nothing to catch its rejection: it
    rejects with that reason after this one call and never asks the
    second extractor, while the same rejection from a built-in provider
    is caught and gives the empty result. *)
Theorem extractor_rejection_preempts_precedence :
  let exts := [("Failing", Demo.failing); ("Yielding", Demo.yielding)] in
  let item := {| Registry.emd_playlist := None; Registry.emd_data := [Demo.an_item] |} in
  Resolve.first_yielding "anything" exts = Some (Demo.yielding, item)
  /\ Resolve.search Demo.providers exts
       (Resolve.QueryString "anything") (Some (Demo.asked_by "u" None))
     = ([Resolve.extractor_handle 0 "anything"], Throw (Rejection "network down"))
  /\ Resolve.search Demo.providers []
       (Resolve.QueryString "https://open.spotify.com/track/1")
       (Some (Demo.asked_by "u" None))
     = ([Resolve.call_Spotify_getData "https://open.spotify.com/track/1"],
        Ok Resolve.empty_result).
Proof. repeat split. Qed.

Lemma durations_by_handler_witness :
  exists r,
    snd (Resolve.builtin Demo.providers (Some "u") "some song" Resolve.SOUNDCLOUD_SEARCH)
    = Ok r
    /\ Forall2 (fun ms t => Resolve.t_duration t = Resolve.timeCode Demo.providers ms)
               (Resolve.source_millis Demo.providers "some song" Resolve.SOUNDCLOUD_SEARCH)
               (Resolve.tracks r).
Proof.
  eexists. split; [reflexivity|].
  exact (durations_by_handler Demo.providers (Some "u") "some song"
           Resolve.SOUNDCLOUD_SEARCH _ eq_refl).
Defined.

(** C2 (as stated) fails: the YouTube search handler stores the
    provider's string "01:05" for a video of 65000 ms, which the
    formatter renders as "1:05". *)
Lemma youtube_keeps_provider_string : ~ Resolve.durations_as_stated.
Proof.
  intros H.
  pose proof (H Demo.providers (Some "u") "intro" Resolve.YOUTUBE_SEARCH
                {| Resolve.playlist := None;
                   Resolve.tracks := [Resolve.youtube_search_track (Some "u") Demo.a_video] |}
                eq_refl) as H1.
  change (Forall2 (fun ms t => Resolve.t_duration t = Resolve.timeCode Demo.providers ms)
                  [65000%Z] [Resolve.youtube_search_track (Some "u") Demo.a_video]) in H1.
  inversion H1 as [|ms t mss ts Ht Hrest]; subst.
  vm_compute in Ht. discriminate.
Qed.

Example youtube_search_duration :
  map Resolve.t_duration
      (match snd (Resolve.handle_youtube_search Demo.providers (Some "u") "intro") with
       | Ok r => Resolve.tracks r
       | Throw _ => []
       end) = ["01:05"]
  /\ Resolve.timeCode Demo.providers (Resolve.v_duration Demo.a_video) = "1:05".
Proof. split; reflexivity. Qed.

Lemma forced_kind_dispatch_witness :
  exists rest,
    fst (Resolve.builtin Demo.providers (Some "u") "some song" Resolve.SOUNDCLOUD_TRACK)
    = Resolve.call_soundcloud_search "some song" :: rest.
Proof.
  refine (proj2 (proj2
    (forced_kind_dispatch Demo.providers [] "some song"
       (Demo.asked_by "u" (Some Resolve.SOUNDCLOUD_TRACK)) Resolve.SOUNDCLOUD_TRACK
       _ _)) (or_introl eq_refl)).
  - reflexivity.
  - discriminate.
Defined.

(** C3 (as stated) fails: the SoundCloud track kind forced on plain
    text, which the classifier does not take for a SoundCloud track
    URL, makes the handler run a SoundCloud search. *)
Lemma forced_soundcloud_track_searches : ~ Resolve.forced_kind_as_stated.
Proof.
  intros H.
  destruct (H Demo.providers [] "some song"
              (Demo.asked_by "u" (Some Resolve.SOUNDCLOUD_TRACK))
              Resolve.SOUNDCLOUD_TRACK eq_refl) as [_ Hno]; [discriminate|].
  apply (Hno eq_refl). vm_compute. left. reflexivity.
Qed.

Example forced_soundcloud_track_trace :
  Demo.spec_classify "some song" = Resolve.YOUTUBE_SEARCH
  /\ fst (Resolve.search Demo.providers [] (Resolve.QueryString "some song")
            (Some (Demo.asked_by "u" (Some Resolve.SOUNDCLOUD_TRACK))))
     = [Resolve.call_soundcloud_search "some song";
        Resolve.call_soundcloud_getSongInfo "https://soundcloud.com/a/one";
        Resolve.call_soundcloud_getSongInfo "https://soundcloud.com/a/two"].
Proof. split; reflexivity. Qed.

Lemma first_fetch_rejection_absorbed_witness :
  Resolve.search Demo.providers []
    (Resolve.QueryString "https://open.spotify.com/track/1")
    (Some (Demo.asked_by "u" None))
  = ([Resolve.call_Spotify_getData "https://open.spotify.com/track/1"],
     Ok Resolve.empty_result).
Proof.
  refine (proj1 (first_fetch_rejection_absorbed Demo.providers []
                   "https://open.spotify.com/track/1" (Demo.asked_by "u" None)
                   (Resolve.call_Spotify_getData "https://open.spotify.com/track/1")
                   [] _ _ _)); reflexivity.
Defined.

(** C5 (as stated) fails: in the YouTube playlist handler the playlist
    is found and its page load then rejects; the rejection is absorbed,
    but [search] returns the playlist with the videos it already had,
    not the empty result. *)
Lemma later_rejection_keeps_the_result : ~ Resolve.absorption_as_stated.
Proof.
  intros H.
  specialize (H Demo.providers (Some "u") "https://www.youtube.com/playlist?list=PL1"
                Resolve.YOUTUBE_PLAYLIST (Resolve.call_ytpl_fetch (Some "PL1"))).
  assert (Hr : snd (Resolve.builtin Demo.providers (Some "u")
                      "https://www.youtube.com/playlist?list=PL1"
                      Resolve.YOUTUBE_PLAYLIST) = Ok Resolve.empty_result).
  { apply H; [right; left; reflexivity | reflexivity]. }
  vm_compute in Hr. discriminate.
Qed.

Example playlist_page_load_rejected :
  Resolve.ytpl_fetch Demo.providers Demo.a_playlist = Rejected "timed out"
  /\ match snd (Resolve.search Demo.providers []
                  (Resolve.QueryString "https://www.youtube.com/playlist?list=PL1")
                  (Some (Demo.asked_by "u" None))) with
     | Ok r => length (Resolve.tracks r) = 1 /\ Resolve.playlist r <> None
     | Throw _ => False
     end.
Proof. split; [reflexivity|]. simpl. split; [reflexivity | discriminate]. Qed.

(** Two SoundCloud hits, the second lookup rejecting: the track of the
    first is returned. *)
Example one_lookup_rejected :
  Resolve.soundcloud_getSongInfo Demo.providers "https://soundcloud.com/a/two"
  = Rejected "not found"
  /\ match snd (Resolve.builtin Demo.providers (Some "u") "some song"
                  Resolve.SOUNDCLOUD_SEARCH) with
     | Ok r => map Resolve.t_title (Resolve.tracks r) = [Some "One"]
     | Throw _ => False
     end.
Proof. split; reflexivity. Qed.

(** * Further properties of the code *)

(** ** The extractor registry: order, frame, removal *)

Section RegistryOrder.
Import Registry.

Lemma get_None_keys (l : list (string * ExtractorModel)) (k : string) :
  get l k = None <-> ~ In k (map fst l).
Proof.
  induction l as [|[k' m'] rest IH]; simpl; [tauto|].
  destruct (String.eqb k k') eqn:E.
  - apply String.eqb_eq in E. subst. split; [discriminate | tauto].
  - apply String.eqb_neq in E. rewrite IH. split.
    + intros H [H1|H1]; [congruence | tauto].
    + tauto.
Qed.

Lemma set_fresh (l : list (string * ExtractorModel)) (k : string) (m : ExtractorModel) :
  get l k = None -> set l k m = (l ++ [(k, m)])%list.
Proof.
  induction l as [|[k' m'] rest IH]; simpl; [reflexivity|].
  destruct (String.eqb k k'); [discriminate|]. intros H. now rewrite IH.
Qed.

Lemma set_known_keys (l : list (string * ExtractorModel)) (k : string)
    (old m : ExtractorModel) :
  get l k = Some old -> map fst (set l k m) = map fst l.
Proof.
  induction l as [|[k' m'] rest IH]; simpl; [discriminate|].
  destruct (String.eqb k k'); simpl; [reflexivity|]. intros H. now rewrite IH.
Qed.

Lemma get_set_other (l : list (string * ExtractorModel)) (k k' : string)
    (m : ExtractorModel) :
  k' <> k -> get (set l k m) k' = get l k'.
Proof.
  intros Hne. assert (Hb : String.eqb k' k = false) by now apply String.eqb_neq.
  induction l as [|[k0 m0] rest IH]; simpl.
  - now rewrite Hb.
  - destruct (String.eqb k k0) eqn:E; simpl.
    + apply String.eqb_eq in E. subst k0. now rewrite Hb.
    + now rewrite IH.
Qed.

Lemma get_remove_other (l : list (string * ExtractorModel)) (k k' : string) :
  k' <> k -> get (remove l k) k' = get l k'.
Proof.
  intros Hne. induction l as [|[k0 m0] rest IH]; simpl; [reflexivity|].
  destruct (String.eqb k k0) eqn:E; simpl.
  - apply String.eqb_eq in E. subst k0.
    apply String.eqb_neq in Hne. now rewrite Hne.
  - now rewrite IH.
Qed.

Lemma remove_keys_subset (l : list (string * ExtractorModel)) (k k' : string) :
  In k' (map fst (remove l k)) -> In k' (map fst l).
Proof.
  induction l as [|[k0 m0] rest IH]; simpl; [tauto|].
  destruct (String.eqb k k0); simpl; tauto.
Qed.

Lemma get_remove_same (l : list (string * ExtractorModel)) (k : string) :
  List.NoDup (map fst l) -> get (remove l k) k = None.
Proof.
  induction l as [|[k0 m0] rest IH]; simpl; [reflexivity|].
  intros Hnd. inversion Hnd as [|x xs Hnotin Hrest]; subst.
  destruct (String.eqb k k0) eqn:E; simpl.
  - apply String.eqb_eq in E. subst k0. now apply get_None_keys.
  - rewrite E. auto.
Qed.

Lemma remove_NoDup (l : list (string * ExtractorModel)) (k : string) :
  List.NoDup (map fst l) -> List.NoDup (map fst (remove l k)).
Proof.
  induction l as [|[k0 m0] rest IH]; simpl; [constructor|].
  intros Hnd. inversion Hnd as [|x xs Hnotin Hrest]; subst.
  destruct (String.eqb k k0); simpl; [assumption|].
  constructor; [|auto]. intros H. apply Hnotin. eapply remove_keys_subset. exact H.
Qed.

Lemma set_NoDup (l : list (string * ExtractorModel)) (k : string) (m : ExtractorModel) :
  List.NoDup (map fst l) -> List.NoDup (map fst (set l k m)).
Proof.
  intros Hnd. destruct (get l k) as [old|] eqn:E.
  - now rewrite (set_known_keys l k old m E).
  - rewrite (set_fresh l k m E), List.map_app. simpl.
    apply List.NoDup_app; [assumption | |].
    + constructor; [simpl; tauto | constructor].
    + intros x Hx [<-|[]]. now apply get_None_keys in E.
Qed.

Lemma remove_appended (l : list (string * ExtractorModel)) (k : string) (m : ExtractorModel) :
  get l k = None -> remove (l ++ [(k, m)]) k = l.
Proof.
  induction l as [|[k0 m0] rest IH]; simpl.
  - now rewrite String.eqb_refl.
  - destruct (String.eqb k k0); [discriminate|]. intros H. now rewrite IH.
Qed.

(** What a successful [use] installed: nothing, when it handed back the
    registered model, and else the returned model under the name. *)
Lemma use_Ok (r r' : Extractors) (name : string) (x : ExtractorArg) (force : bool)
    (m : ExtractorModel) :
  use r name x force = Ok (m, r') ->
  (force = false /\ get (entries r) name = Some m /\ r' = r)
  \/ ((force = true \/ get (entries r) name = None)
      /\ entries r' = set (entries r) name m).
Proof.
  unfold use. destruct (truthy_string (Some name)); simpl; [|discriminate].
  destruct (get (entries r) name) as [existing|] eqn:Hg, force;
    try (intros [= <- <-]; left; auto; fail);
    destruct x as [m0| |[v|] [g|]]; try discriminate;
    intros [= <- <-]; right; simpl; auto.
Qed.

(** X1.  Registering an extractor under a name that is not registered
    yet puts it last in the registration order, behind every extractor
    registered before, whatever [force] is. *)
Theorem use_new_name_goes_last
    (r r' : Extractors) (name : string) (x : ExtractorArg) (force : bool)
    (m : ExtractorModel) :
  get (entries r) name = None ->
  use r name x force = Ok (m, r') ->
  entries r' = (entries r ++ [(name, m)])%list.
Proof.
  intros Hnew Huse. apply use_Ok in Huse.
  destruct Huse as [(_ & Hget & _) | (_ & Hset)]; [congruence|].
  rewrite Hset. now apply set_fresh.
Qed.

Lemma use_new_name_goes_last_witness :
  map fst (entries Demo.vimeo_registered) = ["Vimeo"]
  /\ exists r',
       use Demo.vimeo_registered "Facebook" (ArgModel Demo.yielding) false
       = Ok (Demo.yielding, r')
       /\ entries r' = (entries Demo.vimeo_registered ++ [("Facebook", Demo.yielding)])%list.
Proof.
  split; [reflexivity|]. eexists. split; [reflexivity|].
  apply (use_new_name_goes_last Demo.vimeo_registered _ "Facebook"
           (ArgModel Demo.yielding) false Demo.yielding); reflexivity.
Defined.

(** X2.  Registering under a registered name with [force] set replaces
    the model where it stands: the registration order of the names is
    unchanged and the name now yields the new model. *)
Theorem use_force_replaces_in_place
    (r r' : Extractors) (name : string) (x : ExtractorArg)
    (old m : ExtractorModel) :
  get (entries r) name = Some old ->
  use r name x true = Ok (m, r') ->
  map fst (entries r') = map fst (entries r)
  /\ get (entries r') name = Some m.
Proof.
  intros Hold Huse. apply use_Ok in Huse.
  destruct Huse as [(Hf & _) | (_ & Hset)]; [discriminate|].
  rewrite Hset. split; [now apply (set_known_keys _ _ old) | apply get_set_same].
Qed.

Lemma use_force_replaces_in_place_witness :
  exists r',
    use Demo.vimeo_registered "Vimeo" (ArgModel Demo.yielding) true
    = Ok (Demo.yielding, r')
    /\ map fst (entries r') = ["Vimeo"]
    /\ get (entries r') "Vimeo" = Some Demo.yielding.
Proof.
  eexists. split; [reflexivity|].
  apply (use_force_replaces_in_place Demo.vimeo_registered _ "Vimeo"
           (ArgModel Demo.yielding)
           (new_ExtractorModel 0 "Vimeo" (fun _ => true) (fun _ => Resolved None))
           Demo.yielding); reflexivity.
Defined.

(** X3.  [use] and [unuse] leave every other name alone: whatever a call
    for one name does, a lookup of a different name gives what it gave
    before. *)
Theorem other_names_untouched
    (r r' : Extractors) (name other : string) (m : ExtractorModel) :
  other <> name ->
  (forall x force, use r name x force = Ok (m, r') ->
                   get (entries r') other = get (entries r) other)
  /\ (unuse r name = Ok (m, r') ->
      get (entries r') other = get (entries r) other).
Proof.
  intros Hne. split.
  - intros x force Huse. apply use_Ok in Huse.
    destruct Huse as [(_ & _ & ->) | (_ & Hset)]; [reflexivity|].
    rewrite Hset. now apply get_set_other.
  - unfold unuse. destruct (get (entries r) name); [|discriminate].
    intros [= <- <-]. simpl. now apply get_remove_other.
Qed.

Lemma other_names_untouched_witness :
  exists m r',
    unuse Demo.vimeo_registered "Vimeo" = Ok (m, r')
    /\ get (entries r') "Facebook" = get (entries Demo.vimeo_registered) "Facebook".
Proof.
  eexists _, _. split; [reflexivity|].
  refine (proj2 (other_names_untouched Demo.vimeo_registered _ "Vimeo" "Facebook" _ _) _);
    [discriminate | reflexivity].
Defined.

Lemma reachable_NoDup (r : Extractors) :
  reachable r -> List.NoDup (map fst (entries r)).
Proof.
  induction 1 as [| r name x force m r' Hr IH Huse | r name m r' Hr IH Hun].
  - constructor.
  - apply use_Ok in Huse. destruct Huse as [(_ & _ & ->) | (_ & Hset)]; [assumption|].
    rewrite Hset. now apply set_NoDup.
  - unfold unuse in Hun. destruct (get (entries r) name); [|discriminate].
    injection Hun as <- <-. simpl. now apply remove_NoDup.
Qed.

(** X4.  In every registry built by [use] and [unuse] each name occurs
    once, and no name is the empty string. *)
Theorem registry_names_unique (r : Extractors) :
  reachable r ->
  List.NoDup (map fst (entries r)) /\ ~ In "" (map fst (entries r)).
Proof.
  intros Hr. split; [now apply reachable_NoDup|].
  pose proof (reachable_names r Hr) as Hall. rewrite List.Forall_forall in Hall.
  intros Hin. apply List.in_map_iff in Hin. destruct Hin as (e & He & Hin).
  exact (Hall e Hin He).
Qed.

Lemma registry_names_unique_witness :
  List.NoDup (map fst (entries Demo.vimeo_registered))
  /\ ~ In "" (map fst (entries Demo.vimeo_registered)).
Proof.
  apply registry_names_unique.
  apply (reach_use empty "Vimeo" Demo.vimeo_raw false
           (new_ExtractorModel 0 "Vimeo" (fun _ => true) (fun _ => Resolved None))
           Demo.vimeo_registered reach_empty).
  reflexivity.
Defined.

(** X5.  [unuse] returns the model registered under the name and takes
    the name out: afterwards the name is not registered, a second
    [unuse] of it throws, and a later [use] registers it anew at the end
    of the order. *)
Theorem unuse_takes_the_name_out
    (r r' : Extractors) (name : string) (m : ExtractorModel) :
  reachable r ->
  unuse r name = Ok (m, r') ->
  get (entries r) name = Some m
  /\ get (entries r') name = None
  /\ (exists message, unuse r' name = Throw (Error message))
  /\ (forall x force m2 r2,
        use r' name x force = Ok (m2, r2) ->
        entries r2 = (entries r' ++ [(name, m2)])%list).
Proof.
  intros Hr Hun. unfold unuse in Hun.
  destruct (get (entries r) name) as [prev|] eqn:Hg; [|discriminate].
  injection Hun as <- <-. simpl.
  assert (Hgone : get (remove (entries r) name) name = None)
    by (apply get_remove_same; now apply reachable_NoDup).
  split; [reflexivity|]. split; [exact Hgone|]. split.
  - unfold unuse. simpl. rewrite Hgone. eexists. reflexivity.
  - intros x force m2 r2 Huse. apply use_Ok in Huse. simpl in Huse.
    destruct Huse as [(_ & Hget & _) | (_ & Hset)]; [congruence|].
    rewrite Hset. now apply set_fresh.
Qed.

Lemma unuse_takes_the_name_out_witness :
  exists m r', unuse Demo.vimeo_registered "Vimeo" = Ok (m, r')
               /\ get (entries r') "Vimeo" = None.
Proof.
  eexists _, _. split; [reflexivity|].
  refine (proj1 (proj2 (unuse_takes_the_name_out Demo.vimeo_registered _ "Vimeo" _ _ _))).
  - apply (reach_use empty "Vimeo" Demo.vimeo_raw false
             (new_ExtractorModel 0 "Vimeo" (fun _ => true) (fun _ => Resolved None))
             Demo.vimeo_registered reach_empty).
    reflexivity.
  - reflexivity.
Defined.

(** X6.  Registering a new name and removing it again gives back the
    registered model and the registration list as it was before. *)
Theorem use_then_unuse
    (r r1 : Extractors) (name : string) (x : ExtractorArg) (force : bool)
    (m : ExtractorModel) :
  get (entries r) name = None ->
  use r name x force = Ok (m, r1) ->
  exists r2, unuse r1 name = Ok (m, r2) /\ entries r2 = entries r.
Proof.
  intros Hnew Huse. apply use_Ok in Huse.
  destruct Huse as [(_ & Hget & _) | (_ & Hset)]; [congruence|].
  rewrite (set_fresh _ _ m Hnew) in Hset.
  assert (Hget : get (entries r ++ [(name, m)]) name = Some m).
  { rewrite <- (set_fresh _ _ m Hnew). apply get_set_same. }
  unfold unuse. rewrite Hset, Hget. eexists. split; [reflexivity|]. simpl.
  now apply remove_appended.
Qed.

Lemma use_then_unuse_witness :
  exists r1 r2,
    use Demo.vimeo_registered "Facebook" (ArgModel Demo.yielding) false
    = Ok (Demo.yielding, r1)
    /\ unuse r1 "Facebook" = Ok (Demo.yielding, r2)
    /\ entries r2 = entries Demo.vimeo_registered.
Proof.
  eexists. 
  destruct (use_then_unuse Demo.vimeo_registered _ "Facebook" (ArgModel Demo.yielding)
              false Demo.yielding eq_refl eq_refl) as (r2 & H1 & H2).
  exists r2. split; [reflexivity|]. split; assumption.
Defined.

End RegistryOrder.

(** ** Construction *)

Section StartupFacts.
Import Registry Sessions Startup.

Lemma use_usable (r : Extractors) (name : string) (x : ExtractorArg) :
  name <> "" -> usable x = true -> get (entries r) name = None ->
  exists m r', use r name x false = Ok (m, r')
               /\ entries r' = (entries r ++ [(name, m)])%list.
Proof.
  intros Hname Hx Hnew. unfold use.
  apply truthy_string_Some in Hname. rewrite Hname, Hnew. simpl.
  destruct x as [m0| |[v|] [g|]]; try discriminate;
    eexists _, _; (split; [reflexivity|]); simpl; now apply set_fresh.
Qed.

Lemma use_unusable (r : Extractors) (name : string) (x : ExtractorArg) :
  usable x = false -> get (entries r) name = None ->
  exists e, use r name x false = Throw e.
Proof.
  intros Hx Hnew. unfold use. rewrite Hnew.
  destruct (negb (truthy_string (Some name))); [eexists; reflexivity|].
  destruct x as [m0| |[v|] [g|]]; try discriminate; eexists; reflexivity.
Qed.

Lemma get_app_None (l : list (string * ExtractorModel)) (k k' : string) (m : ExtractorModel) :
  k' <> k -> get l k' = None -> get (l ++ [(k, m)]) k' = None.
Proof.
  intros Hne. apply String.eqb_neq in Hne.
  induction l as [|[k0 m0] rest IH]; simpl.
  - now rewrite Hne.
  - destruct (String.eqb k' k0); [discriminate | exact IH].
Qed.

(** The loop over distinct, unregistered, non-empty names: it succeeds
    exactly when every export is usable, and then appends the names in
    their order. *)
Lemma register_all_spec (names : list string) (nv : string -> ExtractorArg) :
  List.NoDup names -> Forall (fun n => n <> "") names ->
  forall r, (forall n, In n names -> get (entries r) n = None) ->
    (Forall (fun n => usable (nv n) = true) names ->
     exists r', register_all names nv r = Ok r'
                /\ map fst (entries r') = (map fst (entries r) ++ names)%list)
    /\ (forall r', register_all names nv r = Ok r' ->
                   Forall (fun n => usable (nv n) = true) names).
Proof.
  intros Hnd Hne. induction names as [|n rest IH]; intros r Hfree.
  - split; [|constructor]. intros _. exists r. split; [reflexivity|].
    now rewrite app_nil_r.
  - inversion Hnd as [|x xs Hnotin Hnd']; subst.
    inversion Hne as [|x xs Hn Hne']; subst.
    assert (Hfree_n : get (entries r) n = None) by (apply Hfree; now left).
    destruct (usable (nv n)) eqn:Hu.
    + destruct (use_usable r n (nv n) Hn Hu Hfree_n) as (m & r1 & Huse & Hent).
      assert (Hfree1 : forall n', In n' rest -> get (entries r1) n' = None).
      { intros n' Hin. rewrite Hent. apply get_app_None.
        - intros ->. contradiction.
        - apply Hfree. now right. }
      destruct (IH Hnd' Hne' r1 Hfree1) as [Hok Hinv].
      cbn [register_all]. rewrite Huse. split.
      * intros Hall. inversion Hall as [|x xs _ Hall']; subst.
        destruct (Hok Hall') as (r' & Hr' & Hkeys). exists r'. split; [exact Hr'|].
        rewrite Hkeys, Hent, List.map_app, <- app_assoc. reflexivity.
      * intros r' Hr'. constructor; [exact Hu | now apply (Hinv r')].
    + destruct (use_unusable r n (nv n) Hu Hfree_n) as (e & Huse).
      cbn [register_all]. rewrite Huse. split.
      * intros Hall. inversion Hall as [|x xs Hx _]; subst. congruence.
      * intros r' Hr'. discriminate.
Qed.

Lemma auto_registered_names :
  List.NoDup auto_registered /\ Forall (fun n => n <> "") auto_registered.
Proof.
  split.
  - repeat constructor; simpl; intros H;
      repeat (destruct H as [H|H]; [discriminate|]); exact H.
  - repeat constructor; discriminate.
Qed.

(** X7.  With auto-registration on and the extractor package present,
    the constructor succeeds exactly when each of the four exports
    Attachment, Facebook, Reverbnation and Vimeo is an extractor [use]
    accepts; the registry then holds exactly these four names, in this
    order, and no session is open.  One unusable or missing export makes
    the constructor throw. *)
Theorem constructor_registers_the_package
    (options : option InitArg) (nv : string -> ExtractorArg) :
  let opts := assign default_options
                (match options with Some o => o | None => no_options end) in
  truthy_bool (autoRegisterExtractor opts) = true ->
  (Forall (fun n => usable (nv n) = true) auto_registered ->
   exists r, Player_constructor options (Some nv) = Ok (new_Player opts, r)
             /\ map fst (entries r) = auto_registered)
  /\ (forall p r, Player_constructor options (Some nv) = Ok (p, r) ->
                  Forall (fun n => usable (nv n) = true) auto_registered
                  /\ queues p = ∅)
  /\ (~ Forall (fun n => usable (nv n) = true) auto_registered ->
      exists e, Player_constructor options (Some nv) = Throw e).
Proof.
  intros opts Hauto.
  destruct auto_registered_names as [Hnd Hne].
  destruct (register_all_spec auto_registered nv Hnd Hne empty (fun n _ => eq_refl))
    as [Hok Hinv].
  unfold Player_constructor. fold opts. rewrite Hauto.
  split; [|split].
  - intros Hall. destruct (Hok Hall) as (r & Hr & Hkeys).
    exists r. rewrite Hr. split; [reflexivity | exact Hkeys].
  - intros p r H. destruct (register_all auto_registered nv empty) as [r0|e] eqn:E;
      [|discriminate].
    injection H as <- <-. split; [now apply (Hinv r0) | reflexivity].
  - intros Hnot. destruct (register_all auto_registered nv empty) as [r0|e] eqn:E.
    + exfalso. apply Hnot. now apply (Hinv r0).
    + eexists. reflexivity.
Qed.

Lemma constructor_registers_the_package_witness :
  exists r,
    Player_constructor None (Some (fun _ => Demo.vimeo_raw))
    = Ok (new_Player default_options, r)
    /\ map fst (entries r) = ["Attachment"; "Facebook"; "Reverbnation"; "Vimeo"].
Proof.
  refine (proj1 (constructor_registers_the_package None (fun _ => Demo.vimeo_raw) _) _).
  - reflexivity.
  - repeat constructor.
Defined.

(** Without the package, or with auto-registration switched off, the
    registry starts empty. *)
Lemma constructor_without_package (options : option InitArg)
    (package : option (string -> ExtractorArg)) :
  let opts := assign default_options
                (match options with Some o => o | None => no_options end) in
  package = None \/ truthy_bool (autoRegisterExtractor opts) = false ->
  Player_constructor options package = Ok (new_Player opts, empty).
Proof.
  intros opts [-> | Hoff]; unfold Player_constructor; fold opts.
  - now destruct (truthy_bool _).
  - now rewrite Hoff.
Qed.

End StartupFacts.

(** ** The session registry: round trips, frame, invariants *)

Section SessionOrder.
Import Sessions Invariants.

Lemma with_queues_same (p : Player) (f : gmap string nat -> gmap string nat) :
  f (queues p) = queues p -> with_queues f p = p.
Proof. destruct p. unfold with_queues. simpl. now intros ->. Qed.

Lemma queues_Queue_destroy (qr : QueueRef) (p : Player) (g : string) (qr' : QueueRef) :
  queues (fst (Queue_destroy qr p)) !! g = Some qr' -> queues p !! g = Some qr'.
Proof.
  destruct (Queue_destroy_cases qr p) as [(q & _ & _ & _ & ->) | (err & -> & _)];
    simpl; [|auto].
  intros H. apply lookup_delete_Some in H. tauto.
Qed.

Lemma counters_Queue_destroy (qr : QueueRef) (p : Player) :
  next_queue (fst (Queue_destroy qr p)) = next_queue p.
Proof.
  now destruct (Queue_destroy_cases qr p) as [(q & _ & _ & _ & ->) | (err & -> & _)].
Qed.

(** X8.  A session opened for a guild is what [getQueue] returns for the
    guild; [deleteQueue] hands that same session back and afterwards
    [getQueue] finds none. *)
Theorem open_get_close
    (c : Client) (p : Player) (guild : string) (g : Guild) (o : PlayerOptions) :
  guilds_resolve c guild = Some g ->
  queues p !! guild_id g = None ->
  exists qr p1 o1 p2,
    createQueue c p guild (Some o) = Ok (qr, p1, o1)
    /\ getQueue c p1 guild = Ok (Some qr)
    /\ deleteQueue c p1 guild = Ok (Some qr, p2)
    /\ getQueue c p2 guild = Ok None.
Proof.
  intros Hg Hq. unfold createQueue, getQueue, deleteQueue. rewrite Hg, Hq.
  eexists _, _, _, _. split; [reflexivity|]. simpl.
  rewrite lookup_insert_eq. split; [reflexivity|]. split; [reflexivity|].
  simpl. now rewrite lookup_delete_eq.
Qed.

Lemma open_get_close_witness :
  exists qr p1 o1 p2,
    createQueue Demo.client Demo.a_player "g1" (Some (Demo.leave_when_empty 0))
    = Ok (qr, p1, o1)
    /\ getQueue Demo.client p1 "g1" = Ok (Some qr)
    /\ deleteQueue Demo.client p1 "g1" = Ok (Some qr, p2)
    /\ getQueue Demo.client p2 "g1" = Ok None.
Proof.
  apply (open_get_close Demo.client Demo.a_player "g1" {| guild_id := "g1" |});
    reflexivity.
Defined.

(** X9.  [deleteQueue] for a guild that has no session does not throw:
    the failing teardown call is swallowed, nothing is returned and the
    player is left as it was. *)
Theorem deleteQueue_without_session
    (c : Client) (p : Player) (guild : string) (g : Guild) :
  guilds_resolve c guild = Some g ->
  queues p !! guild_id g = None ->
  deleteQueue c p guild = Ok (None, p).
Proof.
  intros Hg Hq. unfold deleteQueue. rewrite Hg, Hq.
  rewrite with_queues_same; [reflexivity|]. now apply delete_id.
Qed.

Lemma deleteQueue_without_session_witness :
  deleteQueue Demo.client Demo.a_player "g1" = Ok (None, Demo.a_player).
Proof.
  apply (deleteQueue_without_session Demo.client Demo.a_player "g1"
           {| guild_id := "g1" |}); reflexivity.
Defined.

(** *** The registry is keyed by the guild of each session *)

Lemma keyed_mono (p p' : Player) :
  keyed_by_guild p -> registry_shrinks p p' -> guild_stable p p' ->
  keyed_by_guild p'.
Proof.
  intros Hk Hreg Hst g qr H. apply Hreg in H.
  destruct (Hk g qr H) as (q & Hq & Hg).
  destruct (Hst qr q Hq) as (q' & Hq' & Hsame).
  exists q'. split; [exact Hq'|]. now rewrite Hsame.
Qed.

Lemma guild_stable_insert (p : Player) (qr : QueueRef) (queue q' : Queue)
    (f : Player -> Player) :
  store p !! qr = Some queue ->
  q_guild q' = q_guild queue ->
  store (f p) = store p ->
  guild_stable p (with_store <[qr := q']> (f p)).
Proof.
  intros Hs Hg Hf qr0 q0 H0. simpl. rewrite Hf.
  destruct (decide (qr = qr0)) as [<-|Hne].
  - rewrite lookup_insert_eq. exists q'. split; [reflexivity|]. congruence.
  - rewrite lookup_insert_ne by assumption. eauto.
Qed.

Lemma guild_stable_refl (p : Player) : guild_stable p p.
Proof. intros qr q H. eauto. Qed.

Lemma registry_shrinks_refl (p : Player) : registry_shrinks p p.
Proof. intros g qr H. exact H. Qed.

Lemma Queue_destroy_monotone (qr : QueueRef) (p : Player) :
  registry_shrinks p (fst (Queue_destroy qr p))
  /\ guild_stable p (fst (Queue_destroy qr p)).
Proof.
  split.
  - intros g qr'. apply queues_Queue_destroy.
  - destruct (Queue_destroy_cases qr p) as [(q & E & _ & _ & ->) | (err & -> & _)];
      [|intros qr0 q0 H0; simpl; eauto].
    intros qr0 q0 H0. simpl.
    destruct (decide (qr = qr0)) as [<-|Hne].
    + rewrite lookup_insert_eq. eexists. split; [reflexivity|]. simpl. congruence.
    + rewrite lookup_insert_ne by assumption. eauto.
Qed.

Lemma destroy_then_emit_monotone (ev : PlayerEvent) (qr : QueueRef) (p : Player) :
  let p' := fst (match Queue_destroy qr p with
                 | (p1, Some e) => (p1, Some e)
                 | (p1, None) => (emit ev qr p1, None)
                 end) in
  registry_shrinks p p' /\ guild_stable p p'.
Proof.
  cbv zeta. rewrite destroy_then_emit.
  destruct (snd (Queue_destroy qr p)); apply Queue_destroy_monotone.
Qed.

Lemma handler_monotone (c : Client) (isVoiceEmpty : option Channel -> bool)
    (p : Player) (oldState newState : VoiceState) :
  let p' := fst (_handleVoiceState c isVoiceEmpty p oldState newState) in
  registry_shrinks p p' /\ guild_stable p p'.
Proof.
  assert (Hsame : registry_shrinks p p /\ guild_stable p p)
    by (split; [apply registry_shrinks_refl | apply guild_stable_refl]).
  unfold _handleVoiceState.
  destruct (getQueue c p (vs_guild oldState)) as [[qr|]|e]; try exact Hsame.
  destruct (_ && _); [apply destroy_then_emit_monotone|].
  destruct (store p !! qr) as [queue|] eqn:Hs; [|exact Hsame].
  destruct (negb (truthy_bool _)); [exact Hsame|].
  destruct (q_connection queue) as [conn|]; [|exact Hsame].
  destruct (channel conn) as [ch|]; [|exact Hsame].
  destruct (_ || _).
  - destruct (q_cooldownsTimeout queue !! _) as [t|]; [|exact Hsame].
    destruct (negb _); [|exact Hsame]. simpl. split.
    + intros g qr' H. exact H.
    + apply (guild_stable_insert p qr queue _ (clearTimeout t)); auto.
  - destruct (negb _); [exact Hsame|]. simpl. split.
    + intros g qr' H. exact H.
    + intros qr0 q0 H0. simpl.
      destruct (decide (qr = qr0)) as [<-|Hne].
      * rewrite lookup_insert_eq. eexists. split; [reflexivity|]. simpl. congruence.
      * rewrite lookup_insert_ne by assumption. eauto.
Qed.

Lemma expiry_monotone (isVoiceEmpty : option Channel -> bool) (p : Player) (t : TimerId) :
  let p' := fst (fireTimeout isVoiceEmpty p t) in
  registry_shrinks p p' /\ guild_stable p p'.
Proof.
  assert (Hsame : forall f, registry_shrinks p (with_timers f p)
                            /\ guild_stable p (with_timers f p)).
  { intros f. split; [intros g qr H; exact H | intros qr q H; eauto]. }
  unfold fireTimeout.
  destruct (timers p !! t) as [[qr d]|];
    [|split; [apply registry_shrinks_refl | apply guild_stable_refl]].
  simpl. destruct (store p !! qr) as [queue|]; [|apply Hsame].
  destruct (q_connection queue) as [conn|]; [|apply Hsame].
  destruct (negb _); [apply Hsame|].
  destruct (negb _); [apply Hsame|].
  apply (destroy_then_emit_monotone channelEmpty qr (with_timers (delete t) p)).
Qed.

Lemma attainable_keyed (c : Client) (p : Player) :
  attainable c p -> keyed_by_guild p.
Proof.
  induction 1 as [init | p guild opts qr p' opts' Hp IH Hc | p guild prev p' Hp IH Hd
                  | p qr ch Hp IH | p occ old new Hp IH | p occ t Hp IH].
  - intros g qr H. simpl in H. rewrite lookup_empty in H. discriminate.
  - pose proof (attainable_well_formed c p Hp) as (_ & _ & Hfresh & _).
    unfold createQueue in Hc.
    destruct (guilds_resolve c guild) as [g|]; [|discriminate].
    destruct (queues p !! guild_id g) as [existing|].
    + injection Hc as <- <- <-. exact IH.
    + destruct opts as [o|]; [|discriminate]. injection Hc as <- <- <-.
      intros g' qr' H. simpl in *.
      destruct (decide (guild_id g = g')) as [<-|Hne].
      * rewrite lookup_insert_eq in H. injection H as <-.
        rewrite lookup_insert_eq. eexists. split; reflexivity.
      * rewrite lookup_insert_ne in H by assumption.
        destruct (IH g' qr' H) as (q & Hq & Hg).
        exists q. split; [|exact Hg].
        rewrite lookup_insert_ne; [exact Hq|].
        intros <-. pose proof (Hfresh (next_queue p) (ex_intro _ q Hq)). lia.
  - unfold deleteQueue in Hd.
    destruct (guilds_resolve c guild) as [g|]; [|discriminate].
    injection Hd as <- <-.
    apply (keyed_mono p); [exact IH | |].
    + intros g' qr' H. simpl in H. apply lookup_delete_Some in H. destruct H as [_ H].
      destruct (queues p !! guild_id g); [now apply queues_Queue_destroy in H | exact H].
    + intros qr0 q0 H0. simpl.
      destruct (queues p !! guild_id g) as [qr1|];
        [exact (proj2 (Queue_destroy_monotone qr1 p) qr0 q0 H0) | eauto].
  - apply (keyed_mono p); [exact IH | intros g qr' H; exact H |].
    intros qr0 q0 H0. simpl. rewrite lookup_alter. case_decide; subst.
    + rewrite H0. simpl. eexists. split; reflexivity.
    + eauto.
  - apply (keyed_mono p); [exact IH | apply handler_monotone | apply handler_monotone].
  - apply (keyed_mono p); [exact IH | apply expiry_monotone | apply expiry_monotone].
Qed.

(** X10.  In every state the player gets into, each registry entry
    names an existing Queue object whose guild is the guild the entry is
    filed under; so one Queue object is never registered for two
    guilds. *)
Theorem registry_keyed_by_guild (c : Client) (p : Player) :
  attainable c p ->
  keyed_by_guild p
  /\ (forall g1 g2 qr,
        queues p !! g1 = Some qr -> queues p !! g2 = Some qr -> g1 = g2).
Proof.
  intros Hp. pose proof (attainable_keyed c p Hp) as Hk. split; [exact Hk|].
  intros g1 g2 qr H1 H2.
  destruct (Hk g1 qr H1) as (q1 & Hq1 & <-).
  destruct (Hk g2 qr H2) as (q2 & Hq2 & <-). congruence.
Qed.

Lemma registry_keyed_by_guild_witness :
  exists q, store Demo.reopened !! 1 = Some q /\ guild_id (q_guild q) = "g1".
Proof.
  refine (proj1 (registry_keyed_by_guild Demo.client Demo.reopened _) "g1" 1 _).
  - apply attainable_reopened.
  - reflexivity.
Defined.

(** X11.  Opening a session for one guild leaves everything else as it
    is: the sessions registered for other guilds, every Queue object
    that existed, the pending timers and what was emitted. *)
Theorem createQueue_frame
    (c : Client) (p p' : Player) (guild : string) (g : Guild)
    (opts opts' : option PlayerOptions) (qr : QueueRef) :
  well_formed p ->
  guilds_resolve c guild = Some g ->
  createQueue c p guild opts = Ok (qr, p', opts') ->
  (forall g', g' <> guild_id g -> queues p' !! g' = queues p !! g')
  /\ (forall qr' q, store p !! qr' = Some q -> store p' !! qr' = Some q)
  /\ timers p' = timers p
  /\ log p' = log p.
Proof.
  intros (_ & _ & Hfresh & _) Hg. unfold createQueue. rewrite Hg.
  destruct (queues p !! guild_id g) as [existing|].
  - intros [= <- <- <-]. auto.
  - destruct opts as [o|]; [|discriminate]. intros [= <- <- <-]. simpl.
    split; [|split; [|split; reflexivity]].
    + intros g' Hne. now rewrite lookup_insert_ne.
    + intros qr' q Hq. rewrite lookup_insert_ne; [exact Hq|].
      intros <-. pose proof (Hfresh (next_queue p) (ex_intro _ q Hq)). lia.
Qed.

Lemma attainable_closed : attainable Demo.client Demo.closed.
Proof.
  apply (attain_delete Demo.client Demo.alone "g1" (Some 0) Demo.closed).
  - apply attainable_alone.
  - reflexivity.
Qed.

Lemma createQueue_frame_witness :
  timers Demo.reopened = timers Demo.closed /\ log Demo.reopened = log Demo.closed.
Proof.
  refine (proj2 (proj2
    (createQueue_frame Demo.client Demo.closed Demo.reopened "g1" {| guild_id := "g1" |}
       (Some (Demo.leave_when_empty 60000))
       (Some {| leaveOnEmpty := Some true; leaveOnEmptyCooldown := Some 60000%Z;
                ytdlOptions := Some "{}"; metadata := None |})
       1 _ eq_refl eq_refl))).
  apply (attainable_well_formed Demo.client). apply attainable_closed.
Defined.

(** X12.  Closing a guild's session and opening one again gives a new
    Queue object, not the closed one: it has another identity, no
    connection and an empty cooldown map, and it is the one registered
    for the guild. *)
Theorem reopening_gives_a_new_object
    (c : Client) (p : Player) (guild : string) (g : Guild) (qr : QueueRef)
    (o : PlayerOptions) :
  well_formed p ->
  guilds_resolve c guild = Some g ->
  queues p !! guild_id g = Some qr ->
  exists p1 qr' p2 o',
    deleteQueue c p guild = Ok (Some qr, p1)
    /\ createQueue c p1 guild (Some o) = Ok (qr', p2, Some o')
    /\ qr' <> qr
    /\ queues p2 !! guild_id g = Some qr'
    /\ store p2 !! qr' = Some (new_Queue g o' (metadata o)).
Proof.
  intros (Hreg & _ & Hfresh & _) Hg Hq.
  assert (Hlt : qr < next_queue p) by (apply Hfresh, (Hreg _ _ Hq)).
  set (p1 := with_queues (delete (guild_id g)) (fst (Queue_destroy qr p))).
  assert (Hd : deleteQueue c p guild = Ok (Some qr, p1))
    by (unfold deleteQueue; now rewrite Hg, Hq).
  assert (Hq1 : queues p1 !! guild_id g = None) by (simpl; apply lookup_delete_eq).
  assert (Hn : next_queue p1 = next_queue p) by (simpl; apply counters_Queue_destroy).
  exists p1. unfold createQueue. rewrite Hg, Hq1.
  eexists _, _, _. split; [exact Hd|]. split; [reflexivity|]. rewrite Hn.
  split; [lia|]. simpl. split; apply lookup_insert_eq.
Qed.

Lemma reopening_gives_a_new_object_witness :
  exists p1 qr' p2 o',
    deleteQueue Demo.client Demo.alone "g1" = Ok (Some 0, p1)
    /\ createQueue Demo.client p1 "g1" (Some (Demo.leave_when_empty 5)) = Ok (qr', p2, Some o')
    /\ qr' <> 0
    /\ queues p2 !! "g1" = Some qr'
    /\ store p2 !! qr' = Some (new_Queue {| guild_id := "g1" |} o' None).
Proof.
  apply (reopening_gives_a_new_object Demo.client Demo.alone "g1" {| guild_id := "g1" |} 0
           (Demo.leave_when_empty 5)).
  - apply (attainable_well_formed Demo.client). apply attainable_alone.
  - reflexivity.
  - reflexivity.
Defined.

(** X13.  Opening a new session changes the caller's options object:
    the metadata moves from it to the queue, and a missing [ytdlOptions]
    is filled in from the player's own options while a given one is
    kept; the Queue constructor is handed the options as they are after
    these changes, and the new queue is given the metadata that was
    taken out. *)
Theorem createQueue_moves_metadata
    (c : Client) (p p' : Player) (guild : string) (g : Guild)
    (o o' : PlayerOptions) (qr : QueueRef) :
  guilds_resolve c guild = Some g ->
  queues p !! guild_id g = None ->
  createQueue c p guild (Some o) = Ok (qr, p', Some o') ->
  metadata o' = None
  /\ ytdlOptions o' = nullish_opt (ytdlOptions o) (init_ytdlOptions (options p))
  /\ (forall given, ytdlOptions o = Some given -> ytdlOptions o' = Some given)
  /\ leaveOnEmpty o' = leaveOnEmpty o
  /\ leaveOnEmptyCooldown o' = leaveOnEmptyCooldown o
  /\ store p' !! qr = Some (new_Queue g o' (metadata o)).
Proof.
  intros Hg Hq. unfold createQueue. rewrite Hg, Hq. intros [= <- <- <-]. simpl.
  repeat (split; [reflexivity|]).
  split; [intros given ->; reflexivity|].
  repeat (split; [reflexivity|]).
  apply lookup_insert_eq.
Qed.

Lemma createQueue_moves_metadata_witness :
  exists o',
    createQueue Demo.client Demo.a_player "g1"
      (Some {| leaveOnEmpty := None; leaveOnEmptyCooldown := None;
               ytdlOptions := None; metadata := Some "text channel" |})
    = Ok (0, Demo.with_metadata, Some o')
    /\ metadata o' = None
    /\ ytdlOptions o' = Some "{}"
    /\ store Demo.with_metadata !! 0
       = Some (new_Queue {| guild_id := "g1" |} o' (Some "text channel")).
Proof.
  destruct (createQueue_moves_metadata Demo.client Demo.a_player Demo.with_metadata
              "g1" {| guild_id := "g1" |}
              {| leaveOnEmpty := None; leaveOnEmptyCooldown := None;
                 ytdlOptions := None; metadata := Some "text channel" |}
              {| leaveOnEmpty := None; leaveOnEmptyCooldown := None;
                 ytdlOptions := Some "{}"; metadata := None |}
              0 eq_refl eq_refl eq_refl)
    as (Hm & Hy & _ & _ & _ & Hs).
  eexists. split; [reflexivity|]. auto.
Defined.

End SessionOrder.

(** ** The voice-state handler: what events change *)

Section ReactorOrder.
Import Sessions Invariants.

Lemma same_but_cooldowns_refl (q : Queue) : same_but_cooldowns q q.
Proof. repeat split. Qed.

(** X14.  An event that is not the bot losing its channel emits nothing
    and destroys nothing: the log, the registry and the set of Queue
    objects stay as they are, and the only thing that can differ
    afterwards is the cooldown map of the session of the event's guild. *)
Theorem bystander_event_touches_one_cooldown_map
    (c : Client) (isVoiceEmpty : option Channel -> bool) (p : Player)
    (oldState newState : VoiceState) :
  forced_disconnect c oldState newState = false ->
  let p' := fst (_handleVoiceState c isVoiceEmpty p oldState newState) in
  log p' = log p
  /\ queues p' = queues p
  /\ next_queue p' = next_queue p
  /\ (forall qr q, store p !! qr = Some q ->
        exists q', store p' !! qr = Some q'
                   /\ same_but_cooldowns q q'
                   /\ (getQueue c p (vs_guild oldState) <> Ok (Some qr) -> q' = q))
  /\ (forall qr, store p !! qr = None -> store p' !! qr = None).
Proof.
  intros Hnot.
  assert (Hsame : log p = log p /\ queues p = queues p /\ next_queue p = next_queue p
                  /\ (forall qr q, store p !! qr = Some q ->
                        exists q', store p !! qr = Some q'
                                   /\ same_but_cooldowns q q'
                                   /\ (getQueue c p (vs_guild oldState) <> Ok (Some qr)
                                       -> q' = q))
                  /\ (forall qr, store p !! qr = None -> store p !! qr = None)).
  { repeat (split; [reflexivity|]). split; [|auto].
    intros qr q H. exists q. split; [exact H|].
    split; [apply same_but_cooldowns_refl | reflexivity]. }
  unfold forced_disconnect in Hnot. unfold _handleVoiceState.
  destruct (getQueue c p (vs_guild oldState)) as [[qr|]|e] eqn:Hget; try exact Hsame.
  rewrite Hnot. clear Hnot.
  destruct (store p !! qr) as [queue|] eqn:Hs; [|exact Hsame].
  destruct (negb (truthy_bool _)); [exact Hsame|].
  destruct (q_connection queue) as [conn|]; [|exact Hsame].
  destruct (channel conn) as [ch|]; [|exact Hsame].
  assert (Hupd : forall (f : Player -> Player) m,
             store (f p) = store p ->
             (forall qr0 q0, store p !! qr0 = Some q0 ->
                exists q', store (with_store <[qr := set_cooldowns m queue]> (f p)) !! qr0
                           = Some q'
                           /\ same_but_cooldowns q0 q'
                           /\ (Ok (Some qr) <> Ok (Some qr0) -> q' = q0))
             /\ (forall qr0, store p !! qr0 = None ->
                   store (with_store <[qr := set_cooldowns m queue]> (f p)) !! qr0 = None)).
  { intros f m Hf. split.
    - intros qr0 q0 H0. simpl. rewrite Hf.
      destruct (decide (qr = qr0)) as [<-|Hne].
      + rewrite lookup_insert_eq. eexists. split; [reflexivity|].
        assert (q0 = queue) as -> by congruence.
        split; [repeat split | intros H; now contradiction H].
      + rewrite lookup_insert_ne by assumption. exists q0.
        split; [exact H0|]. split; [apply same_but_cooldowns_refl | reflexivity].
    - intros qr0 H0. simpl. rewrite Hf.
      rewrite lookup_insert_ne; [exact H0|]. intros <-. congruence. }
  destruct (_ || _).
  - destruct (q_cooldownsTimeout queue !! _) as [t|]; [|exact Hsame].
    destruct (negb (isVoiceEmpty (Some ch))); [|exact Hsame]. cbn [fst].
    repeat (split; [reflexivity|]). now apply (Hupd (clearTimeout t)).
  - destruct (negb (isVoiceEmpty (Some ch))); [exact Hsame|]. cbn [setTimeout fst].
    repeat (split; [reflexivity|]).
    exact (Hupd (fun p0 => snd (setTimeout qr (cooldown_of queue) p0)) _ eq_refl).
Qed.

Lemma bystander_event_touches_one_cooldown_map_witness :
  log Demo.alone_twice = log Demo.alone /\ queues Demo.alone_twice = queues Demo.alone.
Proof.
  destruct (bystander_event_touches_one_cooldown_map Demo.client Demo.nobody_there
              Demo.alone (fst (Demo.leaves "bob" "lobby")) (snd (Demo.leaves "bob" "lobby"))
              eq_refl) as (H1 & H2 & _).
  split; assumption.
Defined.

(** X15.  For a session that does not leave on empty, or has no
    connection, or whose connection has no channel, an event that is not
    the bot losing its channel changes nothing at all; neither does any
    event of a guild that has no session. *)
Theorem event_without_effect
    (c : Client) (isVoiceEmpty : option Channel -> bool) (p : Player)
    (oldState newState : VoiceState) (g : Guild) :
  guilds_resolve c (vs_guild oldState) = Some g ->
  (queues p !! guild_id g = None
   \/ exists qr queue,
        queues p !! guild_id g = Some qr
        /\ store p !! qr = Some queue
        /\ forced_disconnect c oldState newState = false
        /\ (truthy_bool (leaveOnEmpty (q_options queue)) = false
            \/ q_connection queue = None
            \/ q_connection queue = Some {| channel := None |})) ->
  _handleVoiceState c isVoiceEmpty p oldState newState = (p, None).
Proof.
  intros Hg H. unfold _handleVoiceState, getQueue. rewrite Hg.
  destruct H as [-> | (qr & queue & -> & Hs & Hnot & Hoff)]; [reflexivity|].
  unfold forced_disconnect in Hnot. rewrite Hnot, Hs.
  destruct Hoff as [-> | [-> | ->]]; [reflexivity | |];
    now destruct (negb (truthy_bool _)).
Qed.

Lemma event_without_effect_witness :
  _handleVoiceState Demo.client Demo.nobody_there Demo.opened
    (fst (Demo.leaves "amy" "vc")) (snd (Demo.leaves "amy" "vc"))
  = (Demo.opened, None).
Proof.
  apply (event_without_effect Demo.client Demo.nobody_there Demo.opened _ _
           {| guild_id := "g1" |}); [reflexivity|].
  right. exists 0, (Demo.session_of Demo.opened 0).
  split; [reflexivity|]. split; [reflexivity|]. split; [reflexivity|].
  right. left. reflexivity.
Defined.

(** X16.  When somebody is in the bot's channel at an event that is not
    a departure and the cooldown map names a timer, that timer is
    cleared and the entry dropped; the cleared timer never runs its
    callback afterwards, and every other pending timer stays pending. *)
Theorem reoccupation_cancels_the_timer
    (c : Client) (isVoiceEmpty : option Channel -> bool) (p : Player)
    (oldState newState : VoiceState) (g : Guild) (qr : QueueRef) (queue : Queue)
    (ch : Channel) (t : TimerId) :
  guilds_resolve c (vs_guild oldState) = Some g ->
  queues p !! guild_id g = Some qr ->
  store p !! qr = Some queue ->
  forced_disconnect c oldState newState = false ->
  truthy_bool (leaveOnEmpty (q_options queue)) = true ->
  q_connection queue = Some {| channel := Some ch |} ->
  arrival oldState newState = true ->
  isVoiceEmpty (Some ch) = false ->
  q_cooldownsTimeout queue !! empty_key (vs_guild oldState) = Some t ->
  let p' := fst (_handleVoiceState c isVoiceEmpty p oldState newState) in
  timers p' !! t = None
  /\ (forall t', t' <> t -> timers p' !! t' = timers p !! t')
  /\ (exists queue', store p' !! qr = Some queue'
                     /\ q_cooldownsTimeout queue' !! empty_key (vs_guild oldState) = None)
  /\ (forall occupancy, fireTimeout occupancy p' t = (p', None)).
Proof.
  intros Hg Hq Hs Hnot Hleave Hconn Harr Hocc Hkey p'.
  assert (E : p' = with_store
                     <[qr := set_cooldowns (delete (empty_key (vs_guild oldState))
                                                   (q_cooldownsTimeout queue)) queue]>
                     (clearTimeout t p)).
  { subst p'. unfold _handleVoiceState, getQueue. unfold forced_disconnect in Hnot.
    unfold arrival in Harr.
    rewrite Hg, Hq, Hnot, Hs, Hleave, Hconn. cbn [negb channel].
    rewrite Harr, Hkey, Hocc. reflexivity. }
  assert (Ht : timers p' !! t = None) by (rewrite E; simpl; apply lookup_delete_eq).
  split; [exact Ht|]. split; [|split].
  - intros t' Hne. rewrite E. simpl. now apply lookup_delete_ne.
  - rewrite E. simpl. rewrite lookup_insert_eq. eexists. split; [reflexivity|].
    simpl. apply lookup_delete_eq.
  - intros occupancy. unfold fireTimeout. now rewrite Ht.
Qed.

Lemma reoccupation_cancels_the_timer_witness :
  let back := Demo.after Demo.somebody_there (Demo.joins "amy" "vc") Demo.alone in
  timers Demo.alone !! 0 = Some (0, 60000%Z)
  /\ timers back !! 0 = None
  /\ fireTimeout Demo.nobody_there back 0 = (back, None).
Proof.
  intros back. split; [reflexivity|].
  destruct (reoccupation_cancels_the_timer Demo.client Demo.somebody_there Demo.alone
              (fst (Demo.joins "amy" "vc")) (snd (Demo.joins "amy" "vc"))
              {| guild_id := "g1" |} 0 (Demo.session_of Demo.alone 0) "vc" 0
              eq_refl eq_refl eq_refl eq_refl eq_refl eq_refl eq_refl eq_refl eq_refl)
    as (H1 & _ & _ & H4).
  split; [exact H1 | exact (H4 Demo.nobody_there)].
Defined.

(** X17.  An event starts a timer only while the bot's channel is empty
    and clears one only while it is occupied: with somebody in the
    channel no timer is started, and every timer pending afterwards was
    pending before; with nobody in it every timer that was pending stays
    pending.  No event starts more than one timer. *)
Theorem timers_follow_occupancy
    (c : Client) (isVoiceEmpty : option Channel -> bool) (p : Player)
    (oldState newState : VoiceState) :
  well_formed p ->
  let p' := fst (_handleVoiceState c isVoiceEmpty p oldState newState) in
  ((forall ch, isVoiceEmpty ch = false) ->
   next_timer p' = next_timer p
   /\ forall t entry, timers p' !! t = Some entry -> timers p !! t = Some entry)
  /\ ((forall ch, isVoiceEmpty ch = true) ->
      forall t entry, timers p !! t = Some entry -> timers p' !! t = Some entry)
  /\ next_timer p <= next_timer p' <= S (next_timer p).
Proof.
  intros (_ & _ & _ & Hfresh) p'. subst p'. unfold _handleVoiceState.
  assert (Hsame : ((forall ch, isVoiceEmpty ch = false) ->
                   next_timer p = next_timer p
                   /\ forall t entry, timers p !! t = Some entry -> timers p !! t = Some entry)
                  /\ ((forall ch, isVoiceEmpty ch = true) ->
                      forall t entry, timers p !! t = Some entry -> timers p !! t = Some entry)
                  /\ next_timer p <= next_timer p <= S (next_timer p))
    by (repeat split; auto; lia).
  destruct (getQueue c p (vs_guild oldState)) as [[qr|]|e]; try exact Hsame.
  destruct (_ && _).
  { rewrite destroy_then_emit.
    destruct (snd (Queue_destroy qr p)); cbn [emit record next_timer timers];
      destruct (timers_Queue_destroy qr p) as [-> ->]; exact Hsame. }
  destruct (store p !! qr) as [queue|] eqn:Hs; [|exact Hsame].
  destruct (negb (truthy_bool _)); [exact Hsame|].
  destruct (q_connection queue) as [conn|]; [|exact Hsame].
  destruct (channel conn) as [ch|]; [|exact Hsame].
  destruct (_ || _).
  - destruct (q_cooldownsTimeout queue !! _) as [t|]; [|exact Hsame].
    destruct (isVoiceEmpty (Some ch)) eqn:Hocc; cbn [negb]; [exact Hsame|].
    cbn [fst]. simpl. split; [|split; [|lia]].
    + intros _. split; [reflexivity|]. intros t' entry H.
      apply lookup_delete_Some in H. tauto.
    + intros Hall. rewrite Hall in Hocc. discriminate.
  - destruct (isVoiceEmpty (Some ch)) eqn:Hocc; cbn [negb]; [|exact Hsame].
    cbn [setTimeout fst]. simpl. split; [|split; [|lia]].
    + intros Hall. rewrite Hall in Hocc. discriminate.
    + intros _ t' entry H. rewrite lookup_insert_ne; [exact H|].
      intros <-. pose proof (Hfresh (next_timer p) (ex_intro _ entry H)). lia.
Qed.

Lemma timers_follow_occupancy_witness :
  next_timer (Demo.after Demo.somebody_there (Demo.leaves "bob" "lobby") Demo.alone)
  = next_timer Demo.alone.
Proof.
  refine (proj1 (proj1 (timers_follow_occupancy Demo.client Demo.somebody_there Demo.alone
                          (fst (Demo.leaves "bob" "lobby")) (snd (Demo.leaves "bob" "lobby"))
                          _) _)).
  - apply (attainable_well_formed Demo.client). apply attainable_alone.
  - reflexivity.
Defined.

End ReactorOrder.

(** ** The expiry of an empty-channel timer *)

Section ExpiryFacts.
Import Sessions Invariants.
















End ExpiryFacts.

(** ** The resolution pipeline: what [search] hands back *)

Section PipelineOrder.
Import Registry Resolve Outcomes.

Variable env : Collaborators.

(** *** The three ways out of the extractor loop *)

Lemma try_extractors_hit
    (requestedBy : option User) (q : string) (exts : list (string * ExtractorModel))
    (r : SearchResult) :
  snd (try_extractors env requestedBy q exts) = Ok (Some r) ->
  exists name e d,
    In (name, e) exts /\ em_validate e q = true
    /\ em_handle e q = Resolved (Some d) /\ emd_data d <> []
    /\ r = normalize env requestedBy d.
Proof.
  induction exts as [|[name e] rest IH]; cbn [try_extractors]; [discriminate|].
  assert (Hrest : snd (try_extractors env requestedBy q rest) = Ok (Some r) ->
                  exists name0 e0 d,
                    In (name0, e0) ((name, e) :: rest) /\ em_validate e0 q = true
                    /\ em_handle e0 q = Resolved (Some d) /\ emd_data d <> []
                    /\ r = normalize env requestedBy d).
  { intros H. destruct (IH H) as (n & e' & d & Hin & Hrem).
    exists n, e', d. split; [now right | exact Hrem]. }
  destruct (em_validate e q) eqn:Hv; cbn [negb]; [|exact Hrest].
  destruct (em_handle e q) as [[d|]|reason] eqn:Hh.
  - rewrite await_Resolved. cbn [snd].
    destruct (has_results (Some d)) eqn:Hr; [|exact Hrest].
    intros [= <-]. exists name, e, d.
    split; [now left|]. split; [exact Hv|]. split; [exact Hh|].
    split; [now apply has_results_nonempty | reflexivity].
  - rewrite await_Resolved. cbn [snd]. exact Hrest.
  - rewrite await_Rejected. discriminate.
Qed.

Lemma try_extractors_Throw
    (requestedBy : option User) (q : string) (exts : list (string * ExtractorModel))
    (err : JsError) :
  snd (try_extractors env requestedBy q exts) = Throw err ->
  exists name e reason,
    In (name, e) exts /\ em_validate e q = true
    /\ em_handle e q = Rejected reason /\ err = Rejection reason.
Proof.
  induction exts as [|[name e] rest IH]; cbn [try_extractors]; [discriminate|].
  assert (Hrest : snd (try_extractors env requestedBy q rest) = Throw err ->
                  exists name0 e0 reason,
                    In (name0, e0) ((name, e) :: rest) /\ em_validate e0 q = true
                    /\ em_handle e0 q = Rejected reason /\ err = Rejection reason).
  { intros H. destruct (IH H) as (n & e' & reason & Hin & Hrem).
    exists n, e', reason. split; [now right | exact Hrem]. }
  destruct (em_validate e q) eqn:Hv; cbn [negb]; [|exact Hrest].
  destruct (em_handle e q) as [[d|]|reason] eqn:Hh.
  - rewrite await_Resolved. cbn [snd].
    destruct (has_results (Some d)); [discriminate | exact Hrest].
  - rewrite await_Resolved. cbn [snd]. exact Hrest.
  - rewrite await_Rejected. intros [= <-]. exists name, e, reason.
    split; [now left|]. repeat split; assumption.
Qed.

Lemma try_extractors_None
    (requestedBy : option User) (q : string) (exts : list (string * ExtractorModel)) :
  snd (try_extractors env requestedBy q exts) = Ok None ->
  Forall (passes_over q) exts.
Proof.
  induction exts as [|[name e] rest IH]; cbn [try_extractors]; [constructor|].
  destruct (em_validate e q) eqn:Hv; cbn [negb].
  - destruct (em_handle e q) as [[d|]|reason] eqn:Hh.
    + rewrite await_Resolved. cbn [snd].
      destruct (has_results (Some d)) eqn:Hr; [discriminate|].
      intros H. constructor; [|now apply IH].
      right. right. exists d. split; [exact Hh|].
      destruct (emd_data d) eqn:Hd; [reflexivity|].
      unfold has_results in Hr. rewrite Hd in Hr. discriminate.
    + rewrite await_Resolved. cbn [snd]. intros H.
      constructor; [|now apply IH]. right. left. exact Hh.
    + rewrite await_Rejected. discriminate.
  - intros H. constructor; [|now apply IH]. left. exact Hv.
Qed.

Lemma handle_calls_snoc
    (q : string) (pre : list (string * ExtractorModel)) (name : string) (e : ExtractorModel) :
  em_validate e q = true ->
  handle_calls q (pre ++ [(name, e)])
  = (handle_calls q pre ++ [extractor_handle (em_oid e) q])%list.
Proof.
  intros Hv. unfold handle_calls. rewrite List.filter_app, List.map_app.
  simpl. now rewrite Hv.
Qed.

(** *** Results are linked *)

Lemma normalize_linked (requestedBy : option User) (d : ExtractorModelData) :
  linked requestedBy (normalize env requestedBy d).
Proof.
  unfold linked, normalize. simpl. split.
  - apply List.Forall_forall. intros t Hin. apply List.in_map_iff in Hin.
    destruct Hin as (m & <- & _). destruct (emd_playlist d); split; reflexivity.
  - intros pl. destruct (emd_playlist d); simpl; [|discriminate].
    now intros [= <-].
Qed.

Lemma mapM_Forall {A B : Type} (P : B -> Prop) (f : A -> M B)
    (xs : list A) (ys : list B) :
  (forall x y, snd (f x) = Ok y -> P y) ->
  snd (mapM f xs) = Ok ys -> Forall P ys.
Proof.
  intros Hf. revert ys. induction xs as [|x rest IH]; intros ys; cbn [mapM].
  - intros [= <-]. constructor.
  - intros H. apply bind_Ok_inv in H. destruct H as (y & Hy & H).
    apply bind_Ok_inv in H. destruct H as (rest' & Hrest & H).
    injection H as <-. constructor; [now apply (Hf x) | now apply IH].
Qed.

Lemma soundcloud_tracks_linked
    (requestedBy : option User) (hits : list SearchHit) (ts : list Track) :
  snd (soundcloud_tracks env requestedBy hits) = Ok ts ->
  Forall (fun t => t_requestedBy t = requestedBy /\ t_playlist t = None) ts.
Proof.
  revert ts. induction hits as [|r rest IH]; intros ts.
  - simpl. intros [= <-]. constructor.
  - cbn [soundcloud_tracks]. rewrite await_catch_bind. cbn [snd].
    destruct (soundcloud_getSongInfo env (hit_url r)) as [[info|]|reason];
      try (intros H; apply IH; exact H).
    destruct (song_author info) as [author|]; [|discriminate].
    intros H. apply bind_Ok_inv in H. destruct H as (res & Hres & Hts).
    simpl in Hts. injection Hts as <-.
    constructor; [split; reflexivity | now apply IH].
Qed.

Lemma unlinked_tracks (requestedBy : option User) (ts : list Track) :
  Forall (fun t => t_requestedBy t = requestedBy /\ t_playlist t = None) ts ->
  linked requestedBy {| playlist := None; tracks := ts |}.
Proof. intros H. split; [exact H | discriminate]. Qed.

Lemma listed_tracks (requestedBy : option User) (pl : PlaylistHead) (ts : list Track) :
  Forall (fun t => t_requestedBy t = requestedBy /\ t_playlist t = Some pl) ts ->
  linked requestedBy {| playlist := Some {| pl_head := pl; pl_tracks := ts |};
                        tracks := ts |}.
Proof. intros H. split; [exact H | now intros pl' [= <-]]. Qed.

Lemma handle_soundcloud_linked (requestedBy : option User) (q : string) (r : SearchResult) :
  snd (handle_soundcloud env requestedBy q) = Ok r -> linked requestedBy r.
Proof.
  unfold handle_soundcloud.
  destruct (QueryType_eqb (QueryResolver_resolve env q) SOUNDCLOUD_TRACK).
  - rewrite bind_ret. intros H. apply bind_Ok_inv in H.
    destruct H as (ts & Hts & Hr). injection Hr as <-.
    apply unlinked_tracks. now apply soundcloud_tracks_linked in Hts.
  - rewrite await_catch_bind. cbn [snd].
    destruct (soundcloud_search env q) as [[[|hit hits]|]|reason];
      try (intros [= <-]; apply unlinked_tracks; constructor).
    intros H. apply bind_Ok_inv in H.
    destruct H as (ts & Hts & Hr). injection Hr as <-.
    apply unlinked_tracks. now apply soundcloud_tracks_linked in Hts.
Qed.

Lemma handle_spotify_list_linked (requestedBy : option User) (q : string) (r : SearchResult) :
  snd (handle_spotify_list env requestedBy q) = Ok r -> linked requestedBy r.
Proof.
  unfold handle_spotify_list. rewrite await_catch_bind. cbn [snd].
  destruct (Spotify_getData env q) as [[d|]|reason];
    try (intros [= <-]; apply unlinked_tracks; constructor).
  destruct (is_playlist_type d); cbn [negb].
  - intros H. apply bind_Ok_inv in H. destruct H as (ts & Hts & Hr).
    injection Hr as <-. apply listed_tracks.
    refine (mapM_Forall _ _ _ _ _ Hts). intros m t.
    unfold spotify_playlist_track. destruct (it_track m); [|discriminate].
    intros [= <-]. split; reflexivity.
  - rewrite bind_ret. intros [= <-]. apply listed_tracks.
    apply List.Forall_forall. intros t Hin. apply List.in_map_iff in Hin.
    destruct Hin as (m & <- & _). split; reflexivity.
Qed.

Lemma builtin_linked
    (requestedBy : option User) (q : string) (qt : QueryType) (r : SearchResult) :
  snd (builtin env requestedBy q qt) = Ok r -> linked requestedBy r.
Proof.
  destruct qt; cbn [builtin];
    try apply handle_soundcloud_linked; try apply handle_spotify_list_linked.
  - intros [= <-]. apply unlinked_tracks. constructor.
  - unfold handle_youtube_search. rewrite await_catch_bind. cbn [snd].
    destruct (YouTube_search env q) as [[vs|]|reason]; intros [= <-];
      apply unlinked_tracks; try constructor.
    apply List.Forall_forall. intros t Hin. apply List.in_map_iff in Hin.
    destruct Hin as (m & <- & _). split; reflexivity.
  - unfold handle_youtube_playlist. rewrite await_catch_bind. cbn [snd].
    destruct (YouTube_getPlaylist env q) as [[ytpl|]|reason];
      try (intros [= <-]; apply unlinked_tracks; constructor).
    unfold fetch_more. rewrite bind_Ok. cbn [snd].
    destruct (ytp_channel _) as [channel|]; [|discriminate].
    intros H. apply bind_Ok_inv in H. destruct H as (ts & Hts & Hr).
    injection Hr as <-. apply listed_tracks.
    refine (mapM_Forall _ _ _ _ _ Hts). intros video t.
    unfold youtube_playlist_track. destruct (v_thumbnail video); [|discriminate].
    intros [= <-]. split; reflexivity.
  - unfold handle_soundcloud_playlist. rewrite await_catch_bind. cbn [snd].
    destruct (SoundCloud_getPlaylist env q) as [[d|]|reason]; intros [= <-];
      try (apply unlinked_tracks; constructor).
    apply listed_tracks.
    apply List.Forall_forall. intros t Hin. apply List.in_map_iff in Hin.
    destruct Hin as (m & <- & _). split; reflexivity.
  - unfold handle_spotify_song. rewrite await_catch_bind. cbn [snd].
    destruct (Spotify_getData env q) as [[d|]|reason]; intros [= <-];
      apply unlinked_tracks; repeat constructor.
  - intros [= <-]. apply unlinked_tracks. constructor.
Qed.

(** X18.  Whatever [search] resolves a query text to, through an
    extractor or a built-in handler, every track names the resolved
    requester, every track points back to the playlist of the result (to
    none when the result has no playlist), and the playlist lists
    exactly the tracks of the result. *)
Theorem search_result_is_linked
    (exts : list (string * ExtractorModel)) (q : string) (o : SearchOptions)
    (r : SearchResult) :
  snd (search env exts (QueryString q) (Some o)) = Ok r ->
  linked (users_resolve env (so_requestedBy o)) r.
Proof.
  unfold search. intros H. apply bind_Ok_inv in H.
  destruct H as ([hit|] & Hhit & Hr).
  - injection Hr as <-. apply try_extractors_hit in Hhit.
    destruct Hhit as (name & e & d & _ & _ & _ & _ & ->). apply normalize_linked.
  - now apply builtin_linked in Hr.
Qed.

(** *** What [search] throws *)

Lemma bind_only_TypeError {A B : Type} (m : M A) (f : A -> M B) :
  only_TypeError m -> (forall a, only_TypeError (f a)) -> only_TypeError (bind m f).
Proof.
  intros Hm Hf e. destruct m as [t [a|e']]; simpl.
  - specialize (Hf a). destruct (f a) as [t' r]. intros H. apply (Hf e). exact H.
  - intros H. injection H as ->. now apply (Hm e).
Qed.

Lemma ret_only_TypeError {A : Type} (a : A) : only_TypeError (ret a).
Proof. intros e. discriminate. Qed.

Lemma await_catch_only_TypeError {A : Type} (c : Call) (outcome : Fetch (option A)) :
  only_TypeError (await_catch c outcome).
Proof. intros e. destruct outcome; discriminate. Qed.

Lemma throw_only_TypeError {A : Type} (message : string) :
  only_TypeError (@throw A (TypeError message)).
Proof. intros e [= <-]. now exists message. Qed.

Lemma mapM_only_TypeError {A B : Type} (f : A -> M B) (xs : list A) :
  (forall x, only_TypeError (f x)) -> only_TypeError (mapM f xs).
Proof.
  intros Hf. induction xs as [|x rest IH]; simpl.
  - apply ret_only_TypeError.
  - apply bind_only_TypeError; [apply Hf|]. intros y.
    apply bind_only_TypeError; [exact IH|]. intros ys. apply ret_only_TypeError.
Qed.

Lemma soundcloud_tracks_only_TypeError
    (requestedBy : option User) (hits : list SearchHit) :
  only_TypeError (soundcloud_tracks env requestedBy hits).
Proof.
  induction hits as [|r rest IH]; cbn [soundcloud_tracks].
  - apply ret_only_TypeError.
  - apply bind_only_TypeError; [apply await_catch_only_TypeError|].
    intros [info|]; [|exact IH].
    destruct (song_author info); [|apply throw_only_TypeError].
    apply bind_only_TypeError; [exact IH|]. intros res. apply ret_only_TypeError.
Qed.

Lemma handle_soundcloud_only_TypeError (requestedBy : option User) (q : string) :
  only_TypeError (handle_soundcloud env requestedBy q).
Proof.
  unfold handle_soundcloud. apply bind_only_TypeError.
  - destruct (QueryType_eqb _ _);
      [apply ret_only_TypeError | apply await_catch_only_TypeError].
  - intros [[|hit hits]|]; try apply ret_only_TypeError.
    apply bind_only_TypeError; [apply soundcloud_tracks_only_TypeError|].
    intros res. apply ret_only_TypeError.
Qed.

Lemma handle_spotify_list_only_TypeError (requestedBy : option User) (q : string) :
  only_TypeError (handle_spotify_list env requestedBy q).
Proof.
  unfold handle_spotify_list.
  apply bind_only_TypeError; [apply await_catch_only_TypeError|].
  intros [d|]; [|apply ret_only_TypeError].
  apply bind_only_TypeError; [|intros ts; apply ret_only_TypeError].
  destruct (negb (is_playlist_type d)); [apply ret_only_TypeError|].
  apply mapM_only_TypeError. intros m. unfold spotify_playlist_track.
  destruct (it_track m); [apply ret_only_TypeError | apply throw_only_TypeError].
Qed.

Lemma builtin_only_TypeError (requestedBy : option User) (q : string) (qt : QueryType) :
  only_TypeError (builtin env requestedBy q qt).
Proof.
  destruct qt; cbn [builtin]; try apply ret_only_TypeError;
    try apply handle_soundcloud_only_TypeError;
    try apply handle_spotify_list_only_TypeError.
  - unfold handle_youtube_search.
    apply bind_only_TypeError; [apply await_catch_only_TypeError|].
    intros [vs|]; apply ret_only_TypeError.
  - unfold handle_youtube_playlist.
    apply bind_only_TypeError; [apply await_catch_only_TypeError|].
    intros [ytpl|]; [|apply ret_only_TypeError].
    apply bind_only_TypeError; [intros e; discriminate|].
    intros loaded. destruct (ytp_channel loaded); [|apply throw_only_TypeError].
    apply bind_only_TypeError; [|intros ts; apply ret_only_TypeError].
    apply mapM_only_TypeError. intros video. unfold youtube_playlist_track.
    destruct (v_thumbnail video);
      [apply ret_only_TypeError | apply throw_only_TypeError].
  - unfold handle_soundcloud_playlist.
    apply bind_only_TypeError; [apply await_catch_only_TypeError|].
    intros [d|]; apply ret_only_TypeError.
  - unfold handle_spotify_song.
    apply bind_only_TypeError; [apply await_catch_only_TypeError|].
    intros [d|]; apply ret_only_TypeError.
Qed.

(** X19.  With options supplied, a [search] for a query text fails in
    two ways only: with the rejection of a registered extractor that
    accepted the query, or with a [TypeError] raised in a built-in
    handler after every registered extractor was passed over.  It never
    throws an [Error] of its own. *)
Theorem search_failures
    (exts : list (string * ExtractorModel)) (q : string) (o : SearchOptions)
    (e : JsError) :
  snd (search env exts (QueryString q) (Some o)) = Throw e ->
  (exists name extractor reason,
      In (name, extractor) exts /\ em_validate extractor q = true
      /\ em_handle extractor q = Rejected reason /\ e = Rejection reason)
  \/ (Forall (passes_over q) exts /\ exists message, e = TypeError message).
Proof.
  unfold search.
  destruct (try_extractors env (users_resolve env (so_requestedBy o)) q exts)
    as [t [[hit|]|err]] eqn:E.
  - rewrite bind_Ok. discriminate.
  - rewrite bind_Ok. cbn [snd]. intros H. right. split.
    + apply (try_extractors_None (users_resolve env (so_requestedBy o))).
      now rewrite E.
    + now apply builtin_only_TypeError in H.
  - simpl. intros [= <-]. left.
    apply (try_extractors_Throw (users_resolve env (so_requestedBy o))).
    now rewrite E.
Qed.

(** X20.  When the first extractor that is not passed over accepts the
    query and its fetch rejects, [search] rejects with that reason:
    the extractors registered after it are not asked, and no built-in
    handler runs. *)
Theorem extractor_rejection_ends_search
    (pre post : list (string * ExtractorModel)) (name : string) (e : ExtractorModel)
    (reason : string) (q : string) (o : SearchOptions) :
  Forall (passes_over q) pre ->
  em_validate e q = true ->
  em_handle e q = Rejected reason ->
  search env (pre ++ (name, e) :: post) (QueryString q) (Some o)
  = (handle_calls q (pre ++ [(name, e)]), Throw (Rejection reason)).
Proof.
  intros Hpre Hv Hh. unfold search.
  rewrite (try_extractors_passed_over env _ q pre _ Hpre).
  cbn [try_extractors]. rewrite Hv. cbn [negb]. rewrite Hh, await_Rejected.
  cbn [fst snd bind]. now rewrite handle_calls_snoc.
Qed.

(** X21.  When every registered extractor is passed over, [search] is
    the built-in handler of the source kind, run after the fetches of
    the extractors that accepted the query and of no other, in
    registration order. *)
Theorem search_falls_through
    (exts : list (string * ExtractorModel)) (q : string) (o : SearchOptions) :
  Forall (passes_over q) exts ->
  let requestedBy := users_resolve env (so_requestedBy o) in
  let kind := effective_kind env q (nullish (so_searchEngine o) AUTO) in
  search env exts (QueryString q) (Some o)
  = ((handle_calls q exts ++ fst (builtin env requestedBy q kind))%list,
     snd (builtin env requestedBy q kind)).
Proof.
  intros Hpre requestedBy kind.
  pose proof (try_extractors_passed_over env requestedBy q exts [] Hpre) as E.
  rewrite app_nil_r in E. cbn [try_extractors ret fst snd] in E.
  rewrite app_nil_r in E.
  unfold search. fold requestedBy. fold kind. rewrite E. now rewrite bind_Ok.
Qed.

(** *** The SoundCloud loop *)

Lemma bind_ret_trace {A B : Type} (m : M A) (g : A -> B) :
  fst (bind m (fun a => ret (g a))) = fst m.
Proof. destruct m as [t [a|e]]; simpl; [apply app_nil_r | reflexivity]. Qed.

Lemma soundcloud_tracks_found
    (requestedBy : option User) (hits : list SearchHit) (ts : list Track) :
  snd (soundcloud_tracks env requestedBy hits) = Ok ts ->
  fst (soundcloud_tracks env requestedBy hits)
  = map (fun r => call_soundcloud_getSongInfo (hit_url r)) hits
  /\ map t_engine ts = map (fun s => Some (EngineSong s)) (found_songs env hits).
Proof.
  unfold found_songs. revert ts. induction hits as [|r rest IH]; intros ts.
  - simpl. intros [= <-]. split; reflexivity.
  - cbn [soundcloud_tracks omap list_omap map]. rewrite await_catch_bind.
    cbv zeta. cbn [fst snd].
    destruct (soundcloud_getSongInfo env (hit_url r)) as [[info|]|reason].
    + destruct (song_author info) as [author|]; [|discriminate].
      rewrite bind_ret_trace.
      intros H. apply bind_Ok_inv in H. destruct H as (res & Hres & Hts).
      simpl in Hts. injection Hts as <-.
      destruct (IH _ Hres) as [Hc He]. split; [now rewrite Hc|].
      simpl. now rewrite He.
    + intros H. destruct (IH _ H) as [Hc He]. split; [now rewrite Hc | exact He].
    + intros H. destruct (IH _ H) as [Hc He]. split; [now rewrite Hc | exact He].
Qed.

(** X22.  When the SoundCloud handler returns, it has looked up every
    hit once, in order, after the search (which it skips for a track
    URL), and its tracks are exactly the songs of the lookups that
    yielded one, in that order: a lookup that rejects or finds nothing
    is skipped and the loop goes on.  The result has no playlist. *)
Theorem soundcloud_skips_failed_lookups
    (requestedBy : option User) (q : string) (k : QueryType) (r : SearchResult) :
  k = SOUNDCLOUD_TRACK \/ k = SOUNDCLOUD_SEARCH ->
  snd (builtin env requestedBy q k) = Ok r ->
  playlist r = None
  /\ map t_engine (tracks r)
     = map (fun s => Some (EngineSong s)) (found_songs env (soundcloud_hits env q))
  /\ fst (builtin env requestedBy q k) = soundcloud_calls env q.
Proof.
  intros Hk.
  assert (E : builtin env requestedBy q k = handle_soundcloud env requestedBy q)
    by (destruct Hk as [-> | ->]; reflexivity).
  rewrite E. clear E Hk.
  unfold handle_soundcloud, soundcloud_calls, soundcloud_hits.
  destruct (QueryType_eqb (QueryResolver_resolve env q) SOUNDCLOUD_TRACK).
  - rewrite bind_ret, bind_ret_trace. intros H. apply bind_Ok_inv in H.
    destruct H as (ts & Hts & Hr). injection Hr as <-.
    destruct (soundcloud_tracks_found _ _ _ Hts) as [Hc He].
    split; [reflexivity|]. split; [exact He | exact Hc].
  - rewrite await_catch_bind. cbv zeta. cbn [fst snd].
    destruct (soundcloud_search env q) as [[[|hit hits]|]|reason];
      try (intros [= <-]; repeat split; reflexivity).
    rewrite bind_ret_trace. intros H. apply bind_Ok_inv in H.
    destruct H as (ts & Hts & Hr). injection Hr as <-.
    destruct (soundcloud_tracks_found _ _ _ Hts) as [Hc He].
    split; [reflexivity|]. split; [exact He|]. rewrite Hc. reflexivity.
Qed.

(** *** The thumbnail of a Spotify song *)

(** X23.  For a Spotify song whose album has cover art, the cover URL
    only decides which template is used: the track's thumbnail is the
    image-CDN prefix followed by what the preview URL has after its
    client id (the text undefined when there is no preview URL), and the
    cover URL itself is not part of it. *)
Theorem spotify_cover_is_not_the_thumbnail
    (requestedBy : option User) (q : string) (d : SpotifyData) (cover : string) :
  Spotify_getData env q = Resolved (Some d) ->
  chain (chain (sd_album d) (fun a => first (album_images a))) image_url = Some cover ->
  cover <> "" ->
  exists t,
    builtin env requestedBy q SPOTIFY_SONG
    = ([call_Spotify_getData q], Ok {| playlist := None; tracks := [t] |})
    /\ t_thumbnail t
       = Some ("https://i.scdn.co/image/"
               ++ template_string (chain (sd_preview_url d) (split_1 "?cid="))).
Proof.
  intros Hd Hcover Hne. cbn [builtin]. unfold handle_spotify_song.
  rewrite await_catch_bind, Hd. cbv zeta. cbn [fst snd ret].
  eexists. split; [reflexivity|]. cbn [t_thumbnail].
  unfold spotify_song_thumbnail. rewrite Hcover.
  apply truthy_string_Some in Hne. now rewrite Hne.
Qed.

(** *** The source kind *)

Lemma effective_kind_classified (q : string) :
  effective_kind env q (QueryResolver_resolve env q) = QueryResolver_resolve env q.
Proof. unfold effective_kind. now destruct (QueryType_eqb _ _). Qed.

(** X24.  Leaving [searchEngine] out of the options, or setting it to
    [AUTO], is the same as forcing the kind the classifier gives the
    query: the calls made and the outcome are the same. *)
Theorem auto_is_the_classified_kind
    (exts : list (string * ExtractorModel)) (q : string) (o : SearchOptions) :
  so_searchEngine o = None \/ so_searchEngine o = Some AUTO ->
  search env exts (QueryString q) (Some o)
  = search env exts (QueryString q)
      (Some (with_engine (Some (QueryResolver_resolve env q)) o)).
Proof.
  intros Hauto. unfold search, with_engine. cbn [so_requestedBy so_searchEngine nullish].
  rewrite effective_kind_classified.
  assert (E : effective_kind env q (nullish (so_searchEngine o) AUTO)
              = QueryResolver_resolve env q)
    by (destruct Hauto as [-> | ->]; reflexivity).
  now rewrite E.
Qed.

End PipelineOrder.

(** *** Runs of the pipeline on the concrete providers *)

Lemma search_result_is_linked_witness :
  exists r,
    snd (Resolve.search Demo.providers []
           (Resolve.QueryString "https://www.youtube.com/playlist?list=PL1")
           (Some (Demo.asked_by "u" None)))
    = Ok r
    /\ is_Some (Resolve.playlist r)
    /\ Outcomes.linked (Some "u") r.
Proof.
  eexists. split; [vm_compute; reflexivity|].
  split; [eexists; reflexivity|].
  apply (search_result_is_linked Demo.providers []
           "https://www.youtube.com/playlist?list=PL1" (Demo.asked_by "u" None)).
  vm_compute. reflexivity.
Defined.

Lemma search_failures_witness :
  (exists name extractor reason,
      In (name, extractor) [("Silent", Demo.silent); ("Failing", Demo.failing)]
      /\ Registry.em_validate extractor "anything" = true
      /\ Registry.em_handle extractor "anything" = Rejected reason
      /\ Rejection "network down" = Rejection reason)
  \/ (Forall (Resolve.passes_over "anything")
              [("Silent", Demo.silent); ("Failing", Demo.failing)]
      /\ exists message, Rejection "network down" = TypeError message).
Proof.
  apply (search_failures Demo.providers
           [("Silent", Demo.silent); ("Failing", Demo.failing)]
           "anything" (Demo.asked_by "u" None)).
  reflexivity.
Defined.

Lemma extractor_rejection_ends_search_witness :
  Resolve.search Demo.providers
    [("Picky", Demo.picky); ("Silent", Demo.silent); ("Failing", Demo.failing);
     ("Yielding", Demo.yielding)]
    (Resolve.QueryString "anything") (Some (Demo.asked_by "u" None))
  = ([Resolve.extractor_handle 1 "anything"; Resolve.extractor_handle 0 "anything"],
     Throw (Rejection "network down")).
Proof.
  apply (extractor_rejection_ends_search Demo.providers
           [("Picky", Demo.picky); ("Silent", Demo.silent)]
           [("Yielding", Demo.yielding)] "Failing" Demo.failing "network down"
           "anything" (Demo.asked_by "u" None)).
  - constructor; [left; reflexivity|].
    constructor; [|constructor].
    right. right. eexists. split; reflexivity.
  - reflexivity.
  - reflexivity.
Defined.

Lemma search_falls_through_witness :
  Resolve.search Demo.providers [("Picky", Demo.picky); ("Silent", Demo.silent)]
    (Resolve.QueryString "anything") (Some (Demo.asked_by "u" None))
  = ((Resolve.handle_calls "anything" [("Picky", Demo.picky); ("Silent", Demo.silent)]
      ++ fst (Resolve.builtin Demo.providers (Some "u") "anything" Resolve.YOUTUBE_SEARCH))%list,
     snd (Resolve.builtin Demo.providers (Some "u") "anything" Resolve.YOUTUBE_SEARCH)).
Proof.
  apply (search_falls_through Demo.providers
           [("Picky", Demo.picky); ("Silent", Demo.silent)]
           "anything" (Demo.asked_by "u" None)).
  constructor; [left; reflexivity|].
  constructor; [|constructor].
  right. right. eexists. split; reflexivity.
Defined.

Lemma soundcloud_skips_failed_lookups_witness :
  exists r,
    snd (Resolve.builtin Demo.providers (Some "u") "some song" Resolve.SOUNDCLOUD_SEARCH)
    = Ok r
    /\ map Resolve.t_engine (Resolve.tracks r) = [Some (Resolve.EngineSong Demo.a_song)]
    /\ fst (Resolve.builtin Demo.providers (Some "u") "some song" Resolve.SOUNDCLOUD_SEARCH)
       = [Resolve.call_soundcloud_search "some song";
          Resolve.call_soundcloud_getSongInfo "https://soundcloud.com/a/one";
          Resolve.call_soundcloud_getSongInfo "https://soundcloud.com/a/two"].
Proof.
  eexists. split; [vm_compute; reflexivity|].
  destruct (soundcloud_skips_failed_lookups Demo.providers (Some "u") "some song"
              Resolve.SOUNDCLOUD_SEARCH _ (or_intror eq_refl) eq_refl)
    as (_ & He & Hc).
  split; [exact He | exact Hc].
Defined.

Lemma spotify_cover_is_not_the_thumbnail_witness :
  exists t,
    Resolve.builtin (Demo.spotify_answers Demo.a_single) (Some "u")
      "https://open.spotify.com/track/1" Resolve.SPOTIFY_SONG
    = ([Resolve.call_Spotify_getData "https://open.spotify.com/track/1"],
       Ok {| Resolve.playlist := None; Resolve.tracks := [t] |})
    /\ Resolve.t_thumbnail t = Some "https://i.scdn.co/image/undefined".
Proof.
  apply (spotify_cover_is_not_the_thumbnail (Demo.spotify_answers Demo.a_single)
           (Some "u") "https://open.spotify.com/track/1" Demo.a_single
           "https://i.scdn.co/image/cover").
  - reflexivity.
  - reflexivity.
  - discriminate.
Defined.

Lemma auto_is_the_classified_kind_witness :
  Resolve.search Demo.providers [] (Resolve.QueryString "some song")
    (Some (Demo.asked_by "u" None))
  = Resolve.search Demo.providers [] (Resolve.QueryString "some song")
      (Some (Demo.asked_by "u" (Some Resolve.YOUTUBE_SEARCH))).
Proof.
  apply (auto_is_the_classified_kind Demo.providers [] "some song"
           (Demo.asked_by "u" None)).
  left. reflexivity.
Defined.
